(** * Plannotator: anchor resolution, highlight lifecycle and share links

    A shallow embedding of the annotation viewer ([Viewer.tsx]), of the
    sharing hook ([useSharing.ts]) and of the identity helper
    ([identity.ts]), with the properties their specification states, and of
    the plan server ([server/index.ts]) with its hook script, the settings
    dialog ([Settings.tsx]) and the [localStorage] variant of the identity
    helper, with properties read off the code.

    JavaScript strings are modelled as [string] (one [ascii] per code
    unit), DOM nodes as a rose tree of text nodes and elements, node
    references as paths (child indices from the viewer's container). *)

From Stdlib Require Import String Ascii List Arith NArith Bool Lia.
From Stdlib Require Import DecimalString DecimalNat DecimalN FinFun Sorted.
Import ListNotations.

Infix "+++" := String.append (right associativity, at level 60).

(** ** JavaScript string primitives *)

Module JsString.

(** [s.length] *)
Definition len (s : string) : nat := String.length s.
Arguments len : simpl never.

(** [s.slice(0, n)] for [0 <= n] *)
Fixpoint take (n : nat) (s : string) : string :=
  match n, s with
  | S k, String c s' => String c (take k s')
  | _, _ => EmptyString
  end.

(** [s.slice(n)] for [0 <= n] *)
Fixpoint drop (n : nat) (s : string) : string :=
  match n, s with
  | S k, String _ s' => drop k s'
  | _, _ => s
  end.

(** [s.substring(a, b)] for [a <= b] *)
Definition substring (a b : nat) (s : string) : string :=
  take (b - a) (drop a s).

(** [s.startsWith(pat)] *)
Fixpoint startsWith (pat s : string) : bool :=
  match pat, s with
  | EmptyString, _ => true
  | String _ _, EmptyString => false
  | String a pat', String b s' => Ascii.eqb a b && startsWith pat' s'
  end.

(** [s.indexOf(pat)]; [None] stands for the result [-1]. *)
Fixpoint indexOf (s pat : string) : option nat :=
  if startsWith pat s then Some 0
  else match s with
       | EmptyString => None
       | String _ s' => option_map S (indexOf s' pat)
       end.

(** [s.split(sep)[0]]: the part of [s] before the first [sep]; with an
    empty separator [split] cuts [s] into its code units, and element
    [0] of the empty array is [undefined] ([None]). *)
Definition splitFirst (s sep : string) : option string :=
  match sep with
  | EmptyString =>
      match s with
      | EmptyString => None
      | String c _ => Some (String c EmptyString)
      end
  | String _ _ =>
      match indexOf s sep with
      | Some i => Some (take i s)
      | None => Some s
      end
  end.

(** [pat] occurs in [s] at index [i]. *)
Definition occursAt (s pat : string) (i : nat) : Prop :=
  i <= len s /\ startsWith pat (drop i s) = true.

Definition concat (l : list string) : string :=
  fold_right String.append EmptyString l.

(** [piece] is a part of [s]: it lies in [s] between two other parts. *)
Definition factorOf (piece s : string) : Prop :=
  exists pre post, s = pre +++ piece +++ post.

End JsString.

Import JsString.

(** ** The document tree *)

Definition path := list nat.

Record attrs := {
  tagName : string;
  classList : list string;
  dataBindId : option string;      (* [data-bind-id], set by the viewer *)
  dataBlockId : option string;     (* [data-block-id], set by the renderer *)
  dataHighlightId : option string  (* set by the selection highlighter *)
}.

#[local] Unset Elimination Schemes.
Inductive node : Type :=
| Text (data : string)
| Elem (a : attrs) (kids : list node).
#[local] Set Elimination Schemes.

(** Induction over the tree, with the hypothesis for every child. *)
Fixpoint node_induction (P : node -> Prop)
    (HText : forall s, P (Text s))
    (HElem : forall a kids, Forall P kids -> P (Elem a kids))
    (n : node) : P n :=
  match n with
  | Text s => HText s
  | Elem a kids =>
      HElem a kids
        ((fix go (l : list node) : Forall P l :=
            match l with
            | [] => Forall_nil P
            | k :: l' => Forall_cons k (node_induction P HText HElem k) (go l')
            end) kids)
  end.

(** [node.textContent] *)
Fixpoint textContent (n : node) : string :=
  match n with
  | Text s => s
  | Elem _ kids =>
      (fix go (l : list node) : string :=
         match l with
         | [] => EmptyString
         | k :: l' => textContent k +++ go l'
         end) kids
  end.

Arguments textContent : simpl never.

Definition textOfList (l : list node) : string :=
  JsString.concat (map textContent l).

(** The text nodes below [n] in document order, each with its path: what a
    [TreeWalker] with [NodeFilter.SHOW_TEXT] hands out through [nextNode]. *)
Fixpoint textNodes (n : node) : list (path * string) :=
  match n with
  | Text s => [([], s)]
  | Elem _ kids =>
      (fix go (i : nat) (l : list node) : list (path * string) :=
         match l with
         | [] => []
         | k :: l' =>
             map (fun ps => (i :: fst ps, snd ps)) (textNodes k) ++ go (S i) l'
         end) 0 kids
  end.

(** The data of the text nodes below [n], in document order. *)
Fixpoint leaves (n : node) : list string :=
  match n with
  | Text s => [s]
  | Elem _ kids => flat_map leaves kids
  end.

Definition textNodesFrom (i : nat) (l : list node) : list (path * string) :=
  (fix go (i : nat) (l : list node) : list (path * string) :=
     match l with
     | [] => []
     | k :: l' =>
         map (fun ps => (i :: fst ps, snd ps)) (textNodes k) ++ go (S i) l'
     end) i l.

Fixpoint nodeAt (p : path) (n : node) : option node :=
  match p with
  | [] => Some n
  | i :: p' =>
      match n with
      | Text _ => None
      | Elem _ kids =>
          match nth_error kids i with
          | Some k => nodeAt p' k
          | None => None
          end
      end
  end.

Fixpoint path_eqb (p q : path) : bool :=
  match p, q with
  | [], [] => true
  | i :: p', j :: q' => Nat.eqb i j && path_eqb p' q'
  | _, _ => false
  end.

(** ** Ranges *)

Record Range := {
  startContainer : path;
  startOffset : nat;
  endContainer : path;
  endOffset : nat
}.

(** Text of the walk from the start of list [nodes] up to the end boundary. *)
Fixpoint rangeTextTo (ep : path) (eo : nat) (nodes : list (path * string))
  : option string :=
  match nodes with
  | [] => None
  | (p, t) :: rest =>
      if path_eqb p ep then Some (take eo t)
      else option_map (String.append t) (rangeTextTo ep eo rest)
  end.

(** [range.toString()] for a range whose boundary points lie in text nodes:
    the data of the text nodes from the start boundary to the end boundary. *)
Fixpoint rangeTextIn (r : Range) (nodes : list (path * string))
  : option string :=
  match nodes with
  | [] => None
  | (p, t) :: rest =>
      if path_eqb p (startContainer r) then
        if path_eqb p (endContainer r)
        then Some (substring (startOffset r) (endOffset r) t)
        else option_map (String.append (drop (startOffset r) t))
               (rangeTextTo (endContainer r) (endOffset r) rest)
      else rangeTextIn r rest
  end.

Definition rangeToString (dom : node) (r : Range) : option string :=
  rangeTextIn r (textNodes dom).

(** Index of a boundary point in the flattened text of the walked nodes. *)
Fixpoint flatIndexIn (p : path) (o : nat) (nodes : list (path * string))
  : option nat :=
  match nodes with
  | [] => None
  | (q, t) :: rest =>
      if path_eqb q p then Some o
      else option_map (Nat.add (len t)) (flatIndexIn p o rest)
  end.

Definition rangeStartIndex (dom : node) (r : Range) : option nat :=
  flatIndexIn (startContainer r) (startOffset r) (textNodes dom).

(** [fullText] of [findTextInDOM]: the walked text nodes joined. *)
Definition texts (nodes : list (path * string)) : string :=
  JsString.concat (map snd nodes).

(** Text of the walk from the boundary point [(sp, so)] to the end of the
    list [nodes]. *)
Fixpoint rangeTextFrom (sp : path) (so : nat) (nodes : list (path * string))
  : option string :=
  match nodes with
  | [] => None
  | (p, t) :: rest =>
      if path_eqb p sp then Some (drop so t +++ texts rest)
      else rangeTextFrom sp so rest
  end.

(** ** AnchorResolver: [findTextInDOM] *)

Module Resolver.

(** First loop of [findTextInDOM]: the first text node that holds
    [searchText] whole. *)
Fixpoint fastPath (searchText : string) (nodes : list (path * string))
  : option Range :=
  match nodes with
  | [] => None
  | (p, text) :: rest =>
      match indexOf text searchText with
      | Some index =>
          Some {| startContainer := p; startOffset := index;
                  endContainer := p; endOffset := index + len searchText |}
      | None => fastPath searchText rest
      end
  end.

(** Second loop: walk the text nodes again with the running [charCount];
    returns [startNode]/[startOffset] and [endNode]/[endOffset]. *)
Fixpoint slowWalk (searchIndex searchLen charCount : nat)
    (start : option (path * nat)) (nodes : list (path * string))
  : option (path * nat) * option (path * nat) :=
  match nodes with
  | [] => (start, None)
  | (p, text) :: rest =>
      let nodeLength := len text in
      let start' :=
        match start with
        | None =>
            if searchIndex <? charCount + nodeLength
            then Some (p, searchIndex - charCount)
            else None
        | Some _ => start
        end in
      match start' with
      | Some _ =>
          if searchIndex + searchLen <=? charCount + nodeLength
          then (start', Some (p, searchIndex + searchLen - charCount))
          else slowWalk searchIndex searchLen (charCount + nodeLength)
                 start' rest
      | None =>
          slowWalk searchIndex searchLen (charCount + nodeLength) start' rest
      end
  end.

(** [findTextInDOM(searchText)] on the container [dom]; [hasSelection]
    says whether [window.getSelection()] returns an object. [None] is the
    source's [null]. *)
Definition findTextInDOM (dom : node) (hasSelection : bool)
    (searchText : string) : option Range :=
  match fastPath searchText (textNodes dom) with
  | Some r => Some r
  | None =>
      let fullText := textContent dom in
      match indexOf fullText searchText with
      | None => None
      | Some searchIndex =>
          if negb hasSelection then None
          else
            match slowWalk searchIndex (len searchText) 0 None
                    (textNodes dom) with
            | (Some (sn, so), Some (en, eo)) =>
                Some {| startContainer := sn; startOffset := so;
                        endContainer := en; endOffset := eo |}
            | _ => None
            end
      end
  end.

End Resolver.

(** ** DOM queries and mutations used by the viewer *)

Module Dom.

Definition selector := attrs -> bool.

Definition opt_string_eqb (o : option string) (s : string) : bool :=
  match o with
  | Some t => String.eqb t s
  | None => false
  end.

(** The attribute test of [[data-bind-id="..."]], for the value [id] of the
    string between the quotes: the element carries [data-bind-id], and its
    value is [id]. *)
Definition bindIdIs (id : string) : selector :=
  fun a => opt_string_eqb (dataBindId a) id.

(** [[data-bind-id]] *)
Definition hasBindId : selector :=
  fun a => match dataBindId a with Some _ => true | None => false end.

(** [.cls] *)
Definition hasClass (cls : string) : selector :=
  fun a => existsb (String.eqb cls) (classList a).

(** a tag selector such as [code] *)
Definition tagIs (tag : string) : selector :=
  fun a => String.eqb (tagName a) tag.

(** the highlighter's own marks of one selection *)
Definition highlightIdIs (id : string) : selector :=
  fun a => opt_string_eqb (dataHighlightId a) id.

(** A selector that does not look at the class list. *)
Definition classBlind (sel : selector) : Prop :=
  forall tag cl cl' b k h,
    sel {| tagName := tag; classList := cl; dataBindId := b;
           dataBlockId := k; dataHighlightId := h |}
    = sel {| tagName := tag; classList := cl'; dataBindId := b;
             dataBlockId := k; dataHighlightId := h |}.

(** Elements of the subtree [n] (itself included) that match, in document
    order. *)
Fixpoint matchesIn (sel : selector) (n : node) : list path :=
  match n with
  | Text _ => []
  | Elem a kids =>
      (if sel a then [[]] else []) ++
      (fix go (i : nat) (l : list node) : list path :=
         match l with
         | [] => []
         | k :: l' => map (cons i) (matchesIn sel k) ++ go (S i) l'
         end) 0 kids
  end.

Definition matchesFrom (sel : selector) (i : nat) (l : list node) : list path :=
  (fix go (i : nat) (l : list node) : list path :=
     match l with
     | [] => []
     | k :: l' => map (cons i) (matchesIn sel k) ++ go (S i) l'
     end) i l.

(** [n.querySelectorAll(sel)]: matching descendants of [n]. *)
Definition querySelectorAll (sel : selector) (n : node) : list path :=
  match n with
  | Text _ => []
  | Elem _ kids => matchesFrom sel 0 kids
  end.

(** [n.querySelector(sel)] *)
Definition querySelector (sel : selector) (n : node) : option path :=
  hd_error (querySelectorAll sel n).

(** Some element below [n] matches. *)
Fixpoint anyMatch (sel : selector) (n : node) : bool :=
  match n with
  | Text _ => false
  | Elem a kids => sel a || existsb (anyMatch sel) kids
  end.

Definition anyDescendant (sel : selector) (n : node) : bool :=
  match n with
  | Text _ => false
  | Elem _ kids => existsb (anyMatch sel) kids
  end.

(** Replace child [i] of an element by the nodes [ks]. *)
Definition spliceKid (i : nat) (ks : list node) (kids : list node) : list node :=
  firstn i kids ++ ks ++ skipn (S i) kids.

(** The unwrap loop of the viewer, on the element at path [p]:
    [while (el.firstChild) parent.insertBefore(el.firstChild, el);
     el.remove()]. *)
Fixpoint unwrapAt (p : path) (n : node) : node :=
  match p, n with
  | i :: p', Elem a kids =>
      match nth_error kids i with
      | Some k =>
          match p', k with
          | [], Elem _ inner => Elem a (spliceKid i inner kids)
          | [], Text _ => n
          | _ :: _, _ => Elem a (spliceKid i [unwrapAt p' k] kids)
          end
      | None => n
      end
  | _, _ => n
  end.

(** [querySelectorAll(sel).forEach(unwrap)]: the static node list is walked
    in document order; unwrapping an element keeps the other listed
    elements and their order, so the next listed element is the first
    match of the tree at that moment. [n] is the length of the list. *)
Fixpoint unwrapFirst (n : nat) (sel : selector) (dom : node) : node :=
  match n with
  | 0 => dom
  | S k =>
      match querySelector sel dom with
      | Some p => unwrapFirst k sel (unwrapAt p dom)
      | None => dom
      end
  end.

Definition unwrapEach (sel : selector) (dom : node) : node :=
  unwrapFirst (length (querySelectorAll sel dom)) sel dom.

(** [el.classList.add(cls)] on every element that matches. *)
Fixpoint addClassWhere (sel : selector) (cls : string) (n : node) : node :=
  match n with
  | Text s => Text s
  | Elem a kids =>
      let a' :=
        if sel a then
          {| tagName := tagName a;
             classList := if hasClass cls a then classList a
                          else classList a ++ [cls];
             dataBindId := dataBindId a;
             dataBlockId := dataBlockId a;
             dataHighlightId := dataHighlightId a |}
        else a in
      Elem a' (map (addClassWhere sel cls) kids)
  end.

(** *** Ranges with both boundary points in text nodes *)

Definition boundary := (path * nat)%type.

Definition collapsed (r : Range) : bool :=
  path_eqb (startContainer r) (endContainer r)
  && Nat.eqb (startOffset r) (endOffset r).

Fixpoint isPrefix (q p : path) : bool :=
  match q, p with
  | [], _ => true
  | i :: q', j :: p' => Nat.eqb i j && isPrefix q' p'
  | _ :: _, [] => false
  end.

(** The element ancestors of the text node at [p]. *)
Fixpoint properPrefixes (p : path) : list path :=
  match p with
  | [] => []
  | i :: p' => [] :: map (cons i) (properPrefixes p')
  end.

(** Some element is partially contained in the range: it is an ancestor of
    one boundary node and not of the other. *)
Definition partiallyContainsElement (r : Range) : bool :=
  existsb (fun q => negb (isPrefix q (endContainer r)))
    (properPrefixes (startContainer r))
  || existsb (fun q => negb (isPrefix q (startContainer r)))
       (properPrefixes (endContainer r)).

(** Extraction from the boundary point [(p, o)] to the end of [n]: the node
    that stays and the clone that goes to the fragment. *)
Fixpoint extractTail (p : path) (o : nat) (n : node) : option (node * node) :=
  match p, n with
  | [], Text s => Some (Text (take o s), Text (drop o s))
  | i :: p', Elem a kids =>
      match nth_error kids i with
      | Some k =>
          match extractTail p' o k with
          | Some (stay, clone) =>
              Some (Elem a (firstn i kids ++ [stay]),
                    Elem a (clone :: skipn (S i) kids))
          | None => None
          end
      | None => None
      end
  | _, _ => None
  end.

(** Extraction from the start of [n] to the boundary point [(p, o)]: the
    clone that goes to the fragment and the node that stays. *)
Fixpoint extractHead (p : path) (o : nat) (n : node) : option (node * node) :=
  match p, n with
  | [], Text s => Some (Text (take o s), Text (drop o s))
  | i :: p', Elem a kids =>
      match nth_error kids i with
      | Some k =>
          match extractHead p' o k with
          | Some (clone, stay) =>
              Some (Elem a (firstn i kids ++ [clone]),
                    Elem a (stay :: skipn (S i) kids))
          | None => None
          end
      | None => None
      end
  | _, _ => None
  end.

(** Children [i+1 .. j-1] of a node: those wholly inside the range. *)
Definition containedKids (i j : nat) (kids : list node) : list node :=
  firstn (j - S i) (skipn (S i) kids).

(** Descent to the common ancestor of the boundary nodes, and extraction
    there. Result: the tree left behind, the fragment, and the collapsed
    position of the range afterwards. *)
Fixpoint extractBetween (sp ep : path) (so eo : nat) (n : node)
  : option (node * list node * boundary) :=
  match sp, ep, n with
  | [], [], Text s =>
      if so <=? eo then
        Some (Text (take so s +++ drop eo s), [Text (substring so eo s)],
              ([], so))
      else None
  | i :: sp', j :: ep', Elem a kids =>
      if i =? j then
        match nth_error kids i with
        | Some k =>
            match extractBetween sp' ep' so eo k with
            | Some (k', frag, (bp, bo)) =>
                Some (Elem a (spliceKid i [k'] kids), frag, (i :: bp, bo))
            | None => None
            end
        | None => None
        end
      else if i <? j then
        match nth_error kids i, nth_error kids j with
        | Some ki, Some kj =>
            match extractTail sp' so ki, extractHead ep' eo kj with
            | Some (stayI, cloneI), Some (cloneJ, stayJ) =>
                Some (Elem a (firstn i kids ++ stayI :: stayJ
                                :: skipn (S j) kids),
                      cloneI :: containedKids i j kids ++ [cloneJ],
                      ([], S i))
            | _, _ => None
            end
        | _, _ => None
        end
      else None
  | _, _, _ => None
  end.

(** [range.extractContents()] *)
Definition extractContents (r : Range) (dom : node)
  : option (node * list node * boundary) :=
  if collapsed r then Some (dom, [], (startContainer r, startOffset r))
  else extractBetween (startContainer r) (endContainer r)
         (startOffset r) (endOffset r) dom.

(** [range.insertNode(w)] for a range collapsed at [(bp, bo)]: a text node
    is split at the offset, an element receives [w] as child [bo]. *)
Fixpoint insertNode (bp : path) (bo : nat) (w : node) (n : node) : option node :=
  match n with
  | Text _ => None
  | Elem a kids =>
      match bp with
      | [] =>
          if bo <=? length kids
          then Some (Elem a (firstn bo kids ++ w :: skipn bo kids))
          else None
      | i :: bp' =>
          match nth_error kids i with
          | Some (Text s) =>
              match bp' with
              | [] => Some (Elem a (spliceKid i
                              [Text (take bo s); w; Text (drop bo s)] kids))
              | _ :: _ => None
              end
          | Some k =>
              match insertNode bp' bo w k with
              | Some k' => Some (Elem a (spliceKid i [k'] kids))
              | None => None
              end
          | None => None
          end
      end
  end.

(** [wrapper.appendChild(fragment)] on a wrapper element *)
Definition appendChild (wrapper : node) (fragment : list node) : node :=
  match wrapper with
  | Elem a kids => Elem a (kids ++ fragment)
  | Text s => Text s
  end.

(** How a call ends: with a value, or with a thrown exception. *)
Inductive completion (A : Type) : Type :=
| Normal (v : A)
| Throw (name : string).
Arguments Normal {A} v.
Arguments Throw {A} name.

(** [range.surroundContents(wrapper)] for an empty [wrapper]: refuses a
    range that cuts through an element, otherwise extracts the contents,
    inserts the wrapper and moves the contents into it. *)
Definition surroundContents (r : Range) (wrapper : attrs) (dom : node)
  : completion node :=
  if partiallyContainsElement r then Throw "InvalidStateError"
  else
    match extractContents r dom with
    | Some (dom1, fragment, (bp, bo)) =>
        match insertNode bp bo (Elem wrapper fragment) dom1 with
        | Some dom2 => Normal dom2
        | None => Throw "HierarchyRequestError"
        end
    | None => Throw "IndexSizeError"
    end.

(** [range.selectNodeContents(el); range.surroundContents(wrapper)] for the
    element at path [p]: all its children are inside the range and none is
    cut, so the wrapper takes them all. *)
Fixpoint surroundNodeContents (p : path) (wrapper : attrs) (n : node)
  : option node :=
  match n with
  | Text _ => None
  | Elem a kids =>
      match p with
      | [] => Some (Elem a [Elem wrapper kids])
      | i :: p' =>
          match nth_error kids i with
          | Some k =>
              match surroundNodeContents p' wrapper k with
              | Some k' => Some (Elem a (spliceKid i [k'] kids))
              | None => None
              end
          | None => None
          end
      end
  end.

(** Document order of two text nodes, on their paths. *)
Fixpoint path_lt (p q : path) : Prop :=
  match p, q with
  | i :: p', j :: q' => i < j \/ (i = j /\ path_lt p' q')
  | _, _ => False
  end.

(** Both boundary points of [r] are text nodes of [dom], and the start is
    not after the end. *)
Definition validRange (dom : node) (r : Range) : Prop :=
  (exists t, nodeAt (startContainer r) dom = Some (Text t)) /\
  (exists u, nodeAt (endContainer r) dom = Some (Text u)) /\
  ((startContainer r = endContainer r /\ startOffset r <= endOffset r)
   \/ path_lt (startContainer r) (endContainer r)).

(** *** The selector text [`[data-bind-id="${id}"]`]

    The viewer puts the id of an annotation between double quotes into the
    text of a selector. The selector parser reads what follows the opening
    quote as a string token (CSS Syntax, "consume a string token"): a
    double quote ends the string, a line break ends it badly, a backslash
    escapes what follows it. *)

Inductive cssString :=
| StringValue (value : string)   (* the quote of the template ends the string *)
| BadString                      (* a line break in the string: the selector
                                    is not valid *)
| Unread.                        (* left to the browser, see [readString] *)

Definition charCode (c : ascii) : nat := nat_of_ascii c.

(** Line feed, form feed, carriage return: the preprocessing of the parser
    turns the last two into line feeds. *)
Definition isLineBreak (c : ascii) : bool :=
  (charCode c =? 10) || (charCode c =? 12) || (charCode c =? 13).

Definition isQuote (c : ascii) : bool := charCode c =? 34.

Definition isBackslash (c : ascii) : bool := charCode c =? 92.

(** U+0000, which the preprocessing replaces by U+FFFD. *)
Definition isNull (c : ascii) : bool := charCode c =? 0.

Definition isHexDigit (c : ascii) : bool :=
  ((48 <=? charCode c) && (charCode c <=? 57))
  || ((65 <=? charCode c) && (charCode c <=? 70))
  || ((97 <=? charCode c) && (charCode c <=? 102)).

Definition consValue (c : ascii) (r : cssString) : cssString :=
  match r with
  | StringValue s => StringValue (String c s)
  | BadString => BadString
  | Unread => Unread
  end.

(** The string token that starts after the opening quote, read over the
    characters of [id]. A backslash before a character that is neither a
    hexadecimal digit nor a line break stands for that character. Left
    unread, because what the selector then is depends on more of the
    grammar than this embedding holds: an id with a double quote of its own
    (the string ends inside the id, the rest of the id is selector text), a
    hexadecimal escape, a backslash before a line break or as the last
    character (it escapes the quote of the template), and U+0000. *)
Fixpoint readString (id : string) : cssString :=
  match id with
  | EmptyString => StringValue EmptyString
  | String c rest =>
      if isLineBreak c then BadString
      else if isQuote c || isNull c then Unread
      else if isBackslash c then
        match rest with
        | EmptyString => Unread
        | String d rest' =>
            if isHexDigit d || isLineBreak d || isNull d then Unread
            else consValue d (readString rest')
        end
      else consValue c (readString rest)
  end.

(** A character that the string token takes as it is. *)
Definition plainChar (c : ascii) : bool :=
  negb (isLineBreak c || isQuote c || isNull c || isBackslash c).

(** An id without double quote, backslash, line break and U+0000: the
    selector is [[data-bind-id="id"]] with the value [id]. *)
Fixpoint plainId (id : string) : bool :=
  match id with
  | EmptyString => true
  | String c rest => plainChar c && plainId rest
  end.

End Dom.

(** ** Data model *)

Inductive AnnotationType := DELETION | COMMENT.

Inductive EditorMode := selection | redline.

(** Anchor hint of the selection highlighter. *)
Record DomMeta := {
  parentTagName : string;
  parentIndex : nat;
  textOffset : nat
}.

(** A highlight source, as the highlighter's [CREATE] event carries it. *)
Record Source := {
  srcId : string;          (* [source.id] *)
  srcText : string;        (* [source.text] *)
  srcStartMeta : DomMeta;  (* [source.startMeta] *)
  srcEndMeta : DomMeta     (* [source.endMeta] *)
}.

Record Block := {
  blkId : string;          (* [block.id] *)
  blkType : string;        (* [block.type] *)
  blkContent : string;     (* [block.content] *)
  blkLevel : option nat    (* [block.level] *)
}.

Module Ann.

(** Modelled from the spec: the declaration of [Annotation] ([../types]) is
    not part of the sources. Both object literals of the viewer are typed
    [Annotation]; the record has their keys. The creation time is the key
    [createdA] there ([createdAt] in section 3 of the specification). An
    optional key that is absent is [None]. *)
Record t := {
  id : string;
  blockId : string;
  startOffset : nat;
  endOffset : nat;
  type : AnnotationType;
  text : option string;
  originalText : string;
  createdA : N;
  author : option string;
  startMeta : option DomMeta;
  endMeta : option DomMeta
}.

End Ann.

(** ** Identity store ([utils/identity.ts]) *)

Module Identity.

(** [draws n] is what the username generator returns at its call number
    [n]: the adjective and the noun; [drawn] counts its calls so far. *)
Record env := {
  stored : option string;      (* [storage.getItem(STORAGE_KEY)] *)
  draws : nat -> string * string;
  drawn : nat
}.

(** The identity, and the generator after the call. *)
Definition generateIdentity (e : env) : string * env :=
  let '(adjective, noun) := draws e (drawn e) in
  (adjective +++ "-" +++ noun +++ "-tater",
   {| stored := stored e; draws := draws e; drawn := S (drawn e) |}).

Definition saveIdentity (identity : string) (e : env) : env :=
  {| stored := Some identity; draws := draws e; drawn := drawn e |}.

(** [if (stored) return stored;]: an empty string counts as absent. *)
Definition getIdentity (e : env) : string * env :=
  match stored e with
  | Some (String c s) => (String c s, e)
  | _ =>
      let generated := generateIdentity e in
      let identity := fst generated in
      (identity, saveIdentity identity (snd generated))
  end.

Definition regenerateIdentity (e : env) : string * env :=
  let generated := generateIdentity e in
  let identity := fst generated in
  (identity, saveIdentity identity (snd generated)).

Definition isCurrentUser (author : option string) (e : env) : bool :=
  match author with
  | Some (String c s) =>
      match stored e with
      | Some i => String.eqb i (String c s)
      | None => false
      end
  | _ => false
  end.

End Identity.

(** ** The viewer ([Viewer.tsx]) *)

Module Viewer.

Import Dom.

Record ToolbarState := {
  tbElement : option path; (* [toolbarState.element]; [None]: detached *)
  tbSource : Source      (* [toolbarState.source] *)
}.

Record HoveredCodeBlock := {
  hovBlock : Block;      (* [hoveredCodeBlock.block] *)
  hovElement : path      (* [hoveredCodeBlock.element] *)
}.

Record state := {
  container : option node;             (* [containerRef.current] *)
  highlighter : bool;                  (* [highlighterRef.current] is set *)
  mode : EditorMode;                   (* [modeRef.current] *)
  pendingSource : option Source;       (* [pendingSourceRef.current] *)
  toolbarState : option ToolbarState;
  hoveredCodeBlock : option HoveredCodeBlock;
  added : list Ann.t;                  (* calls of [onAddAnnotation] *)
  warnings : list string;              (* [console.warn] *)
  now : N;                             (* [Date.now()] *)
  identity : Identity.env;
  hasSelection : bool;                 (* [window.getSelection()] is set *)
  uncaught : list string;              (* exceptions that left a method of
                                          the handle, to its caller *)
  unread : string -> node -> completion (option path)
    (* [container.querySelector] on the selector of an id that
       [readString] leaves unread: the answer of the browser *)
}.

Definition withContainer (dom : node) (v : state) : state :=
  {| container := Some dom; highlighter := highlighter v; mode := mode v;
     pendingSource := pendingSource v; toolbarState := toolbarState v;
     hoveredCodeBlock := hoveredCodeBlock v; added := added v;
     warnings := warnings v; now := now v; identity := identity v;
     hasSelection := hasSelection v; uncaught := uncaught v;
     unread := unread v |}.

Definition withPending (p : option Source) (tb : option ToolbarState)
    (v : state) : state :=
  {| container := container v; highlighter := highlighter v; mode := mode v;
     pendingSource := p; toolbarState := tb;
     hoveredCodeBlock := hoveredCodeBlock v; added := added v;
     warnings := warnings v; now := now v; identity := identity v;
     hasSelection := hasSelection v; uncaught := uncaught v;
     unread := unread v |}.

Definition withHovered (h : option HoveredCodeBlock) (v : state) : state :=
  {| container := container v; highlighter := highlighter v; mode := mode v;
     pendingSource := pendingSource v; toolbarState := toolbarState v;
     hoveredCodeBlock := h; added := added v;
     warnings := warnings v; now := now v; identity := identity v;
     hasSelection := hasSelection v; uncaught := uncaught v;
     unread := unread v |}.

Definition withWarnings (ws : list string) (v : state) : state :=
  {| container := container v; highlighter := highlighter v; mode := mode v;
     pendingSource := pendingSource v; toolbarState := toolbarState v;
     hoveredCodeBlock := hoveredCodeBlock v; added := added v;
     warnings := ws; now := now v; identity := identity v;
     hasSelection := hasSelection v; uncaught := uncaught v;
     unread := unread v |}.

(** The [mode] prop changes. *)
Definition withMode (m : EditorMode) (v : state) : state :=
  {| container := container v; highlighter := highlighter v; mode := m;
     pendingSource := pendingSource v; toolbarState := toolbarState v;
     hoveredCodeBlock := hoveredCodeBlock v; added := added v;
     warnings := warnings v; now := now v; identity := identity v;
     hasSelection := hasSelection v; uncaught := uncaught v;
     unread := unread v |}.

(** The visible text of the document. *)
Definition flatText (v : state) : option string :=
  option_map textContent (container v).

(** [console.warn(msg)] *)
Definition warn (msg : string) (v : state) : state :=
  withWarnings (warnings v ++ [msg]) v.

(** [onAddAnnotationRef.current(ann)], with the identity store as
    [getIdentity] left it. *)
Definition addAnnotation (ann : Ann.t) (e : Identity.env) (v : state) : state :=
  {| container := container v; highlighter := highlighter v; mode := mode v;
     pendingSource := pendingSource v; toolbarState := toolbarState v;
     hoveredCodeBlock := hoveredCodeBlock v; added := added v ++ [ann];
     warnings := warnings v; now := now v; identity := e;
     hasSelection := hasSelection v; uncaught := uncaught v;
     unread := unread v |}.

(** *** The selection highlighter (web-highlighter) *)

(** Modelled from the spec: the highlighter is a library outside the
    sources. [getDoms(id)] are the marks the highlighter made for the
    selection [id], in document order. *)
Definition getDoms (id : string) (dom : node) : list path :=
  querySelectorAll (highlightIdIs id) dom.

Fixpoint unwrapMatching (sel : selector) (n : node) : list node :=
  match n with
  | Text s => [Text s]
  | Elem a kids =>
      let kids' := flat_map (unwrapMatching sel) kids in
      if sel a then kids' else [Elem a kids']
  end.

(** Modelled from the spec: [highlighter.remove(id)] unwraps every mark of
    the selection [id] and keeps what the marks enclose. *)
Definition highlighterRemove (id : string) (dom : node) : node :=
  match dom with
  | Text s => Text s
  | Elem a kids => Elem a (flat_map (unwrapMatching (highlightIdIs id)) kids)
  end.

(** Modelled from the spec: [highlighter.addClass(cls, id)] adds the class
    to every mark of the selection [id]. *)
Definition highlighterAddClass (cls id : string) (dom : node) : node :=
  addClassWhere (highlightIdIs id) cls dom.

Definition typeClass (type : AnnotationType) : string :=
  match type with
  | DELETION => "deletion"
  | COMMENT => "comment"
  end.

(** *** [createAnnotationFromSource] *)

(** [parent.dataset.blockId] is set and not empty. *)
Definition blockIdOf (dom : node) (q : path) : option string :=
  match nodeAt q dom with
  | Some (Elem a _) =>
      match dataBlockId a with
      | Some (String c s) => Some (String c s)
      | _ => None
      end
  | _ => None
  end.

(** [let parent = el.parentElement;
     while (parent && !parent.dataset.blockId) parent = parent.parentElement]:
    the nearest ancestor of [el] that carries a block id. The elements above
    the container carry none. *)
Definition closestBlock (dom : node) (el : path) : option path :=
  find (fun q => match blockIdOf dom q with Some _ => true | None => false end)
    (rev (properPrefixes el)).

(** [blockId] and [startOffset] as the function computes them from the
    first mark of the source. *)
Definition locate (dom : node) (source : Source) : string * nat :=
  match getDoms (srcId source) dom with
  | el :: _ =>
      match closestBlock dom el with
      | Some parent =>
          match blockIdOf dom parent, nodeAt parent dom with
          | Some bid, Some blockEl =>
              let blockText := textContent blockEl in
              let beforeText := splitFirst blockText (srcText source) in
              (bid, match beforeText with
                    | Some b => len b
                    | None => 0
                    end)
          | _, _ => (EmptyString, 0)
          end
      | None => (EmptyString, 0)
      end
  | [] => (EmptyString, 0)
  end.

(** The object literal [newAnnotation] of [createAnnotationFromSource]. *)
Definition newAnnotationFromSource (source : Source) (type : AnnotationType)
    (text : option string) (dom : node) (v : state) : Ann.t :=
  let '(blockId, startOffset) := locate dom source in
  {| Ann.id := srcId source;
     Ann.blockId := blockId;
     Ann.startOffset := startOffset;
     Ann.endOffset := startOffset + len (srcText source);
     Ann.type := type;
     Ann.text := text;
     Ann.originalText := srcText source;
     Ann.createdA := now v;
     Ann.author := Some (fst (Identity.getIdentity (identity v)));
     Ann.startMeta := Some (srcStartMeta source);
     Ann.endMeta := Some (srcEndMeta source) |}.

Definition createAnnotationFromSource (source : Source)
    (type : AnnotationType) (text : option string) (dom : node) (v : state)
  : state :=
  let newAnnotation := newAnnotationFromSource source type text dom v in
  let dom' := highlighterAddClass (typeClass type) (srcId source) dom in
  addAnnotation newAnnotation (snd (Identity.getIdentity (identity v)))
    (withContainer dom' v).

(** *** The [CREATE] handler of the highlighter *)

Definition onCreate (sources : list Source) (v : state) : state :=
  match sources, container v with
  | source :: _, Some dom =>
      match getDoms (srcId source) dom with
      | _ :: _ =>
          (* clean up the previous pending highlight *)
          let dom1 :=
            match pendingSource v with
            | Some pending => highlighterRemove (srcId pending) dom
            | None => dom
            end in
          let v1 := withPending None (toolbarState v) (withContainer dom1 v) in
          match mode v with
          | redline =>
              createAnnotationFromSource source DELETION None dom1 v1
          | selection =>
              (* [doms[0]] is the first mark of the source; its path is
                 read off the tree as the clean-up left it *)
              withPending (Some source)
                (Some {| tbElement := hd_error (getDoms (srcId source) dom1);
                         tbSource := source |}) v1
          end
      | [] => v
      end
  | _, _ => v
  end.

Definition handleAnnotate (type : AnnotationType) (text : option string)
    (v : state) : state :=
  match toolbarState v, highlighter v, container v with
  | Some tb, true, Some dom =>
      withPending None None
        (createAnnotationFromSource (tbSource tb) type text dom v)
  | _, _, _ => v
  end.

Definition handleToolbarClose (v : state) : state :=
  let v1 :=
    match toolbarState v, highlighter v, container v with
    | Some tb, true, Some dom =>
        withContainer (highlighterRemove (srcId (tbSource tb)) dom) v
    | _, _, _ => v
    end in
  withPending None None v1.

(** *** [applySharedAnnotations] *)

Definition dquote : string := String (ascii_of_nat 34) EmptyString.

(** [String(n)] for a number [n] *)
Definition numberToString (n : N) : string :=
  NilEmpty.string_of_uint (N.to_uint n).

Definition notFoundWarning (ann : Ann.t) : string :=
  "Could not find text for annotation " +++ Ann.id ann +++ ": " +++ dquote
    +++ take 50 (Ann.originalText ann) +++ "..." +++ dquote.

Definition failedWarning (ann : Ann.t) : string :=
  "Failed to apply highlight for annotation " +++ Ann.id ann +++ ":".

(** The [mark] element built for a restored annotation. *)
Definition wrapperFor (id : string) (type : AnnotationType) : attrs :=
  {| tagName := "mark";
     classList := ["annotation-highlight"%string; typeClass type];
     dataBindId := Some id;
     dataBlockId := None;
     dataHighlightId := None |}.

(** [try { range.surroundContents(wrapper) } catch (e) {
      const fragment = range.extractContents();
      wrapper.appendChild(fragment);
      range.insertNode(wrapper) }] *)
Definition wrapRange (r : Range) (wrapper : attrs) (dom : node)
  : completion node :=
  match surroundContents r wrapper dom with
  | Normal dom' => Normal dom'
  | Throw _ =>
      match extractContents r dom with
      | Some (dom1, fragment, (bp, bo)) =>
          match insertNode bp bo (appendChild (Elem wrapper []) fragment) dom1
          with
          | Some dom2 => Normal dom2
          | None => Throw "HierarchyRequestError"
          end
      | None => Throw "IndexSizeError"
      end
  end.

(** The annotation [id] already has a mark: one of the highlighter's, or
    one with [data-bind-id]. *)
Definition represented (id : string) (dom : node) : bool :=
  anyDescendant (highlightIdIs id) dom || anyDescendant (bindIdIs id) dom.

(** Nothing is left to do for the annotation: it has a mark, or the
    resolver does not find its text ([sel]: the selection object is
    there). *)
Definition settled (sel : bool) (ann : Ann.t) (dom : node) : Prop :=
  represented (Ann.id ann) dom = true \/
  Resolver.findTextInDOM dom sel (Ann.originalText ann) = None.

(** [containerRef.current?.querySelector(`[data-bind-id="${id}"]`)] on the
    container [dom]: the first element whose [data-bind-id] is the value of
    the string, a [SyntaxError] for a selector that is not valid. *)
Definition queryBindId (v : state) (id : string) (dom : node)
  : completion (option path) :=
  match readString id with
  | StringValue value => Normal (querySelector (bindIdIs value) dom)
  | BadString => Throw "SyntaxError"
  | Unread => unread v id dom
  end.

(** An exception leaves a method of the handle. *)
Definition raise (e : string) (v : state) : state :=
  {| container := container v; highlighter := highlighter v; mode := mode v;
     pendingSource := pendingSource v; toolbarState := toolbarState v;
     hoveredCodeBlock := hoveredCodeBlock v; added := added v;
     warnings := warnings v; now := now v; identity := identity v;
     hasSelection := hasSelection v; uncaught := uncaught v ++ [e];
     unread := unread v |}.

(** The callback from [findTextInDOM] on, for an annotation whose id
    neither lookup has found. *)
Definition place (v : state) (ann : Ann.t) (dom : node) : state :=
  match Resolver.findTextInDOM dom (hasSelection v) (Ann.originalText ann) with
  | None => warn (notFoundWarning ann) v
  | Some range =>
      match wrapRange range (wrapperFor (Ann.id ann) (Ann.type ann)) dom with
      | Normal dom' => withContainer dom' v
      | Throw _ => warn (failedWarning ann) v
      end
  end.

(** The body of the [forEach] callback, for a mounted viewer. The lookup
    of the manual highlight stands before the [try]: its exception leaves
    the callback. *)
Definition applyOne (v : state) (ann : Ann.t) : completion state :=
  match container v with
  | None => Normal v
  | Some dom =>
      (* skip if already highlighted *)
      match getDoms (Ann.id ann) dom with
      | _ :: _ => Normal v
      | [] =>
          (* also skip if manually highlighted *)
          match queryBindId v (Ann.id ann) dom with
          | Throw e => Throw e
          | Normal (Some _) => Normal v
          | Normal None => Normal (place v ann dom)
          end
      end
  end.

(** [sharedAnnotations.forEach(...)]: an exception of the callback ends
    the loop and leaves the method. *)
Fixpoint forEach (sharedAnnotations : list Ann.t) (v : state) : state :=
  match sharedAnnotations with
  | [] => v
  | ann :: rest =>
      match applyOne v ann with
      | Normal v' => forEach rest v'
      | Throw e => raise e v
      end
  end.

Definition applySharedAnnotations (sharedAnnotations : list Ann.t)
    (v : state) : state :=
  match highlighter v, container v with
  | true, Some _ => forEach sharedAnnotations v
  | _, _ => v
  end.

(** *** [removeHighlight] and [clearAllHighlights] *)

Definition removeHighlight (id : string) (v : state) : state :=
  match container v with
  | None => v
  | Some dom =>
      (* try highlighter first (for regular text selections) *)
      let dom1 := if highlighter v then highlighterRemove id dom else dom in
      (* also handle manually created highlights *)
      match queryBindId v id dom1 with
      | Throw e => raise e (withContainer dom1 v)
      | Normal (Some manualHighlight) =>
          withContainer (unwrapAt manualHighlight dom1) v
      | Normal None => withContainer dom1 v
      end
  end.

(** *** The two methods on plain ids

    For an id that the selector takes as it is ([plainId]), the lookup is
    the search for the first element whose [data-bind-id] is the id, and no
    exception leaves the methods. *)

Definition applyOnePlain (v : state) (ann : Ann.t) : state :=
  match container v with
  | None => v
  | Some dom =>
      match getDoms (Ann.id ann) dom with
      | _ :: _ => v
      | [] =>
          match querySelector (bindIdIs (Ann.id ann)) dom with
          | Some _ => v
          | None => place v ann dom
          end
      end
  end.

Definition applyPlain (sharedAnnotations : list Ann.t) (v : state) : state :=
  match highlighter v, container v with
  | true, Some _ => fold_left applyOnePlain sharedAnnotations v
  | _, _ => v
  end.

Definition removePlain (id : string) (v : state) : state :=
  match container v with
  | None => v
  | Some dom =>
      let dom1 := if highlighter v then highlighterRemove id dom else dom in
      match querySelector (bindIdIs id) dom1 with
      | Some manualHighlight => withContainer (unwrapAt manualHighlight dom1) v
      | None => withContainer dom1 v
      end
  end.

Definition clearAllHighlights (v : state) : state :=
  match container v with
  | None => v
  | Some dom =>
      let dom1 := unwrapEach hasBindId dom in
      let dom2 := unwrapEach (hasClass "annotation-highlight") dom1 in
      withContainer dom2 v
  end.

(** *** [handleCodeBlockAnnotate] *)

(** The object literal [newAnnotation] of [handleCodeBlockAnnotate]. *)
Definition newCodeBlockAnnotation (block : Block) (codeText : string)
    (type : AnnotationType) (text : option string) (v : state) : Ann.t :=
  {| Ann.id := "codeblock-" +++ numberToString (now v);
     Ann.blockId := blkId block;
     Ann.startOffset := 0;
     Ann.endOffset := len codeText;
     Ann.type := type;
     Ann.text := text;
     Ann.originalText := codeText;
     Ann.createdA := now v;
     Ann.author := Some (fst (Identity.getIdentity (identity v)));
     Ann.startMeta := None;
     Ann.endMeta := None |}.

Definition handleCodeBlockAnnotate (type : AnnotationType)
    (text : option string) (v : state) : state :=
  match hoveredCodeBlock v, highlighter v, container v with
  | Some hov, true, Some dom =>
      match nodeAt (hovElement hov) dom with
      | Some element =>
          match querySelector (tagIs "code") element with
          | Some q =>
              match nodeAt q element with
              | Some codeEl =>
                  let id := "codeblock-" +++ numberToString (now v) in
                  let codeText := textContent codeEl in
                  (* the wrapper with the class it ends up with *)
                  let wrapper := wrapperFor id type in
                  match surroundNodeContents (hovElement hov ++ q) wrapper dom
                  with
                  | Some dom' =>
                      let newAnnotation :=
                        newCodeBlockAnnotation (hovBlock hov) codeText
                          type text v in
                      withHovered None
                        (addAnnotation newAnnotation
                           (snd (Identity.getIdentity (identity v)))
                           (withContainer dom' v))
                  | None => v
                  end
              | None => v
              end
          | None => v
          end
      | None => v
      end
  | _, _, _ => v
  end.

End Viewer.

(** ** ShareCodec ([utils/sharing.ts], not part of the sources) *)

Module ShareCodec.

(** Modelled from the spec: [toShareable]/[fromShareable] and the payload
    type are missing from the sources. A shareable annotation carries
    every field of the annotation but the anchor hints
    [startMeta]/[endMeta], which section 4.3 of the specification lets the
    codec drop. *)
Record Shareable := {
  sId : string;
  sBlockId : string;
  sStartOffset : nat;
  sEndOffset : nat;
  sType : AnnotationType;
  sText : option string;
  sOriginalText : string;
  sCreatedA : N;
  sAuthor : option string
}.

(** The payload of a link; the hook reads its fields [p] (the document) and
    [a] (the annotations). *)
Record SharePayload := {
  p : string;
  a : list Shareable
}.

Definition toShareable1 (ann : Ann.t) : Shareable :=
  {| sId := Ann.id ann;
     sBlockId := Ann.blockId ann;
     sStartOffset := Ann.startOffset ann;
     sEndOffset := Ann.endOffset ann;
     sType := Ann.type ann;
     sText := Ann.text ann;
     sOriginalText := Ann.originalText ann;
     sCreatedA := Ann.createdA ann;
     sAuthor := Ann.author ann |}.

(** Modelled from the spec: [toShareable], missing from the sources. *)
Definition toShareable (annotations : list Ann.t) : list Shareable :=
  map toShareable1 annotations.

Definition fromShareable1 (s : Shareable) : Ann.t :=
  {| Ann.id := sId s;
     Ann.blockId := sBlockId s;
     Ann.startOffset := sStartOffset s;
     Ann.endOffset := sEndOffset s;
     Ann.type := sType s;
     Ann.text := sText s;
     Ann.originalText := sOriginalText s;
     Ann.createdA := sCreatedA s;
     Ann.author := sAuthor s;
     Ann.startMeta := None;
     Ann.endMeta := None |}.

(** Modelled from the spec: [fromShareable], missing from the sources; the
    anchor hints are absent after decoding. *)
Definition fromShareable (l : list Shareable) : list Ann.t :=
  map fromShareable1 l.

(** *** The transport string

    Modelled from the spec: the wire format is missing from the sources. The
    model keeps what section 4.3 asks for: a version tag, only characters
    that are safe in a URL fragment (hexadecimal digits and the dot), and a
    decoder that fails closed. Compression is left out; it does not bear on
    the round trip. Every field is written as the hexadecimal codes of its
    characters, closed by a dot. *)

Definition hexAlphabet : list ascii :=
  list_ascii_of_string "0123456789abcdef".

Definition hexDigit (n : nat) : ascii :=
  nth n hexAlphabet "f"%char.

Fixpoint indexIn (c : ascii) (l : list ascii) (i : nat) : option nat :=
  match l with
  | [] => None
  | d :: l' => if Ascii.eqb c d then Some i else indexIn c l' (S i)
  end.

Definition unhexDigit (c : ascii) : option nat :=
  indexIn c hexAlphabet 0.

Definition unhexPair (hi lo : ascii) : option ascii :=
  match unhexDigit hi, unhexDigit lo with
  | Some h, Some l => Some (ascii_of_nat (16 * h + l))
  | _, _ => None
  end.

Fixpoint hex (s : string) : string :=
  match s with
  | EmptyString => EmptyString
  | String c s' =>
      String (hexDigit (nat_of_ascii c / 16))
        (String (hexDigit (nat_of_ascii c mod 16)) (hex s'))
  end.

Definition dot : ascii := "."%char.

Definition writeField (f : string) : string := hex f +++ String dot EmptyString.

(** Reads one field: hexadecimal pairs up to the closing dot. *)
Fixpoint readField (w : string) : option (string * string) :=
  match w with
  | EmptyString => None
  | String c w' =>
      if Ascii.eqb c dot then Some (EmptyString, w')
      else
        match w' with
        | EmptyString => None
        | String d w'' =>
            match unhexPair c d, readField w'' with
            | Some ch, Some (f, rest) => Some (String ch f, rest)
            | _, _ => None
            end
        end
  end.

Definition writeNat (n : nat) : string :=
  writeField (NilEmpty.string_of_uint (Nat.to_uint n)).

Definition readNat (w : string) : option (nat * string) :=
  match readField w with
  | Some (f, rest) =>
      match NilEmpty.uint_of_string f with
      | Some d => Some (Nat.of_uint d, rest)
      | None => None
      end
  | None => None
  end.

Definition writeN (n : N) : string :=
  writeField (NilEmpty.string_of_uint (N.to_uint n)).

Definition readN (w : string) : option (N * string) :=
  match readField w with
  | Some (f, rest) =>
      match NilEmpty.uint_of_string f with
      | Some d => Some (N.of_uint d, rest)
      | None => None
      end
  | None => None
  end.

(** An optional string: absent is the empty field, present is ["="] and
    the string. *)
Definition writeOption (o : option string) : string :=
  match o with
  | None => writeField EmptyString
  | Some s => writeField (String "="%char s)
  end.

Definition readOption (w : string) : option (option string * string) :=
  match readField w with
  | Some (EmptyString, rest) => Some (None, rest)
  | Some (String c s, rest) =>
      if Ascii.eqb c "="%char then Some (Some s, rest) else None
  | None => None
  end.

Definition writeType (t : AnnotationType) : string :=
  writeField (match t with DELETION => "D" | COMMENT => "C" end).

Definition readType (w : string) : option (AnnotationType * string) :=
  match readField w with
  | Some (f, rest) =>
      if String.eqb f "D" then Some (DELETION, rest)
      else if String.eqb f "C" then Some (COMMENT, rest)
      else None
  | None => None
  end.

Definition writeShareable (s : Shareable) : string :=
  writeField (sId s) +++ writeField (sBlockId s)
  +++ writeNat (sStartOffset s) +++ writeNat (sEndOffset s)
  +++ writeType (sType s) +++ writeOption (sText s)
  +++ writeField (sOriginalText s) +++ writeN (sCreatedA s)
  +++ writeOption (sAuthor s).

Definition readShareable (w : string) : option (Shareable * string) :=
  match readField w with
  | Some (id, w1) =>
  match readField w1 with
  | Some (blockId, w2) =>
  match readNat w2 with
  | Some (startOffset, w3) =>
  match readNat w3 with
  | Some (endOffset, w4) =>
  match readType w4 with
  | Some (type, w5) =>
  match readOption w5 with
  | Some (text, w6) =>
  match readField w6 with
  | Some (originalText, w7) =>
  match readN w7 with
  | Some (createdA, w8) =>
  match readOption w8 with
  | Some (author, w9) =>
      Some ({| sId := id; sBlockId := blockId;
               sStartOffset := startOffset; sEndOffset := endOffset;
               sType := type; sText := text;
               sOriginalText := originalText; sCreatedA := createdA;
               sAuthor := author |}, w9)
  | None => None end
  | None => None end
  | None => None end
  | None => None end
  | None => None end
  | None => None end
  | None => None end
  | None => None end
  | None => None end.

Fixpoint writeAll (l : list Shareable) : string :=
  match l with
  | [] => EmptyString
  | s :: l' => writeShareable s +++ writeAll l'
  end.

Fixpoint readAll (n : nat) (w : string) : option (list Shareable * string) :=
  match n with
  | 0 => Some ([], w)
  | S k =>
      match readShareable w with
      | Some (s, w') =>
          match readAll k w' with
          | Some (l, rest) => Some (s :: l, rest)
          | None => None
          end
      | None => None
      end
  end.

Definition version : string := "1".

(** [encode(document, annotations)] *)
Definition encode (document : string) (annotations : list Ann.t) : string :=
  let payload := {| p := document; a := toShareable annotations |} in
  writeField version +++ writeField (p payload)
  +++ writeNat (length (a payload)) +++ writeAll (a payload).

(** [decode(transportString)]; [None] is [INVALID_PAYLOAD]. *)
Definition decode (w : string) : option SharePayload :=
  match readField w with
  | Some (v, w1) =>
      if String.eqb v version then
        match readField w1 with
        | Some (document, w2) =>
            match readNat w2 with
            | Some (n, w3) =>
                match readAll n w3 with
                | Some (l, EmptyString) => Some {| p := document; a := l |}
                | _ => None
                end
            | None => None
            end
        | None => None
        end
      else None
  | None => None
  end.

(** Modelled from the spec: [generateShareUrl], missing from the sources:
    the transport string goes after the anchor marker of the address. *)
Definition generateShareUrl (base : string) (markdown : string)
    (annotations : list Ann.t) : string :=
  base +++ "#" +++ encode markdown annotations.

(** Modelled from the spec: [parseShareHash], missing from the sources: it
    reads [window.location.hash], the address from the anchor marker on, and
    yields the payload, or [null] when there is none or it is invalid. *)
Definition parseShareHash (hash : string) : option SharePayload :=
  match hash with
  | String "#"%char w => decode w
  | _ => None
  end.

(** The fields that the round-trip law speaks of. *)
Definition semantic (ann : Ann.t)
  : string * string * nat * nat * AnnotationType * option string * string
    * option string :=
  (Ann.id ann, Ann.blockId ann, Ann.startOffset ann, Ann.endOffset ann,
   Ann.type ann, Ann.text ann, Ann.originalText ann, Ann.author ann).

(** The annotation without its anchor hints. *)
Definition withoutHints (ann : Ann.t) : Ann.t :=
  {| Ann.id := Ann.id ann;
     Ann.blockId := Ann.blockId ann;
     Ann.startOffset := Ann.startOffset ann;
     Ann.endOffset := Ann.endOffset ann;
     Ann.type := Ann.type ann;
     Ann.text := Ann.text ann;
     Ann.originalText := Ann.originalText ann;
     Ann.createdA := Ann.createdA ann;
     Ann.author := Ann.author ann;
     Ann.startMeta := None;
     Ann.endMeta := None |}.

End ShareCodec.

(** ** The sharing hook ([useSharing.ts]) *)

Module Sharing.

Import ShareCodec.

Record state := {
  markdown : string;                             (* [setMarkdown] *)
  annotations : list Ann.t;                      (* [setAnnotations] *)
  isSharedSession : bool;
  pendingSharedAnnotations : option (list Ann.t);
  hash : string;                                 (* [window.location.hash] *)
  sharedLoads : nat                              (* calls of [onSharedLoad] *)
}.

(** [loadFromHash]: the result and the state it leaves. A failure of
    [parseShareHash] is caught and gives [false], as does an absent
    payload. *)
Definition loadFromHash (s : state) : bool * state :=
  match parseShareHash (hash s) with
  | Some payload =>
      let restoredAnnotations := fromShareable (a payload) in
      (true,
       {| markdown := p payload;
          annotations := restoredAnnotations;
          isSharedSession := true;
          pendingSharedAnnotations := Some restoredAnnotations;
          hash := EmptyString;      (* [history.replaceState] drops the hash *)
          sharedLoads := S (sharedLoads s) |})
  | None => (false, s)
  end.

Definition clearPendingSharedAnnotations (s : state) : state :=
  {| markdown := markdown s; annotations := annotations s;
     isSharedSession := isSharedSession s;
     pendingSharedAnnotations := None;
     hash := hash s; sharedLoads := sharedLoads s |}.

Definition withHash (h : string) (s : state) : state :=
  {| markdown := markdown s; annotations := annotations s;
     isSharedSession := isSharedSession s;
     pendingSharedAnnotations := pendingSharedAnnotations s;
     hash := h; sharedLoads := sharedLoads s |}.

(** The user pastes a link: the address takes the hash of the link, the part
    from the anchor marker on. *)
Definition openLink (url : string) (s : state) : state :=
  withHash (match indexOf url "#" with
            | Some i => drop i url
            | None => EmptyString
            end) s.

(** [handleHashChange], the listener of [hashchange]. *)
Definition handleHashChange (s : state) : state :=
  if 1 <? len (hash s) then snd (loadFromHash s) else s.

End Sharing.

(** ** Sample documents *)

Module Samples.

Definition plain (tag : string) : attrs :=
  {| tagName := tag; classList := []; dataBindId := None;
     dataBlockId := None; dataHighlightId := None |}.

Definition block (tag id : string) : attrs :=
  {| tagName := tag; classList := []; dataBindId := None;
     dataBlockId := Some id; dataHighlightId := None |}.

(** A mark of the selection highlighter for the selection [id]. *)
Definition hlMark (id : string) : attrs :=
  {| tagName := "mark"; classList := ["annotation-highlight"%string];
     dataBindId := None; dataBlockId := None; dataHighlightId := Some id |}.

(** Two paragraphs, "cat nap" with "t nap" in bold, then "cat". *)
Definition catNap : node :=
  Elem (plain "article")
    [ Elem (block "p" "block-0") [Text "ca"; Elem (plain "b") [Text "t nap"]];
      Elem (block "p" "block-1") [Text "cat"] ].

(** The example of the specification. *)
Definition quickFox : node :=
  Elem (plain "article")
    [ Elem (block "p" "para-1") [Text "The quick brown fox"] ].

Definition anon : Identity.env :=
  {| Identity.stored := Some "swift-falcon-tater"%string;
     Identity.draws :=
       (fun n => nth n [("gentle", "crystal"); ("brave", "otter")]
                   ("quiet", "maple"))%string;
     Identity.drawn := 0 |}.

(** A mounted viewer in selection mode over the document [dom]. *)
Definition viewerOn (dom : node) : Viewer.state :=
  {| Viewer.container := Some dom;
     Viewer.highlighter := true;
     Viewer.mode := selection;
     Viewer.pendingSource := None;
     Viewer.toolbarState := None;
     Viewer.hoveredCodeBlock := None;
     Viewer.added := [];
     Viewer.warnings := [];
     Viewer.now := 1700000000000%N;
     Viewer.identity := anon;
     Viewer.hasSelection := true;
     Viewer.uncaught := [];
     Viewer.unread := fun _ _ => Dom.Throw "SyntaxError"%string |}.

(** A decoded annotation: the anchor hints are absent. *)
Definition shared (id originalText : string) (type : AnnotationType)
  : Ann.t :=
  {| Ann.id := id; Ann.blockId := EmptyString;
     Ann.startOffset := 0; Ann.endOffset := 0;
     Ann.type := type; Ann.text := None;
     Ann.originalText := originalText;
     Ann.createdA := 1700000000000%N;
     Ann.author := Some "swift-falcon-tater"%string;
     Ann.startMeta := None; Ann.endMeta := None |}.

Definition meta (tag : string) (index offset : nat) : DomMeta :=
  {| parentTagName := tag; parentIndex := index; textOffset := offset |}.

(** Two paragraphs after a selection from "world" to "Second": the
    highlighter has marked the two text pieces of the selection [sel-b]. *)
Definition twoBlocks : node :=
  Elem (plain "article")
    [ Elem (block "p" "block-0")
        [Text "Hello "; Elem (hlMark "sel-b") [Text "world"]];
      Elem (block "p" "block-1")
        [Elem (hlMark "sel-b") [Text "Second"]; Text " para"] ].

Definition crossBlockSource : Source :=
  {| srcId := "sel-b"; srcText := "worldSecond";
     srcStartMeta := meta "P" 0 6; srcEndMeta := meta "P" 1 6 |}.

(** "The quick brown fox" with "quick" pending as selection [sel-a] and
    "fox" just selected as [sel-b]. *)
Definition twoSelections : node :=
  Elem (plain "article")
    [ Elem (block "p" "para-1")
        [Text "The "; Elem (hlMark "sel-a") [Text "quick"]; Text " brown ";
         Elem (hlMark "sel-b") [Text "fox"]] ].

Definition sourceA : Source :=
  {| srcId := "sel-a"; srcText := "quick";
     srcStartMeta := meta "P" 0 4; srcEndMeta := meta "P" 0 9 |}.

Definition sourceB : Source :=
  {| srcId := "sel-b"; srcText := "fox";
     srcStartMeta := meta "P" 0 16; srcEndMeta := meta "P" 0 19 |}.

(** A code block as [CodeBlock] renders it: the copy button, then
    [pre > code] with the content. *)
Definition codeBlock (id content : string) : node :=
  Elem (block "div" id)
    [ Elem (plain "button") [Elem (plain "svg") [Elem (plain "path") []]];
      Elem (plain "pre")
        [Elem {| tagName := "code";
                 classList := ["hljs"%string; "font-mono"%string];
                 dataBindId := None; dataBlockId := None;
                 dataHighlightId := None |}
           [Text content]] ].

Definition shellBlock : Block :=
  {| blkId := "block-2"; blkType := "code"; blkContent := "npm test";
     blkLevel := None |}.

Definition withCode : node :=
  Elem (plain "article")
    [ Elem (block "p" "para-1") [Text "Run the tests:"];
      codeBlock "block-2" "npm test" ].

(** The viewer over [withCode], the pointer over the code block. *)
Definition hoveringCode : Viewer.state :=
  Viewer.withHovered
    (Some {| Viewer.hovBlock := shellBlock; Viewer.hovElement := [1] |})
    (viewerOn withCode).



(** The viewer over [twoSelections], with [sel-a] pending. *)
Definition pendingA (m : EditorMode) : Viewer.state :=
  Viewer.withMode m
    (Viewer.withPending (Some sourceA)
       (Some {| Viewer.tbElement := Some [0; 1]; Viewer.tbSource := sourceA |})
       (viewerOn twoSelections)).

End Samples.

(** ** The statements of the specification that the code does not meet *)

Module Stated.

(** The resolver returns a range over the first occurrence of the text in
    document order, whenever the document holds the text. *)
Definition selectsFirstOccurrence (dom : node) (sel : bool) (pat : string)
  : Prop :=
  forall i, indexOf (textContent dom) pat = Some i ->
    exists r, Resolver.findTextInDOM dom sel pat = Some r /\
              rangeToString dom r = Some pat /\
              rangeStartIndex dom r = Some i.

(** At creation, [originalText] is the substring of the flattened text of
    the block that [blockId] names, from [startOffset] to [endOffset]. *)
Definition offsetsDelimitText (dom : node) (ann : Ann.t) : Prop :=
  exists p a kids,
    nodeAt p dom = Some (Elem a kids) /\
    dataBlockId a = Some (Ann.blockId ann) /\
    substring (Ann.startOffset ann) (Ann.endOffset ann)
      (textContent (Elem a kids)) = Ann.originalText ann.

(** Completing the selection [B] while a selection is pending leaves [B]
    as the one pending selection. *)
Definition leavesPending (B : Source) (v : Viewer.state) : Prop :=
  Viewer.pendingSource (Viewer.onCreate [B] v) = Some B.




End Stated.

(** ** The plan server ([server/index.ts]) *)

Module Server.

Local Open Scope string_scope.

(** [s.endsWith(suffix)] *)
Definition endsWith (s suffix : string) : bool :=
  Nat.leb (len suffix) (len s)
  && String.eqb (drop (len s - len suffix) s) suffix.

Definition getContentType (path : string) : option string :=
  if endsWith path ".html" then Some "text/html"
  else if endsWith path ".js" then Some "application/javascript"
  else if endsWith path ".css" then Some "text/css"
  else if endsWith path ".json" then Some "application/json"
  else if endsWith path ".svg" then Some "image/svg+xml"
  else if endsWith path ".png" then Some "image/png"
  else if endsWith path ".ico" then Some "image/x-icon"
  else None.

(** The extensions that [getContentType] tests, each with its type, in the
    order of the tests. *)
Definition contentTypes : list (string * string) :=
  [ (".html", "text/html"); (".js", "application/javascript");
    (".css", "text/css"); (".json", "application/json");
    (".svg", "image/svg+xml"); (".png", "image/png");
    (".ico", "image/x-icon") ].

(** What the handler reads of a request. [json] is [await req.json()] as
    far as the handler looks at it: [None] when the call throws, otherwise
    the property [feedback] of the body, [None] when the body has none. *)
Record request := {
  pathname : string;               (* [new URL(req.url).pathname] *)
  method : string;                 (* [req.method] *)
  json : option (option string)
}.

Record decision := {
  approved : bool;
  feedback : option string
}.

Inductive response :=
| JsonPlan (plan : string)         (* [Response.json({ plan })] *)
| JsonOk                           (* [Response.json({ ok: true })] *)
| FileResponse (file : string) (contentType : option string)
| NotFound.                        (* status 404 *)

(** [dist] tells whether [dist/] holds the file of a request path:
    [Bun.file(join(distDir, path)).exists()]; [join(distDir, "index.html")]
    is the file of the path ["/index.html"]. [decided] is the value that
    [decisionPromise] has settled to. *)
Record state := {
  planContent : string;
  dist : string -> bool;
  decided : option decision
}.

(** [resolveDecision(d)]: a promise settles once, a later call of its
    [resolve] does nothing. *)
Definition resolveDecision (d : decision) (st : state) : state :=
  match decided st with
  | Some _ => st
  | None =>
      {| planContent := planContent st; dist := dist st; decided := Some d |}
  end.

(** [a || b] for a string [a] that may be [undefined]: the empty string is
    falsy. *)
Definition orElse (a : option string) (b : string) : string :=
  match a with
  | Some (String c s) => String c s
  | _ => b
  end.

(** The [fetch] handler: the response, and the server afterwards. *)
Definition fetch (req : request) (st : state) : response * state :=
  if String.eqb (pathname req) "/api/plan" then
    (JsonPlan (planContent st), st)
  else if String.eqb (pathname req) "/api/approve"
          && String.eqb (method req) "POST" then
    (JsonOk, resolveDecision {| approved := true; feedback := None |} st)
  else if String.eqb (pathname req) "/api/deny"
          && String.eqb (method req) "POST" then
    let given :=
      match json req with
      | Some f => orElse f "Plan rejected by user"
      | None => "Plan rejected by user"         (* the [catch] branch *)
      end in
    (JsonOk,
     resolveDecision {| approved := false; feedback := Some given |} st)
  else
    let filePath :=
      if String.eqb (pathname req) "/" || String.eqb (pathname req) ""
      then "/index.html" else pathname req in
    if dist st filePath then
      (FileResponse filePath (getContentType filePath), st)
    else if dist st "/index.html" then
      (FileResponse "/index.html" (Some "text/html"), st)
    else (NotFound, st).

(** The requests that the server answers before it stops. *)
Definition serve (reqs : list request) (st : state) : state :=
  fold_left (fun st req => snd (fetch req st)) reqs st.

(** [decision] of the JSON that the script prints for the hook. *)
Inductive hookDecision :=
| allow                            (* [{ behavior: "allow" }] *)
| deny (message : string).         (* [{ behavior: "deny", message }] *)

Record outcome := {
  printed : option hookDecision;   (* [console.log(JSON.stringify(...))] *)
  exitCode : nat                   (* [process.exit(...)] *)
}.

(** The script from its start to its exit: [argv2] is [process.argv[2]],
    [envPlan] is [Bun.env.PLAN_CONTENT]. [None]: no decision has come, the
    script still waits on [decisionPromise]. *)
Definition main (argv2 envPlan : option string) (files : string -> bool)
    (reqs : list request) : option outcome :=
  match orElse argv2 (orElse envPlan "") with
  | EmptyString => Some {| printed := None; exitCode := 1 |}
  | String c s =>
      let server :=
        {| planContent := String c s; dist := files; decided := None |} in
      match decided (serve reqs server) with
      | None => None
      | Some result =>
          Some {| printed :=
                    Some (if approved result then allow
                          else deny (orElse (feedback result)
                                       "Plan changes requested"));
                  exitCode := 0 |}
      end
  end.

End Server.

(** ** The hook script ([hooks/exit-plan-mode.sh]) *)

Module Hook.

Local Open Scope string_scope.

(** The script after its two calls of [jq]: [toolName] and [plan] are the
    values of [TOOL_NAME] and [PLAN]; [server] is the exit status of
    [bun run "$SERVER_SCRIPT" "$PLAN"], [None] while it runs. The result is
    the exit status of the script. *)
Definition run (toolName plan : string) (server : string -> option nat)
  : option nat :=
  if String.eqb toolName "ExitPlanMode" then
    if negb (String.eqb plan "") && negb (String.eqb plan "null")
    then server plan                       (* [exit $?] *)
    else Some 0
  else Some 0.

(** The script with the server of [server/index.ts] behind [bun run]. *)
Definition runWithServer (toolName plan : string) (envPlan : option string)
    (files : string -> bool) (reqs : list Server.request) : option nat :=
  run toolName plan
    (fun p => option_map Server.exitCode
                (Server.main (Some p) envPlan files reqs)).

End Hook.

(** ** The identity helper over [localStorage] ([utils/identity.ts] of the
    legacy tree) *)

Module LegacyIdentity.

Local Open Scope string_scope.

(** [s.split(sep)] for a separator that is not empty: the pieces between
    the occurrences of [sep], found from left to right. Every occurrence
    takes at least one character off the rest, so [len s] steps are
    enough. *)
Fixpoint splitFuel (fuel : nat) (s sep : string) : list string :=
  match indexOf s sep, fuel with
  | Some i, S fuel' =>
      take i s :: splitFuel fuel' (drop (i + len sep) s) sep
  | _, _ => [s]
  end.

Definition split (s sep : string) : list string :=
  splitFuel (len s) s sep.

(** What a template literal prints for a value that may be [undefined]. *)
Definition show (o : option string) : string :=
  match o with
  | Some s => s
  | None => "undefined"
  end.

Record env := {
  getThrows : bool;          (* [localStorage.getItem] throws *)
  setThrows : bool;          (* [localStorage.setItem] throws *)
  stored : option string;    (* the item under [STORAGE_KEY] *)
  generated : string         (* the next result of [uniqueUsernameGenerator] *)
}.

Definition generateIdentity (e : env) : string :=
  let parts := split (generated e) "|||" in
  let adjective := nth_error parts 0 in
  let noun := nth_error parts 1 in
  show adjective +++ "-" +++ show noun +++ "-tater".

(** [try { localStorage.setItem(STORAGE_KEY, identity) } catch (e) {}] *)
Definition saveIdentity (identity : string) (e : env) : env :=
  if setThrows e then e
  else {| getThrows := getThrows e; setThrows := setThrows e;
          stored := Some identity; generated := generated e |}.

(** [localStorage.getItem(STORAGE_KEY)] inside its [try]: [None] when the
    call throws or the item is absent. *)
Definition getItem (e : env) : option string :=
  if getThrows e then None else stored e.

Definition getIdentity (e : env) : string * env :=
  match getItem e with
  | Some (String c s) => (String c s, e)
  | _ =>
      let identity := generateIdentity e in
      (identity, saveIdentity identity e)
  end.

Definition regenerateIdentity (e : env) : string * env :=
  let identity := generateIdentity e in
  (identity, saveIdentity identity e).

Definition isCurrentUser (author : option string) (e : env) : bool :=
  match author with
  | Some (String c s) =>
      if getThrows e then false          (* the [catch] branch *)
      else match stored e with
           | Some i => String.eqb i (String c s)
           | None => false
           end
  | _ => false
  end.

End LegacyIdentity.

(** ** The settings dialog ([Settings.tsx]) *)

Module Settings.

Record state := {
  showDialog : bool;
  identity : string;                   (* [useState('')] *)
  store : Identity.env;
  changes : list (string * string)     (* calls of [onIdentityChange] *)
}.

(** What the user does: the settings button, one of the closing clicks, the
    regenerate button. *)
Inductive action := OpenDialog | CloseDialog | Regenerate.

(** [handleRegenerateIdentity] *)
Definition handleRegenerateIdentity (s : state) : state :=
  let oldIdentity := identity s in
  let '(newIdentity, store') := Identity.regenerateIdentity (store s) in
  {| showDialog := showDialog s;
     identity := newIdentity;
     store := store';
     changes := changes s ++ [(oldIdentity, newIdentity)] |}.

(** One action with the effect that follows it. The effect
    [if (showDialog) setIdentity(getIdentity())] runs when [showDialog] has
    changed; the regenerate button is part of the dialog and is not there
    while the dialog is closed. *)
Definition step (s : state) (a : action) : state :=
  match a with
  | OpenDialog =>
      if showDialog s then s
      else
        let '(current, store') := Identity.getIdentity (store s) in
        {| showDialog := true; identity := current; store := store';
           changes := changes s |}
  | CloseDialog =>
      {| showDialog := false; identity := identity s; store := store s;
         changes := changes s |}
  | Regenerate =>
      if showDialog s then handleRegenerateIdentity s else s
  end.

Definition run (actions : list action) (s : state) : state :=
  fold_left step actions s.

(** The component as it mounts. *)
Definition mount (e : Identity.env) : state :=
  {| showDialog := false; identity := EmptyString; store := e;
     changes := [] |}.

(** What holds of the dialog, mounted over the store [e], after any
    sequence of actions: the identity shown is the stored one once the
    dialog has been open, and the calls of [onIdentityChange] chain from
    the identity of [e] up to it. *)
Definition tracksStore (e : Identity.env) (s : state) : Prop :=
  (showDialog s = true \/ changes s <> [] ->
   Identity.stored (store s) = Some (identity s) /\ identity s <> EmptyString) /\
  (forall l o n, changes s = (l ++ [(o, n)])%list -> n = identity s) /\
  (forall l1 o1 n1 o2 n2 l2,
      changes s = (l1 ++ (o1, n1) :: (o2, n2) :: l2)%list -> o2 = n1) /\
  Forall (fun ch => fst ch <> EmptyString) (changes s) /\
  (changes s = [] ->
   (store s = e \/ store s = snd (Identity.getIdentity e)) /\
   (showDialog s = true ->
    identity s = fst (Identity.getIdentity e) /\
    store s = snd (Identity.getIdentity e))) /\
  (forall o n l, changes s = (o, n) :: l ->
                 o = fst (Identity.getIdentity e)).

End Settings.

(** ** The restyling effect of the viewer ([Viewer.tsx]) *)

Module Restyle.

Import Dom Viewer.

(** The body of the [forEach] of the effect on [annotations]: the marks
    that the highlighter holds for the annotation get the class of its
    type. An exception is swallowed. *)
Definition restyleOne (dom : node) (ann : Ann.t) : node :=
  match getDoms (Ann.id ann) dom with
  | _ :: _ =>
      highlighterAddClass (typeClass (Ann.type ann)) (Ann.id ann) dom
  | [] => dom
  end.

(** [useEffect(() => { ... }, [annotations])] *)
Definition restyle (annotations : list Ann.t) (v : state) : state :=
  match highlighter v, container v with
  | true, Some dom => withContainer (fold_left restyleOne annotations dom) v
  | _, _ => v
  end.

(** Some mark of the highlighter for the id lacks the class. *)
Definition unstyled (id cls : string) : selector :=
  fun b => highlightIdIs id b && negb (hasClass cls b).

(** The marks of the annotation, if the highlighter holds any, all carry
    the class of its type. *)
Definition styled (x : Ann.t) (dom : node) : Prop :=
  getDoms (Ann.id x) dom = [] \/
  anyMatch (unstyled (Ann.id x) (typeClass (Ann.type x))) dom = false.

End Restyle.

(* ================================================================== *)
(** * Properties *)

(** ** Strings *)

Section StringFacts.

Lemma append_nil_r (s : string) : s +++ EmptyString = s.
Proof. induction s; simpl; congruence. Qed.

Lemma append_assoc (a b c : string) : (a +++ b) +++ c = a +++ b +++ c.
Proof. induction a; simpl; congruence. Qed.

Lemma len_append (a b : string) : len (a +++ b) = len a + len b.
Proof. unfold len. induction a; simpl; congruence. Qed.

Lemma take_drop (n : nat) (s : string) : take n s +++ drop n s = s.
Proof.
  revert s; induction n; intros [|c s]; simpl; try reflexivity.
  now rewrite IHn.
Qed.

Lemma take_0 (s : string) : take 0 s = EmptyString.
Proof. now destruct s. Qed.

Lemma drop_0 (s : string) : drop 0 s = s.
Proof. now destruct s. Qed.

Lemma len_take (n : nat) (s : string) : n <= len s -> len (take n s) = n.
Proof.
  unfold len. revert s; induction n; intros [|c s]; simpl; intros; try lia.
  rewrite IHn; lia.
Qed.

Lemma len_drop (n : nat) (s : string) : len (drop n s) = len s - n.
Proof.
  unfold len. revert s; induction n; intros [|c s]; simpl; auto.
Qed.

Lemma take_all (n : nat) (s : string) : len s <= n -> take n s = s.
Proof.
  unfold len. revert s; induction n; intros [|c s]; simpl; intros;
    try reflexivity; try lia.
  rewrite IHn; [reflexivity | lia].
Qed.

Lemma drop_all (n : nat) (s : string) : len s <= n -> drop n s = EmptyString.
Proof.
  unfold len. revert s; induction n; intros [|c s]; simpl; intros;
    try reflexivity; try lia.
  apply IHn; lia.
Qed.

Lemma take_append_l (n : nat) (a b : string) :
  n <= len a -> take n (a +++ b) = take n a.
Proof.
  unfold len. revert a; induction n; intros a H; [reflexivity|].
  destruct a as [|c a]; simpl in *; [lia|].
  rewrite IHn; [reflexivity | lia].
Qed.

Lemma take_append_r (n : nat) (a b : string) :
  len a <= n -> take n (a +++ b) = a +++ take (n - len a) b.
Proof.
  unfold len. revert n; induction a as [|c a IH]; intros n H; simpl in *.
  - now rewrite Nat.sub_0_r.
  - destruct n as [|n]; [lia|]. simpl. rewrite IH; [reflexivity | lia].
Qed.

Lemma drop_append_l (n : nat) (a b : string) :
  n <= len a -> drop n (a +++ b) = drop n a +++ b.
Proof.
  unfold len. revert a; induction n; intros a H; [reflexivity|].
  destruct a as [|c a]; simpl in *; [lia|].
  apply IHn; lia.
Qed.

Lemma drop_append_r (n : nat) (a b : string) :
  len a <= n -> drop n (a +++ b) = drop (n - len a) b.
Proof.
  unfold len. revert n; induction a as [|c a IH]; intros n H; simpl in *.
  - now rewrite Nat.sub_0_r.
  - destruct n as [|n]; [lia|]. simpl. apply IH; lia.
Qed.

Lemma drop_drop (n m : nat) (s : string) : drop n (drop m s) = drop (m + n) s.
Proof.
  revert s; induction m; intros s; simpl; [reflexivity|].
  destruct s as [|c s]; simpl; [now destruct n | apply IHm].
Qed.

Lemma startsWith_append (pat post : string) :
  startsWith pat (pat +++ post) = true.
Proof.
  induction pat as [|c pat IH]; simpl; [reflexivity|].
  now rewrite Ascii.eqb_refl.
Qed.

Lemma startsWith_take (pat s : string) :
  startsWith pat s = true -> take (len pat) s = pat.
Proof.
  unfold len. revert s; induction pat as [|c pat IH]; intros s H; simpl in *.
  - reflexivity.
  - destruct s as [|d s]; [discriminate|].
    apply andb_true_iff in H as [Hc Hs]. apply Ascii.eqb_eq in Hc.
    simpl. now rewrite (IH _ Hs), Hc.
Qed.

Lemma startsWith_len (pat s : string) :
  startsWith pat s = true -> len pat <= len s.
Proof.
  unfold len. revert s; induction pat as [|c pat IH]; intros s H; simpl in *.
  - lia.
  - destruct s as [|d s]; [discriminate|].
    apply andb_true_iff in H as [_ Hs]. apply IH in Hs. simpl. lia.
Qed.

Lemma startsWith_append_l (pat a b : string) :
  startsWith pat a = true -> startsWith pat (a +++ b) = true.
Proof.
  revert a; induction pat as [|c pat IH]; intros a H; simpl in *;
    [reflexivity|].
  destruct a as [|d a]; [discriminate|]. simpl.
  apply andb_true_iff in H as [Hc Hs]. now rewrite Hc, (IH _ Hs).
Qed.

Lemma occursAt_substring (s pat : string) (i : nat) :
  occursAt s pat i -> substring i (i + len pat) s = pat.
Proof.
  intros [_ H]. unfold substring.
  replace (i + len pat - i) with (len pat) by lia.
  now apply startsWith_take.
Qed.

Lemma occursAt_bound (s pat : string) (i : nat) :
  occursAt s pat i -> i + len pat <= len s.
Proof.
  intros [Hi H]. apply startsWith_len in H. rewrite len_drop in H. lia.
Qed.

Lemma occursAt_S (c : ascii) (s pat : string) (i : nat) :
  occursAt (String c s) pat (S i) <-> occursAt s pat i.
Proof. unfold occursAt, len; simpl. split; intros [? ?]; split; auto; lia. Qed.

Lemma indexOf_occurs (s pat : string) (i : nat) :
  indexOf s pat = Some i ->
  occursAt s pat i /\ forall j, j < i -> ~ occursAt s pat j.
Proof.
  revert i; induction s as [|c s IH]; intros i; simpl.
  - destruct (startsWith pat EmptyString) eqn:E; [|discriminate].
    intros [= <-]. split; [split; [unfold len; simpl; lia | exact E] | lia].
  - destruct (startsWith pat (String c s)) eqn:E.
    + intros [= <-]. split; [split; [lia | exact E] | lia].
    + destruct (indexOf s pat) as [k|] eqn:Ek; [|discriminate].
      intros [= <-]. destruct (IH k eq_refl) as [Hk Hmin]. split.
      * now apply occursAt_S.
      * intros [|j] Hj.
        -- intros [_ H0]. simpl in H0. congruence.
        -- rewrite occursAt_S. apply Hmin. lia.
Qed.

Lemma indexOf_absent (s pat : string) :
  indexOf s pat = None -> forall j, ~ occursAt s pat j.
Proof.
  induction s as [|c s IH]; simpl.
  - destruct (startsWith pat EmptyString) eqn:E; [discriminate|].
    intros _ j [Hj H]. unfold len in Hj; simpl in Hj.
    assert (j = 0) by lia. subst. simpl in H. congruence.
  - destruct (startsWith pat (String c s)) eqn:E; [discriminate|].
    destruct (indexOf s pat) eqn:Ek; [discriminate|].
    intros _ [|j].
    + intros [_ H0]. simpl in H0. congruence.
    + rewrite occursAt_S. now apply IH.
Qed.

Lemma occurs_indexOf (s pat : string) (j : nat) :
  occursAt s pat j -> exists i, indexOf s pat = Some i /\ i <= j.
Proof.
  intros H. destruct (indexOf s pat) as [i|] eqn:E.
  - exists i. split; [reflexivity|].
    destruct (indexOf_occurs _ _ _ E) as [_ Hmin].
    destruct (Nat.le_gt_cases i j) as [|Hlt]; [assumption|].
    exfalso. exact (Hmin j Hlt H).
  - exfalso. exact (indexOf_absent _ _ E _ H).
Qed.

Lemma occursAt_in_context (pre s post pat : string) (i : nat) :
  occursAt s pat i -> occursAt (pre +++ s +++ post) pat (len pre + i).
Proof.
  intros [Hi H]. split.
  - rewrite !len_append. lia.
  - rewrite drop_append_r by lia.
    replace (len pre + i - len pre) with i by lia.
    rewrite drop_append_l by lia. now apply startsWith_append_l.
Qed.

End StringFacts.

(** ** The walker's list of text nodes *)

Section WalkerFacts.

Lemma path_eqb_eq (p q : path) : path_eqb p q = true <-> p = q.
Proof.
  revert q; induction p as [|i p IH]; intros [|j q]; simpl;
    try (split; [discriminate | congruence]); try tauto.
  rewrite andb_true_iff, Nat.eqb_eq, IH. split.
  - intros [-> ->]; reflexivity.
  - intros [= -> ->]; auto.
Qed.

Lemma path_eqb_refl (p : path) : path_eqb p p = true.
Proof. now apply path_eqb_eq. Qed.

Lemma path_eqb_neq (p q : path) : p <> q -> path_eqb p q = false.
Proof.
  intros H. destruct (path_eqb p q) eqn:E; [|reflexivity].
  apply path_eqb_eq in E. contradiction.
Qed.

Lemma texts_cons (p : path) (t : string) (nodes : list (path * string)) :
  texts ((p, t) :: nodes) = t +++ texts nodes.
Proof. reflexivity. Qed.

Lemma texts_app (l1 l2 : list (path * string)) :
  texts (l1 ++ l2) = texts l1 +++ texts l2.
Proof.
  induction l1 as [|[p t] l1 IH]; simpl; [reflexivity|].
  rewrite !texts_cons, IH. now rewrite append_assoc.
Qed.

Lemma head_not_in_tail (p : path) (t : string) (q : path)
    (nodes : list (path * string)) :
  NoDup (map fst ((p, t) :: nodes)) -> In q (map fst nodes) ->
  path_eqb p q = false.
Proof.
  intros Hnd Hin. apply path_eqb_neq. intros ->.
  inversion Hnd; subst. contradiction.
Qed.

(** *** First loop *)

Lemma fastPath_absent (pat : string) (nodes : list (path * string)) :
  Resolver.fastPath pat nodes = None ->
  forall p t, In (p, t) nodes -> indexOf t pat = None.
Proof.
  induction nodes as [|[q u] nodes IH]; simpl; [tauto|].
  destruct (indexOf u pat) eqn:E; [discriminate|].
  intros H p t [[= <- <-]|Hin]; [assumption | eauto].
Qed.

Lemma fastPath_found (pat : string) (nodes : list (path * string)) (r : Range) :
  Resolver.fastPath pat nodes = Some r ->
  exists before p t after,
    nodes = before ++ (p, t) :: after /\
    (forall q u, In (q, u) before -> indexOf u pat = None) /\
    indexOf t pat = Some (startOffset r) /\
    r = {| startContainer := p; startOffset := startOffset r;
           endContainer := p; endOffset := startOffset r + len pat |}.
Proof.
  revert r; induction nodes as [|[q u] nodes IH]; simpl; intros r;
    [discriminate|].
  destruct (indexOf u pat) as [idx|] eqn:E.
  - intros [= <-]. exists [], q, u, nodes. simpl. repeat split; auto.
    intros ? ? [].
  - intros H. destruct (IH r H) as (before & p & t & after & -> & Hb & Hi & Hr).
    exists ((q, u) :: before), p, t, after. repeat split; auto.
    intros q' u' [[= <- <-]|Hin]; [assumption | eauto].
Qed.

Lemma fastPath_range (pat : string) (nodes : list (path * string)) (r : Range) :
  NoDup (map fst nodes) ->
  Resolver.fastPath pat nodes = Some r ->
  rangeTextIn r nodes = Some pat /\
  exists k,
    flatIndexIn (startContainer r) (startOffset r) nodes = Some k /\
    occursAt (texts nodes) pat k.
Proof.
  revert r; induction nodes as [|[q u] nodes IH]; simpl; intros r Hnd;
    [discriminate|].
  destruct (indexOf u pat) as [idx|] eqn:E.
  - intros [= <-]. simpl. rewrite path_eqb_refl.
    apply indexOf_occurs in E as [Hocc _]. split.
    + now rewrite occursAt_substring.
    + exists idx. split; [reflexivity|]. rewrite texts_cons.
      apply (occursAt_in_context EmptyString u (texts nodes) pat idx Hocc).
  - intros H. assert (Hnd' : NoDup (map fst nodes)) by now inversion Hnd.
    destruct (IH r Hnd' H) as (Ht & k & Hk & Hocc).
    destruct (fastPath_found _ _ _ H) as (before & p & t & after & Hn & _ & _ & Hr).
    assert (Hin : In (startContainer r) (map fst nodes)).
    { rewrite Hr; simpl. rewrite Hn, map_app. apply in_or_app. right.
      now left. }
    rewrite (head_not_in_tail q u _ nodes Hnd Hin). split; [assumption|].
    exists (len u + k). rewrite Hk. split; [reflexivity|].
    rewrite texts_cons.
    pose proof (occursAt_in_context u (texts nodes) EmptyString pat k Hocc) as Ho.
    now rewrite append_nil_r in Ho.
Qed.

End WalkerFacts.

Section SlowWalk.

Variables searchIndex searchLen : nat.

(** Once the start has been found, the walk stops in the node in which the
    flattened text reaches [searchIndex + searchLen]. *)
Lemma slowWalk_finish (nodes : list (path * string)) :
  forall (charCount : nat) (st : path * nat),
    NoDup (map fst nodes) ->
    charCount < searchIndex + searchLen ->
    searchIndex + searchLen <= charCount + len (texts nodes) ->
    exists en eo,
      Resolver.slowWalk searchIndex searchLen charCount (Some st) nodes
        = (Some st, Some (en, eo)) /\
      In en (map fst nodes) /\
      rangeTextTo en eo nodes
        = Some (take (searchIndex + searchLen - charCount) (texts nodes)).
Proof.
  induction nodes as [|[p t] nodes IH]; intros cc st Hnd Hlt Hle.
  - unfold texts, len in Hle; simpl in Hle. lia.
  - rewrite texts_cons, len_append in Hle. simpl.
    destruct (searchIndex + searchLen <=? cc + len t) eqn:E.
    + apply Nat.leb_le in E. exists p, (searchIndex + searchLen - cc).
      rewrite path_eqb_refl, texts_cons, take_append_l by lia. auto.
    + apply Nat.leb_gt in E.
      assert (Hnd' : NoDup (map fst nodes)) by now inversion Hnd.
      destruct (IH (cc + len t) st Hnd') as (en & eo & Hw & Hin & Ht);
        [lia | lia |].
      exists en, eo. rewrite Hw. split; [reflexivity|]. split; [now right|].
      rewrite (head_not_in_tail p t en nodes Hnd Hin), Ht. simpl.
      rewrite texts_cons, take_append_r by lia.
      do 3 f_equal. lia.
Qed.

(** The whole second loop, started before the occurrence. *)
Lemma slowWalk_start (nodes : list (path * string)) :
  forall (charCount : nat),
    NoDup (map fst nodes) ->
    charCount <= searchIndex ->
    0 < searchLen ->
    searchIndex + searchLen <= charCount + len (texts nodes) ->
    exists sn so en eo,
      Resolver.slowWalk searchIndex searchLen charCount None nodes
        = (Some (sn, so), Some (en, eo)) /\
      In sn (map fst nodes) /\
      rangeTextIn {| startContainer := sn; startOffset := so;
                     endContainer := en; endOffset := eo |} nodes
        = Some (substring (searchIndex - charCount)
                  (searchIndex + searchLen - charCount) (texts nodes)) /\
      flatIndexIn sn so nodes = Some (searchIndex - charCount).
Proof.
  induction nodes as [|[p t] nodes IH]; intros cc Hnd Hcc Hpos Hle.
  - unfold texts, len in Hle; simpl in Hle. lia.
  - rewrite texts_cons, len_append in Hle.
    assert (Hnd' : NoDup (map fst nodes)) by now inversion Hnd.
    simpl. destruct (searchIndex <? cc + len t) eqn:Es.
    + apply Nat.ltb_lt in Es.
      destruct (searchIndex + searchLen <=? cc + len t) eqn:Ee.
      * apply Nat.leb_le in Ee.
        exists p, (searchIndex - cc), p, (searchIndex + searchLen - cc).
        simpl. rewrite !path_eqb_refl. repeat split; auto.
        rewrite texts_cons. unfold substring.
        rewrite drop_append_l by lia. rewrite take_append_l; [reflexivity|].
        rewrite len_drop. lia.
      * apply Nat.leb_gt in Ee.
        destruct (slowWalk_finish nodes (cc + len t) (p, searchIndex - cc) Hnd')
          as (en & eo & Hw & Hin & Ht); [lia | lia |].
        exists p, (searchIndex - cc), en, eo. rewrite Hw. simpl.
        rewrite path_eqb_refl, (head_not_in_tail p t en nodes Hnd Hin), Ht.
        repeat split; auto. simpl. rewrite texts_cons. unfold substring.
        rewrite drop_append_l by lia. rewrite take_append_r
          by (rewrite len_drop; lia).
        rewrite len_drop. do 3 f_equal. lia.
    + apply Nat.ltb_ge in Es.
      destruct (IH (cc + len t) Hnd') as (sn & so & en & eo & Hw & Hin & Ht & Hf);
        [lia | lia | lia |].
      exists sn, so, en, eo. rewrite Hw. simpl.
      rewrite (head_not_in_tail p t sn nodes Hnd Hin), Ht, Hf.
      repeat split; auto.
      * rewrite texts_cons. unfold substring.
        rewrite drop_append_r by lia.
        f_equal. f_equal; [lia | f_equal; lia].
      * simpl. f_equal. lia.
Qed.

End SlowWalk.

(** ** The tree and its text nodes *)

Section TreeFacts.

Lemma textOfList_cons (k : node) (l : list node) :
  textOfList (k :: l) = textContent k +++ textOfList l.
Proof. reflexivity. Qed.

Lemma textOfList_app (l1 l2 : list node) :
  textOfList (l1 ++ l2) = textOfList l1 +++ textOfList l2.
Proof.
  induction l1 as [|k l1 IH]; simpl; [reflexivity|].
  rewrite !textOfList_cons, IH. now rewrite append_assoc.
Qed.

Lemma textContent_Text (s : string) : textContent (Text s) = s.
Proof. reflexivity. Qed.

Lemma textContent_Elem (a : attrs) (kids : list node) :
  textContent (Elem a kids) = textOfList kids.
Proof.
  unfold textContent. fold textContent.
  induction kids as [|k kids IH]; [reflexivity|].
  now rewrite textOfList_cons, IH.
Qed.

Lemma textNodesFrom_cons (i : nat) (k : node) (l : list node) :
  textNodesFrom i (k :: l)
  = map (fun ps => (i :: fst ps, snd ps)) (textNodes k)
    ++ textNodesFrom (S i) l.
Proof. reflexivity. Qed.

Lemma textNodes_Elem (a : attrs) (kids : list node) :
  textNodes (Elem a kids) = textNodesFrom 0 kids.
Proof. reflexivity. Qed.

Lemma texts_relabel (i : nat) (l : list (path * string)) :
  texts (map (fun ps => (i :: fst ps, snd ps)) l) = texts l.
Proof. unfold texts. now rewrite map_map. Qed.

Lemma texts_textNodes (n : node) : texts (textNodes n) = textContent n.
Proof.
  induction n as [s|a kids IH] using node_induction.
  - unfold texts; simpl. apply append_nil_r.
  - rewrite textContent_Elem, textNodes_Elem. generalize 0.
    induction IH as [|k kids Hk _ IHkids]; intros i; [reflexivity|].
    rewrite textNodesFrom_cons, texts_app, texts_relabel, Hk, IHkids.
    reflexivity.
Qed.

Lemma textNodesFrom_head (i : nat) (l : list node) (p : path) :
  In p (map fst (textNodesFrom i l)) ->
  exists j q, p = j :: q /\ i <= j.
Proof.
  revert i; induction l as [|k l IH]; intros i; [intros []|].
  rewrite textNodesFrom_cons, map_app, in_app_iff, map_map. simpl.
  intros [H|H].
  - apply in_map_iff in H as (ps & <- & _). eauto.
  - destruct (IH _ H) as (j & q & -> & Hj). exists j, q. split; [auto | lia].
Qed.

Lemma textNodes_NoDup (n : node) : NoDup (map fst (textNodes n)).
Proof.
  induction n as [s|a kids IH] using node_induction.
  - simpl. constructor; [intros [] | constructor].
  - rewrite textNodes_Elem. generalize 0.
    induction IH as [|k kids Hk _ IHkids]; intros i; [constructor|].
    rewrite textNodesFrom_cons, map_app, map_map. simpl.
    apply NoDup_app.
    + rewrite <- (map_map fst (cons i)).
      apply Injective_map_NoDup; [|assumption].
      intros x y [= ->]; reflexivity.
    + apply IHkids.
    + intros p Hp Hq. apply in_map_iff in Hp as (ps & <- & _).
      apply textNodesFrom_head in Hq as (j & q & [= <- _] & Hj). lia.
Qed.

End TreeFacts.

(** ** AnchorResolver *)

Section ResolverFacts.

Import Resolver.

(** The resolver never reports a range for a text that the document does
    not hold. *)
Lemma findTextInDOM_absent (dom : node) (sel : bool) (pat : string) :
  indexOf (textContent dom) pat = None -> findTextInDOM dom sel pat = None.
Proof.
  intros Habs. unfold findTextInDOM.
  destruct (fastPath pat (textNodes dom)) as [r|] eqn:Ef.
  - exfalso. destruct (fastPath_range pat _ r (textNodes_NoDup dom) Ef)
      as (_ & k & _ & Hocc).
    rewrite texts_textNodes in Hocc. exact (indexOf_absent _ _ Habs _ Hocc).
  - now rewrite Habs.
Qed.

(** Every range the resolver returns reads as the text searched for. *)
Lemma findTextInDOM_sound (dom : node) (sel : bool) (pat : string) (r : Range) :
  findTextInDOM dom sel pat = Some r -> rangeToString dom r = Some pat.
Proof.
  unfold findTextInDOM, rangeToString.
  destruct (fastPath pat (textNodes dom)) as [r'|] eqn:Ef.
  - intros [= <-]. now apply fastPath_range; [apply textNodes_NoDup|].
  - destruct (indexOf (textContent dom) pat) as [i|] eqn:Ei; [|discriminate].
    destruct sel; simpl; [|discriminate].
    destruct pat as [|c pat'].
    + (* the empty text is found in the first text node, if there is one *)
      destruct (textNodes dom) as [|[p t] l]; [simpl; discriminate|].
      destruct t; simpl in Ef; discriminate Ef.
    + apply indexOf_occurs in Ei as [Hocc _].
      pose proof (occursAt_bound _ _ _ Hocc) as Hb.
      rewrite <- texts_textNodes in Hb, Hocc.
      destruct (slowWalk_start i (len (String c pat')) (textNodes dom) 0
                  (textNodes_NoDup dom)) as (sn & so & en & eo & Hw & _ & Ht & _);
        [lia | unfold len; simpl; lia | lia |].
      rewrite Hw. intros [= <-]. rewrite Ht.
      rewrite !Nat.sub_0_r. now rewrite occursAt_substring.
Qed.

End ResolverFacts.

Section ResolverClaims.

Import Resolver.

Local Open Scope string_scope.

(** C2, as the specification states it, fails: in the sample "cat nap" /
    "cat" the text "cat" first occurs at index 0, across the text nodes
    "ca" and "t nap", and the resolver returns the later text node "cat"
    (index 7), because its first loop looks for a single text node that
    holds the text whole. *)
Lemma findTextInDOM_prefers_single_node :
  ~ Stated.selectsFirstOccurrence Samples.catNap true "cat".
Proof.
  intros H. destruct (H 0 eq_refl) as (r & Hr & _ & Hi).
  vm_compute in Hr. injection Hr as <-. vm_compute in Hi. discriminate Hi.
Qed.

(** C2, amended: for a text that is not empty and occurs in the flattened
    text of the document (the selection object being available), the
    resolver returns a range that reads as that text and starts at an
    occurrence of it. It prefers the first text node that holds the text
    whole, and there the first occurrence within that node; only when no
    single text node holds the text does it select the first occurrence in
    document order of the flattened text. When the text occurs exactly
    once, the range covers that occurrence. Being a function of the
    document and the text, the result is the same on every call. *)
Theorem findTextInDOM_resolves (dom : node) (pat : string) (i : nat) :
  pat <> "" ->
  indexOf (textContent dom) pat = Some i ->
  exists r k,
    findTextInDOM dom true pat = Some r /\
    rangeToString dom r = Some pat /\
    rangeStartIndex dom r = Some k /\
    occursAt (textContent dom) pat k /\
    ((exists before p t after,
         textNodes dom = (before ++ (p, t) :: after)%list /\
         (forall q u, In (q, u) before -> indexOf u pat = None) /\
         startContainer r = p /\ endContainer r = p /\
         indexOf t pat = Some (startOffset r))
     \/ ((forall p t, In (p, t) (textNodes dom) -> indexOf t pat = None)
         /\ k = i)) /\
    ((forall j, occursAt (textContent dom) pat j -> j = i) -> k = i).
Proof.
  intros Hne Hi.
  destruct (fastPath pat (textNodes dom)) as [r|] eqn:Ef.
  - destruct (fastPath_range pat _ r (textNodes_NoDup dom) Ef)
      as (Ht & k & Hk & Hocc).
    rewrite texts_textNodes in Hocc.
    exists r, k. unfold findTextInDOM. rewrite Ef.
    split; [reflexivity|]. split; [exact Ht|]. split; [exact Hk|].
    split; [exact Hocc|]. split.
    + left. destruct (fastPath_found _ _ _ Ef)
        as (before & p & t & after & Hn & Hb & Hidx & Hr).
      exists before, p, t, after. rewrite Hr. simpl. repeat split; auto.
    + intros Hu. now apply Hu.
  - pose proof (indexOf_occurs _ _ _ Hi) as [Hocc _].
    pose proof (occursAt_bound _ _ _ Hocc) as Hb.
    assert (Hpos : 0 < len pat).
    { destruct pat; [congruence | unfold len; simpl; lia]. }
    rewrite <- texts_textNodes in Hb.
    destruct (slowWalk_start i (len pat) (textNodes dom) 0
                (textNodes_NoDup dom)) as (sn & so & en & eo & Hw & _ & Ht & Hf);
      [lia | lia | lia |].
    rewrite !Nat.sub_0_r in *.
    exists {| startContainer := sn; startOffset := so;
              endContainer := en; endOffset := eo |}, i.
    unfold findTextInDOM. rewrite Ef, Hi, Hw. simpl.
    split; [reflexivity|]. split.
    { unfold rangeToString. rewrite Ht, texts_textNodes.
      now rewrite occursAt_substring. }
    split; [exact Hf|]. split; [exact Hocc|]. split.
    + right. split; [|reflexivity]. now apply fastPath_absent.
    + reflexivity.
Qed.

Lemma findTextInDOM_resolves_witness :
  exists r k,
    findTextInDOM Samples.quickFox true "quick brown" = Some r /\
    rangeToString Samples.quickFox r = Some "quick brown" /\
    rangeStartIndex Samples.quickFox r = Some k /\
    occursAt (textContent Samples.quickFox) "quick brown" k /\
    ((exists before p t after,
         textNodes Samples.quickFox = (before ++ (p, t) :: after)%list /\
         (forall q u, In (q, u) before -> indexOf u "quick brown" = None) /\
         startContainer r = p /\ endContainer r = p /\
         indexOf t "quick brown" = Some (startOffset r))
     \/ ((forall p t, In (p, t) (textNodes Samples.quickFox) ->
                      indexOf t "quick brown" = None)
         /\ k = 4)) /\
    ((forall j, occursAt (textContent Samples.quickFox) "quick brown" j ->
                j = 4) -> k = 4).
Proof.
  apply (findTextInDOM_resolves Samples.quickFox "quick brown" 4).
  - discriminate.
  - reflexivity.
Defined.

End ResolverClaims.

(** ** Range extraction keeps the text *)

Section ExtractFacts.

Import Dom.

Lemma kids_split (i : nat) (k : node) (kids : list node) :
  nth_error kids i = Some k ->
  kids = firstn i kids ++ k :: skipn (S i) kids.
Proof.
  revert kids; induction i as [|i IH]; intros [|x kids] H; simpl in *;
    try discriminate.
  - now injection H as ->.
  - f_equal. now apply IH.
Qed.

Lemma firstn_length_nth (i : nat) (k : node) (kids : list node) :
  nth_error kids i = Some k -> length (firstn i kids) = i.
Proof.
  intros H. apply firstn_length_le.
  apply Nat.lt_le_incl, nth_error_Some. congruence.
Qed.

Lemma kids_split2 (i j : nat) (ki kj : node) (kids : list node) :
  i < j -> nth_error kids i = Some ki -> nth_error kids j = Some kj ->
  kids = firstn i kids ++ ki :: containedKids i j kids ++ kj :: skipn (S j) kids.
Proof.
  intros Hij Hi Hj. unfold containedKids.
  rewrite (kids_split i ki kids Hi) at 1. do 2 f_equal.
  assert (Hj' : nth_error (skipn (S i) kids) (j - S i) = Some kj).
  { rewrite nth_error_skipn. replace (S i + (j - S i)) with j by lia.
    exact Hj. }
  rewrite (kids_split _ _ _ Hj') at 1. do 2 f_equal.
  rewrite skipn_skipn. f_equal. lia.
Qed.

Lemma textOfList_split (i : nat) (k : node) (kids : list node) :
  nth_error kids i = Some k ->
  textOfList kids
  = textOfList (firstn i kids) +++ textContent k
    +++ textOfList (skipn (S i) kids).
Proof.
  intros H. rewrite (kids_split i k kids H) at 1.
  now rewrite textOfList_app, textOfList_cons.
Qed.

Lemma textOfList_splice (i : nat) (k : node) (ks kids : list node) :
  nth_error kids i = Some k ->
  textOfList ks = textContent k ->
  textOfList (spliceKid i ks kids) = textOfList kids.
Proof.
  intros H Hks. unfold spliceKid.
  rewrite (textOfList_split i k kids H), !textOfList_app, Hks. reflexivity.
Qed.

Lemma nth_error_splice (i : nat) (k k' : node) (kids : list node) :
  nth_error kids i = Some k ->
  nth_error (spliceKid i [k'] kids) i = Some k'.
Proof.
  intros H. unfold spliceKid.
  rewrite nth_error_app2; rewrite (firstn_length_nth i k kids H); [|lia].
  now rewrite Nat.sub_diag.
Qed.

Lemma textOfList_single (k : node) : textOfList [k] = textContent k.
Proof. unfold textOfList; simpl. apply append_nil_r. Qed.

Lemma extractTail_text (p : path) (o : nat) :
  forall n stay clone,
    extractTail p o n = Some (stay, clone) ->
    textContent stay +++ textContent clone = textContent n.
Proof.
  induction p as [|i p IH]; intros [s|a kids] stay clone; simpl;
    try discriminate.
  - intros [= <- <-]. apply take_drop.
  - destruct (nth_error kids i) as [k|] eqn:Ek; [|discriminate].
    destruct (extractTail p o k) as [[st cl]|] eqn:Et; [|discriminate].
    intros [= <- <-]. specialize (IH _ _ _ Et).
    change (textContent (Elem a (firstn i kids ++ [st]))
            +++ textContent (Elem a (cl :: skipn (S i) kids))
            = textContent (Elem a kids)).
    rewrite !textContent_Elem, (textOfList_split i k kids Ek).
    rewrite textOfList_app, textOfList_single, textOfList_cons, <- IH.
    now rewrite !append_assoc.
Qed.

Lemma extractHead_text (p : path) (o : nat) :
  forall n clone stay,
    extractHead p o n = Some (clone, stay) ->
    textContent clone +++ textContent stay = textContent n.
Proof.
  induction p as [|i p IH]; intros [s|a kids] clone stay; simpl;
    try discriminate.
  - intros [= <- <-]. apply take_drop.
  - destruct (nth_error kids i) as [k|] eqn:Ek; [|discriminate].
    destruct (extractHead p o k) as [[cl st]|] eqn:Et; [|discriminate].
    intros [= <- <-]. specialize (IH _ _ _ Et).
    change (textContent (Elem a (firstn i kids ++ [cl]))
            +++ textContent (Elem a (st :: skipn (S i) kids))
            = textContent (Elem a kids)).
    rewrite !textContent_Elem, (textOfList_split i k kids Ek).
    rewrite textOfList_app, textOfList_single, textOfList_cons, <- IH.
    now rewrite !append_assoc.
Qed.

(** Cutting [so .. eo] out of a text node and putting it back between the
    two halves of what stayed gives the text back. *)
Lemma cut_and_restore (so eo : nat) (s : string) :
  so <= eo ->
  take so (take so s +++ drop eo s) +++ substring so eo s
    +++ drop so (take so s +++ drop eo s) = s.
Proof.
  intros Hle. unfold substring.
  destruct (Nat.le_gt_cases so (len s)) as [Hin|Hout].
  - pose proof (len_take so s Hin) as Hl.
    rewrite take_append_l by lia. rewrite drop_append_r by lia.
    rewrite Hl, Nat.sub_diag. rewrite (take_all so (take so s)) by lia.
    replace (drop eo s) with (drop (eo - so) (drop so s))
      by (rewrite drop_drop; f_equal; lia).
    simpl. rewrite take_drop. apply take_drop.
  - rewrite (take_all so s) by lia. rewrite (drop_all eo s) by lia.
    rewrite (drop_all so s) by lia. rewrite append_nil_r.
    rewrite (take_all so s) by lia. rewrite (drop_all so s) by lia.
    destruct (eo - so); simpl; now rewrite append_nil_r.
Qed.

End ExtractFacts.

Section WrapFacts.

Import Dom.

Lemma firstn_middle (A B : list node) (x : node) :
  firstn (length A) (A ++ x :: B) = A.
Proof. induction A as [|y A IH]; simpl; [reflexivity | now rewrite IH]. Qed.

Lemma firstn_middle' (A B : list node) (x : node) :
  firstn (S (length A)) (A ++ x :: B) = A ++ [x].
Proof.
  induction A as [|y A IH]; [reflexivity|].
  change (y :: firstn (S (length A)) (A ++ x :: B) = y :: A ++ [x]).
  now rewrite IH.
Qed.

Lemma skipn_middle (A B : list node) (x : node) :
  skipn (S (length A)) (A ++ x :: B) = B.
Proof. induction A as [|y A IH]; simpl; [reflexivity | exact IH]. Qed.

Lemma splice_splice (i : nat) (k k' : node) (ks kids : list node) :
  nth_error kids i = Some k ->
  spliceKid i ks (spliceKid i [k'] kids) = spliceKid i ks kids.
Proof.
  intros H. unfold spliceKid.
  pose proof (firstn_length_nth i k kids H) as Hl.
  remember (firstn i kids) as A. remember (skipn (S i) kids) as B.
  clear HeqA HeqB H. subst i. change ([k'] ++ B) with (k' :: B).
  now rewrite firstn_middle, skipn_middle.
Qed.

Lemma extractBetween_shape (sp ep : path) (so eo : nat) (a : attrs)
    (kids : list node) (n1 : node) (frag : list node) (b : boundary) :
  extractBetween sp ep so eo (Elem a kids) = Some (n1, frag, b) ->
  exists kids', n1 = Elem a kids'.
Proof.
  destruct sp as [|i sp], ep as [|j ep]; simpl; try discriminate.
  destruct (i =? j).
  - destruct (nth_error kids i) as [k|]; [|discriminate].
    destruct (extractBetween sp ep so eo k) as [[[k' fr] [bp bo]]|];
      [|discriminate].
    intros [= <- _ _]. eauto.
  - destruct (i <? j); [|discriminate].
    destruct (nth_error kids i) as [ki|]; [|discriminate].
    destruct (nth_error kids j) as [kj|]; [|discriminate].
    destruct (extractTail sp so ki) as [[st cl]|]; [|discriminate].
    destruct (extractHead ep eo kj) as [[cl' st']|]; [|discriminate].
    intros [= <- _ _]. eauto.
Qed.

Lemma insertNode_here (a : attrs) (kids : list node) (bo : nat) (w : node) :
  bo <= length kids ->
  insertNode [] bo w (Elem a kids)
  = Some (Elem a (firstn bo kids ++ w :: skipn bo kids)).
Proof.
  intros H. apply Nat.leb_le in H. unfold insertNode. now rewrite H.
Qed.

Lemma insertNode_split (a : attrs) (kids : list node) (i bo : nat) (w : node)
    (s : string) :
  nth_error kids i = Some (Text s) ->
  insertNode [i] bo w (Elem a kids)
  = Some (Elem a (spliceKid i [Text (take bo s); w; Text (drop bo s)] kids)).
Proof. intros H. unfold insertNode. now rewrite H. Qed.

Lemma insertNode_down (a ak : attrs) (kids kk : list node) (i bo : nat)
    (bp : path) (w : node) :
  nth_error kids i = Some (Elem ak kk) ->
  insertNode (i :: bp) bo w (Elem a kids)
  = match insertNode bp bo w (Elem ak kk) with
    | Some k' => Some (Elem a (spliceKid i [k'] kids))
    | None => None
    end.
Proof.
  intros H. change (insertNode (i :: bp) bo w (Elem a kids))
    with (match nth_error kids i with
          | Some (Text s) =>
              match bp with
              | [] => Some (Elem a (spliceKid i
                              [Text (take bo s); w; Text (drop bo s)] kids))
              | _ :: _ => None
              end
          | Some k =>
              match insertNode bp bo w k with
              | Some k' => Some (Elem a (spliceKid i [k'] kids))
              | None => None
              end
          | None => None
          end).
  now rewrite H.
Qed.

(** Extract-and-reinsert: whatever [extractContents] took out of an
    element comes back inside the wrapper, at the place it was taken
    from. *)
Lemma extract_insert_text (w : attrs) (sp : path) :
  forall ep so eo a kids n1 frag bp bo,
    extractBetween sp ep so eo (Elem a kids) = Some (n1, frag, (bp, bo)) ->
    exists n2,
      insertNode bp bo (Elem w frag) n1 = Some n2 /\
      textContent n2 = textContent (Elem a kids).
Proof.
  induction sp as [|i sp IH]; intros [|j ep] so eo a kids n1 frag bp bo;
    cbn [extractBetween]; try discriminate.
  destruct (i =? j) eqn:Eij.
  - destruct (nth_error kids i) as [k|] eqn:Ek; [|discriminate].
    destruct (extractBetween sp ep so eo k) as [[[k' fr] [bp' bo']]|] eqn:Ex;
      [|discriminate].
    intros [= <- <- <- <-].
    destruct k as [s|ak kk].
    + (* both boundary points in the text node [k] *)
      destruct sp, ep; cbn [extractBetween] in Ex; try discriminate.
      destruct (so <=? eo) eqn:Ele; [|discriminate].
      apply Nat.leb_le in Ele. injection Ex as <- <- <- <-.
      rewrite (insertNode_split a _ i so _ _ (nth_error_splice i _ _ kids Ek)).
      eexists. split; [reflexivity|].
      rewrite (splice_splice i _ _ _ kids Ek).
      rewrite !textContent_Elem. apply (textOfList_splice i _ _ kids Ek).
      unfold textOfList. simpl.
      rewrite !append_nil_r, textContent_Elem, textOfList_single,
        !textContent_Text.
      now apply cut_and_restore.
    + destruct (extractBetween_shape _ _ _ _ _ _ _ _ _ Ex) as [kk' ->].
      destruct (IH _ _ _ _ _ _ _ _ _ Ex) as (k2 & Hins & Htxt).
      rewrite (insertNode_down a ak _ kk' i bo' bp' _
                 (nth_error_splice i _ _ kids Ek)), Hins.
      eexists. split; [reflexivity|].
      rewrite (splice_splice i _ _ _ kids Ek).
      rewrite !textContent_Elem. apply (textOfList_splice i _ _ kids Ek).
      now rewrite textOfList_single.
  - destruct (i <? j) eqn:Elt; [|discriminate]. apply Nat.ltb_lt in Elt.
    destruct (nth_error kids i) as [ki|] eqn:Eki; [|discriminate].
    destruct (nth_error kids j) as [kj|] eqn:Ekj; [|discriminate].
    destruct (extractTail sp so ki) as [[stI clI]|] eqn:Et; [|discriminate].
    destruct (extractHead ep eo kj) as [[clJ stJ]|] eqn:Eh; [|discriminate].
    pose proof (firstn_length_nth i ki kids Eki) as Hl.
    assert (Hk : textOfList kids
                 = textOfList (firstn i kids) +++ textContent ki
                   +++ textOfList (containedKids i j kids) +++ textContent kj
                   +++ textOfList (skipn (S j) kids)).
    { rewrite (kids_split2 i j ki kj kids Elt Eki Ekj) at 1.
      now rewrite textOfList_app, textOfList_cons, textOfList_app,
        textOfList_cons. }
    remember (firstn i kids) as A. remember (skipn (S j) kids) as B.
    intros [= <- <- <- <-].
    rewrite insertNode_here by (rewrite length_app, Hl; simpl; lia).
    eexists. split; [reflexivity|].
    assert (E1 : firstn (S i) (A ++ stI :: stJ :: B) = A ++ [stI])
      by (rewrite <- Hl; apply firstn_middle').
    assert (E2 : skipn (S i) (A ++ stI :: stJ :: B) = stJ :: B)
      by (rewrite <- Hl; apply skipn_middle).
    rewrite E1, E2, !textContent_Elem, Hk.
    rewrite !textOfList_app, !textOfList_cons, textContent_Elem,
      !textOfList_cons, !textOfList_app, !textOfList_single.
    rewrite <- (extractTail_text _ _ _ _ _ Et), <- (extractHead_text _ _ _ _ _ Eh).
    now rewrite !append_assoc.
Qed.

(** The wrapper of a collapsed range goes between the two halves of the
    text node. *)
Lemma insertNode_at_text (w : node) (bo : nat) (bp : path) :
  forall a kids s,
    nodeAt bp (Elem a kids) = Some (Text s) ->
    textContent w = EmptyString ->
    exists n2,
      insertNode bp bo w (Elem a kids) = Some n2 /\
      textContent n2 = textContent (Elem a kids).
Proof.
  induction bp as [|i bp IH]; intros a kids s; cbn [nodeAt]; [discriminate|].
  destruct (nth_error kids i) as [k|] eqn:Ek; [|discriminate].
  intros Hn Hw. destruct k as [s0|ak kk].
  - destruct bp; cbn [nodeAt] in Hn; [|discriminate]. injection Hn as ->.
    rewrite (insertNode_split a kids i bo w s Ek).
    eexists. split; [reflexivity|].
    rewrite !textContent_Elem. apply (textOfList_splice i _ _ kids Ek).
    unfold textOfList. simpl.
    rewrite Hw, append_nil_r, !textContent_Text. simpl.
    apply take_drop.
  - destruct (IH _ _ _ Hn Hw) as (k2 & Hins & Htxt).
    rewrite (insertNode_down a ak kids kk i bo bp w Ek), Hins.
    eexists. split; [reflexivity|].
    rewrite !textContent_Elem. apply (textOfList_splice i _ _ kids Ek).
    now rewrite textOfList_single.
Qed.

End WrapFacts.

(** ** The ranges of the resolver are well formed *)

Section RangeFacts.

Import Dom.

Lemma textNodesFrom_nodeAt (kids : list node) :
  forall i p t,
    In (p, t) (textNodesFrom i kids) ->
    exists j q k,
      p = (i + j) :: q /\ nth_error kids j = Some k /\ In (q, t) (textNodes k).
Proof.
  induction kids as [|k kids IH]; intros i p t; [intros []|].
  rewrite textNodesFrom_cons, in_app_iff. intros [H|H].
  - apply in_map_iff in H as ([q u] & [= <- <-] & Hin).
    exists 0, q, k. rewrite Nat.add_0_r. auto.
  - destruct (IH _ _ _ H) as (j & q & k' & -> & Hn & Hin).
    exists (S j), q, k'. repeat split; auto. f_equal. lia.
Qed.

Lemma textNodes_nodeAt (n : node) :
  forall p t, In (p, t) (textNodes n) -> nodeAt p n = Some (Text t).
Proof.
  induction n as [s|a kids IH] using node_induction; intros p t.
  - simpl. intros [[= <- <-]|[]]. reflexivity.
  - rewrite textNodes_Elem. intros H.
    destruct (textNodesFrom_nodeAt kids 0 p t H) as (j & q & k & -> & Hn & Hin).
    simpl. rewrite Hn. rewrite Forall_forall in IH.
    apply (IH k (nth_error_In _ _ Hn)). exact Hin.
Qed.

Lemma StronglySorted_app (R : path -> path -> Prop) (l1 l2 : list path) :
  StronglySorted R l1 -> StronglySorted R l2 ->
  (forall x y, In x l1 -> In y l2 -> R x y) ->
  StronglySorted R (l1 ++ l2).
Proof.
  induction l1 as [|x l1 IH]; intros H1 H2 H; simpl; [assumption|].
  apply StronglySorted_inv in H1 as [H1 Hx]. constructor.
  - apply IH; auto. intros; apply H; simpl; auto.
  - apply Forall_app. split; [assumption|].
    apply Forall_forall. intros y Hy. apply H; simpl; auto.
Qed.

Lemma StronglySorted_cons_paths (i : nat) (l : list path) :
  StronglySorted path_lt l -> StronglySorted path_lt (map (cons i) l).
Proof.
  induction 1 as [|p l Hs IH Hf]; simpl; constructor; [assumption|].
  apply Forall_map. revert Hf. apply Forall_impl. intros q Hq. simpl. auto.
Qed.

Lemma textNodes_sorted (n : node) :
  StronglySorted path_lt (map fst (textNodes n)).
Proof.
  induction n as [s|a kids IH] using node_induction.
  - simpl. repeat constructor.
  - rewrite textNodes_Elem. generalize 0.
    induction IH as [|k kids Hk _ IHkids]; intros i; [constructor|].
    rewrite textNodesFrom_cons, map_app, map_map. simpl.
    rewrite <- (map_map fst (cons i)).
    apply StronglySorted_app.
    + now apply StronglySorted_cons_paths.
    + apply IHkids.
    + intros x y Hx Hy. apply in_map_iff in Hx as (p & <- & _).
      apply textNodesFrom_head in Hy as (j & q & -> & Hj). simpl. lia.
Qed.

Lemma slowWalk_started (si sl : nat) (nodes : list (path * string)) :
  forall cc st st' en eo,
    Resolver.slowWalk si sl cc (Some st) nodes = (Some st', Some (en, eo)) ->
    st' = st /\ In en (map fst nodes).
Proof.
  induction nodes as [|[p t] nodes IH]; intros cc st st' en eo; simpl;
    [discriminate|].
  destruct (si + sl <=? cc + len t).
  - intros [= <- <- _]. auto.
  - intros H. destruct (IH _ _ _ _ _ H). auto.
Qed.

Lemma slowWalk_order (si sl : nat) (nodes : list (path * string)) :
  forall cc sn so en eo,
    StronglySorted path_lt (map fst nodes) ->
    Resolver.slowWalk si sl cc None nodes = (Some (sn, so), Some (en, eo)) ->
    In sn (map fst nodes) /\ In en (map fst nodes) /\
    ((sn = en /\ so <= eo) \/ path_lt sn en).
Proof.
  induction nodes as [|[p t] nodes IH]; intros cc sn so en eo Hs; simpl;
    [discriminate|].
  simpl in Hs. apply StronglySorted_inv in Hs as [Hs Hp].
  destruct (si <? cc + len t).
  - destruct (si + sl <=? cc + len t).
    + intros [= <- <- <- <-]. repeat split; auto. left. split; [auto | lia].
    + intros H. apply slowWalk_started in H as [[= -> ->] Hin].
      repeat split; auto. right.
      rewrite Forall_forall in Hp. now apply Hp.
  - intros H. destruct (IH _ _ _ _ _ Hs H) as (H1 & H2 & H3). auto.
Qed.

Lemma findTextInDOM_valid (dom : node) (sel : bool) (pat : string) (r : Range) :
  Resolver.findTextInDOM dom sel pat = Some r -> validRange dom r.
Proof.
  unfold Resolver.findTextInDOM, validRange.
  destruct (Resolver.fastPath pat (textNodes dom)) as [r'|] eqn:Ef.
  - intros [= <-].
    destruct (fastPath_found _ _ _ Ef) as (before & p & t & after & Hn & _ & _ & ->).
    simpl.
    assert (Hin : In (p, t) (textNodes dom))
      by (rewrite Hn; apply in_or_app; right; now left).
    apply textNodes_nodeAt in Hin.
    repeat split; eauto. left. split; [reflexivity | lia].
  - destruct (indexOf (textContent dom) pat) as [i|]; [|discriminate].
    destruct (negb sel); [discriminate|].
    destruct (Resolver.slowWalk i (len pat) 0 None (textNodes dom))
      as [[[sn so]|] [[en eo]|]] eqn:Ew; try discriminate.
    intros [= <-]. simpl.
    destruct (slowWalk_order _ _ _ _ _ _ _ _ (textNodes_sorted dom) Ew)
      as (Hs & He & Ho).
    apply in_map_iff in Hs as ([sn' t] & Es & Hs); simpl in Es; subst sn'.
    apply in_map_iff in He as ([en' u] & Ee & He); simpl in Ee; subst en'.
    apply textNodes_nodeAt in Hs, He. eauto.
Qed.

Lemma extractTail_succeeds (o : nat) (p : path) :
  forall n s, nodeAt p n = Some (Text s) ->
    exists res, extractTail p o n = Some res.
Proof.
  induction p as [|i p IH]; intros [s0|a kids] s; simpl; try discriminate.
  - eauto.
  - destruct (nth_error kids i) as [k|]; [|discriminate].
    intros H. destruct (IH _ _ H) as ([st cl] & ->). eauto.
Qed.

Lemma extractHead_succeeds (o : nat) (p : path) :
  forall n s, nodeAt p n = Some (Text s) ->
    exists res, extractHead p o n = Some res.
Proof.
  induction p as [|i p IH]; intros [s0|a kids] s; simpl; try discriminate.
  - eauto.
  - destruct (nth_error kids i) as [k|]; [|discriminate].
    intros H. destruct (IH _ _ H) as ([cl st] & ->). eauto.
Qed.

Lemma extractBetween_succeeds (so eo : nat) (sp : path) :
  forall ep n t u,
    nodeAt sp n = Some (Text t) -> nodeAt ep n = Some (Text u) ->
    (sp = ep /\ so <= eo) \/ path_lt sp ep ->
    exists res, extractBetween sp ep so eo n = Some res.
Proof.
  induction sp as [|i sp IH]; intros ep n t u Hs He Ho.
  - destruct n as [s|a kids]; [|discriminate].
    destruct ep; [|discriminate].
    destruct Ho as [[_ Hle]|[]]. cbn [extractBetween].
    apply Nat.leb_le in Hle. rewrite Hle. eauto.
  - destruct n as [s|a kids]; [discriminate|].
    destruct ep as [|j ep]; [discriminate|].
    cbn [nodeAt] in Hs, He. cbn [extractBetween].
    destruct (nth_error kids i) as [ki|] eqn:Eki; [|discriminate].
    destruct (nth_error kids j) as [kj|] eqn:Ekj; [|discriminate].
    destruct (i =? j) eqn:Eij.
    + apply Nat.eqb_eq in Eij. subst j. rewrite Eki in Ekj.
      injection Ekj as <-.
      destruct (IH ep ki t u Hs He) as ([[k' fr] [bp bo]] & ->); [|eauto].
      destruct Ho as [[[= ->] Hle]|[Hlt|[_ Hlt]]]; auto. lia.
    + apply Nat.eqb_neq in Eij.
      assert (Hlt : i < j).
      { destruct Ho as [[[= -> _] _]|[Hlt|[-> _]]]; auto; contradiction. }
      apply Nat.ltb_lt in Hlt. rewrite Hlt.
      destruct (extractTail_succeeds so sp ki t Hs) as ([st cl] & ->).
      destruct (extractHead_succeeds eo ep kj u He) as ([cl' st'] & ->).
      eauto.
Qed.

End RangeFacts.

(** ** Elements survive wrapping *)

Section MarkFacts.

Import Dom.

Variable sel : selector.

Lemma matchesFrom_cons (i : nat) (k : node) (l : list node) :
  matchesFrom sel i (k :: l)
  = map (cons i) (matchesIn sel k) ++ matchesFrom sel (S i) l.
Proof. reflexivity. Qed.

Lemma matchesIn_Elem (a : attrs) (kids : list node) :
  matchesIn sel (Elem a kids)
  = (if sel a then [[]] else []) ++ matchesFrom sel 0 kids.
Proof. reflexivity. Qed.

Lemma matchesIn_none (n : node) :
  matchesIn sel n = [] <-> anyMatch sel n = false.
Proof.
  induction n as [s|a kids IH] using node_induction; [simpl; tauto|].
  rewrite matchesIn_Elem. cbn [anyMatch]. rewrite orb_false_iff.
  assert (Hk : forall i, matchesFrom sel i kids = []
                         <-> existsb (anyMatch sel) kids = false).
  { induction IH as [|k kids Hk _ IHkids]; intros i; [simpl; tauto|].
    rewrite matchesFrom_cons. cbn [existsb]. rewrite orb_false_iff.
    rewrite <- Hk, <- (IHkids (S i)). split.
    - intros H. apply app_eq_nil in H as [H1 H2]. split; [|assumption].
      now destruct (matchesIn sel k).
    - intros [-> ->]. reflexivity. }
  rewrite <- (Hk 0). destruct (sel a); simpl; split; try tauto.
  - discriminate.
  - intros [? _]. discriminate.
Qed.

Lemma matchesFrom_none (kids : list node) :
  forall i, matchesFrom sel i kids = []
            <-> existsb (anyMatch sel) kids = false.
Proof.
  induction kids as [|k kids IH]; intros i; [simpl; tauto|].
  rewrite matchesFrom_cons. cbn [existsb]. rewrite orb_false_iff.
  rewrite <- matchesIn_none, <- (IH (S i)). split.
  - intros H. apply app_eq_nil in H as [H1 H2]. split; [|assumption].
    now destruct (matchesIn sel k).
  - intros [-> ->]. reflexivity.
Qed.

Lemma querySelectorAll_none (n : node) :
  querySelectorAll sel n = [] <-> anyDescendant sel n = false.
Proof.
  destruct n as [s|a kids]; [simpl; tauto|]. apply matchesFrom_none.
Qed.

Lemma querySelector_none (n : node) :
  querySelector sel n = None <-> anyDescendant sel n = false.
Proof.
  rewrite <- querySelectorAll_none. unfold querySelector.
  destruct (querySelectorAll sel n); simpl; split; congruence.
Qed.

End MarkFacts.

Section MarksSurvive.

Import Dom.

Variable sel : selector.

Local Abbreviation anyOf := (existsb (anyMatch sel)).

Lemma anyOf_split (i : nat) (k : node) (kids : list node) :
  nth_error kids i = Some k ->
  anyOf kids
  = anyOf (firstn i kids) || anyMatch sel k || anyOf (skipn (S i) kids).
Proof.
  intros H. rewrite (kids_split i k kids H) at 1.
  rewrite existsb_app. simpl. now rewrite orb_assoc.
Qed.

Lemma anyOf_splice (i : nat) (k : node) (ks kids : list node) :
  nth_error kids i = Some k ->
  anyOf (spliceKid i ks kids)
  = anyOf (firstn i kids) || anyOf ks || anyOf (skipn (S i) kids).
Proof.
  intros _. unfold spliceKid. rewrite !existsb_app. now rewrite orb_assoc.
Qed.

Lemma extractTail_keeps (o : nat) (p : path) :
  forall n stay clone,
    extractTail p o n = Some (stay, clone) ->
    anyMatch sel n = true ->
    anyMatch sel stay || anyMatch sel clone = true.
Proof.
  induction p as [|i p IH]; intros [s|a kids] stay clone;
    cbn [extractTail]; try discriminate.
  destruct (nth_error kids i) as [k|] eqn:Ek; [|discriminate].
    destruct (extractTail p o k) as [[st cl]|] eqn:Et; [|discriminate].
    pose proof (anyOf_split i k kids Ek) as Hs.
    remember (skipn (S i) kids) as B.
    intros [= <- <-]. cbn [anyMatch].
    rewrite Hs, existsb_app. cbn [existsb].
    specialize (IH _ _ _ Et).
    destruct (sel a); [reflexivity|].
    destruct (anyOf (firstn i kids)); [reflexivity|].
    destruct (anyOf B); [now rewrite !orb_true_r|].
    destruct (anyMatch sel k); [|discriminate].
    intros _. specialize (IH eq_refl).
    apply orb_true_iff in IH as [-> | ->]; now rewrite ?orb_true_r.
Qed.

Lemma extractHead_keeps (o : nat) (p : path) :
  forall n clone stay,
    extractHead p o n = Some (clone, stay) ->
    anyMatch sel n = true ->
    anyMatch sel clone || anyMatch sel stay = true.
Proof.
  induction p as [|i p IH]; intros [s|a kids] clone stay;
    cbn [extractHead]; try discriminate.
  destruct (nth_error kids i) as [k|] eqn:Ek; [|discriminate].
    destruct (extractHead p o k) as [[cl st]|] eqn:Et; [|discriminate].
    pose proof (anyOf_split i k kids Ek) as Hs.
    remember (skipn (S i) kids) as B.
    intros [= <- <-]. cbn [anyMatch].
    rewrite Hs, existsb_app. cbn [existsb].
    specialize (IH _ _ _ Et).
    destruct (sel a); [reflexivity|].
    destruct (anyOf (firstn i kids)); [reflexivity|].
    destruct (anyOf B); [now rewrite !orb_true_r|].
    destruct (anyMatch sel k); [|discriminate].
    intros _. specialize (IH eq_refl).
    apply orb_true_iff in IH as [-> | ->]; now rewrite ?orb_true_r.
Qed.

(** No element is lost by an extraction: it stays in the tree or goes to
    the fragment. *)
Lemma extractBetween_keeps (so eo : nat) (sp : path) :
  forall ep a kids kids1 frag b,
    extractBetween sp ep so eo (Elem a kids) = Some (Elem a kids1, frag, b) ->
    anyOf kids = true ->
    anyOf kids1 || anyOf frag = true.
Proof.
  induction sp as [|i sp IH]; intros [|j ep] a kids kids1 frag b;
    cbn [extractBetween]; try discriminate.
  destruct (i =? j) eqn:Eij.
  - destruct (nth_error kids i) as [k|] eqn:Ek; [|discriminate].
    destruct (extractBetween sp ep so eo k) as [[[k' fr] [bp bo]]|] eqn:Ex;
      [|discriminate].
    intros [= <- <- _].
    rewrite (anyOf_split i k kids Ek), (anyOf_splice i k [k'] kids Ek).
    cbn [existsb]. rewrite orb_false_r.
    destruct (anyOf (firstn i kids)); [reflexivity|].
    destruct (anyOf (skipn (S i) kids)); [now rewrite !orb_true_r|].
    rewrite !orb_false_l, !orb_false_r.
    destruct k as [s|ak kk]; [cbn [anyMatch]; discriminate|].
    destruct (extractBetween_shape _ _ _ _ _ _ _ _ _ Ex) as [kk1 ->].
    cbn [anyMatch]. destruct (sel ak); [reflexivity|]. simpl.
    now apply (IH _ _ _ _ _ _ Ex).
  - destruct (i <? j) eqn:Elt; [|discriminate]. apply Nat.ltb_lt in Elt.
    destruct (nth_error kids i) as [ki|] eqn:Eki; [|discriminate].
    destruct (nth_error kids j) as [kj|] eqn:Ekj; [|discriminate].
    destruct (extractTail sp so ki) as [[stI clI]|] eqn:Et; [|discriminate].
    destruct (extractHead ep eo kj) as [[clJ stJ]|] eqn:Eh; [|discriminate].
    pose proof (extractTail_keeps _ _ _ _ _ Et) as HT.
    pose proof (extractHead_keeps _ _ _ _ _ Eh) as HH.
    assert (Hk : anyOf kids
                 = anyOf (firstn i kids) || anyMatch sel ki
                   || anyOf (containedKids i j kids) || anyMatch sel kj
                   || anyOf (skipn (S j) kids)).
    { rewrite (kids_split2 i j ki kj kids Elt Eki Ekj) at 1.
      rewrite existsb_app. cbn [existsb]. rewrite existsb_app.
      cbn [existsb]. now rewrite !orb_assoc. }
    remember (firstn i kids) as A. remember (skipn (S j) kids) as B.
    intros [= <- <- _]. rewrite Hk.
    rewrite !existsb_app. cbn [existsb]. rewrite existsb_app. cbn [existsb].
    destruct (anyOf A); [reflexivity|].
    destruct (anyOf B); [now rewrite !orb_true_r|].
    destruct (anyOf (containedKids i j kids)); [now rewrite !orb_true_r|].
    rewrite !orb_false_l, !orb_false_r.
    destruct (anyMatch sel ki).
    + intros _. specialize (HT eq_refl).
      apply orb_true_iff in HT as [-> | ->]; now rewrite ?orb_true_r.
    + destruct (anyMatch sel kj); [|discriminate].
      intros _. specialize (HH eq_refl).
      apply orb_true_iff in HH as [-> | ->]; now rewrite ?orb_true_r.
Qed.

(** An insertion adds the inserted node and keeps every element. *)
Lemma insertNode_marks (w : node) (bo : nat) (bp : path) :
  forall a kids n2,
    insertNode bp bo w (Elem a kids) = Some n2 ->
    exists kids2, n2 = Elem a kids2 /\
                  anyOf kids2 = anyOf kids || anyMatch sel w.
Proof.
  induction bp as [|i bp IH]; intros a kids n2.
  - unfold insertNode. destruct (bo <=? length kids); [|discriminate].
    intros [= <-]. eexists. split; [reflexivity|].
    rewrite existsb_app. cbn [existsb].
    rewrite <- (firstn_skipn bo kids) at 3. rewrite existsb_app.
    destruct (anyOf (firstn bo kids)), (anyMatch sel w),
      (anyOf (skipn bo kids)); reflexivity.
  - destruct (nth_error kids i) as [k|] eqn:Ek.
    + destruct k as [s|ak kk].
      * destruct bp.
        -- rewrite (insertNode_split a kids i bo w s Ek). intros [= <-].
           eexists. split; [reflexivity|].
           rewrite (anyOf_splice i _ _ kids Ek), (anyOf_split i _ kids Ek).
           cbn [existsb anyMatch].
           destruct (anyOf (firstn i kids)), (anyMatch sel w),
             (anyOf (skipn (S i) kids)); reflexivity.
        -- unfold insertNode. rewrite Ek. discriminate.
      * rewrite (insertNode_down a ak kids kk i bo bp w Ek).
        destruct (insertNode bp bo w (Elem ak kk)) as [k'|] eqn:Ei;
          [|discriminate].
        destruct (IH _ _ _ Ei) as (kk2 & -> & Hkk).
        intros [= <-]. eexists. split; [reflexivity|].
        rewrite (anyOf_splice i _ _ kids Ek), (anyOf_split i _ kids Ek).
        cbn [existsb anyMatch]. rewrite Hkk.
        destruct (anyOf (firstn i kids)), (sel ak), (anyOf kk),
          (anyMatch sel w), (anyOf (skipn (S i) kids)); reflexivity.
    + unfold insertNode. rewrite Ek. discriminate.
Qed.

End MarksSurvive.

(** ** Wrapping a range of the resolver *)

Section WrapRange.

Import Dom.

Lemma extract_then_insert (r : Range) (w : attrs) (a : attrs)
    (kids : list node) :
  validRange (Elem a kids) r ->
  exists n1 frag bp bo kids',
    extractContents r (Elem a kids) = Some (n1, frag, (bp, bo)) /\
    insertNode bp bo (Elem w frag) n1 = Some (Elem a kids') /\
    textContent (Elem a kids') = textContent (Elem a kids) /\
    forall sel : selector,
      (existsb (anyMatch sel) kids = true ->
       existsb (anyMatch sel) kids' = true) /\
      (sel w = true -> existsb (anyMatch sel) kids' = true).
Proof.
  intros ([t Hs] & [u He] & Ho). unfold extractContents.
  destruct (collapsed r) eqn:Ec.
  - destruct (insertNode_at_text (Elem w []) (startOffset r)
                (startContainer r) a kids t Hs eq_refl) as (n2 & Hins & Htxt).
    exists (Elem a kids), [], (startContainer r), (startOffset r).
    destruct (insertNode_marks (fun _ => false) _ _ _ _ _ _ Hins)
      as (kids2 & -> & _).
    exists kids2. repeat split; auto.
    + destruct (insertNode_marks sel _ _ _ _ _ _ Hins) as (k2 & [= <-] & ->).
      intros ->. reflexivity.
    + destruct (insertNode_marks sel _ _ _ _ _ _ Hins) as (k2 & [= <-] & ->).
      intros Hw. cbn [anyMatch]. rewrite Hw. now rewrite orb_true_r.
  - destruct (extractBetween_succeeds (startOffset r) (endOffset r)
                (startContainer r) (endContainer r) _ t u Hs He Ho)
      as ([[n1 frag] [bp bo]] & Hx).
    destruct (extractBetween_shape _ _ _ _ _ _ _ _ _ Hx) as [kids1 ->].
    destruct (extract_insert_text w _ _ _ _ _ _ _ _ _ _ Hx)
      as (n2 & Hins & Htxt).
    exists (Elem a kids1), frag, bp, bo.
    destruct (insertNode_marks (fun _ => false) _ _ _ _ _ _ Hins)
      as (kids2 & -> & _).
    exists kids2. repeat split; auto.
    + destruct (insertNode_marks sel _ _ _ _ _ _ Hins) as (k2 & [= <-] & ->).
      intros Hk. pose proof (extractBetween_keeps sel _ _ _ _ _ _ _ _ _ Hx Hk) as Hkeep.
      cbn [anyMatch].
      apply orb_true_iff in Hkeep as [-> | ->];
        now rewrite ?orb_true_r.
    + destruct (insertNode_marks sel _ _ _ _ _ _ Hins) as (k2 & [= <-] & ->).
      intros Hw. cbn [anyMatch]. rewrite Hw. now rewrite orb_true_r.
Qed.

(** Wrapping never fails on a well-formed range, whether or not the
    range cuts through elements; it keeps the flattened text and every
    element, and it adds the wrapper. *)
Lemma wrapRange_ok (r : Range) (w : attrs) (a : attrs) (kids : list node) :
  validRange (Elem a kids) r ->
  exists kids',
    Viewer.wrapRange r w (Elem a kids) = Normal (Elem a kids') /\
    textContent (Elem a kids') = textContent (Elem a kids) /\
    forall sel : selector,
      (anyDescendant sel (Elem a kids) = true ->
       anyDescendant sel (Elem a kids') = true) /\
      (sel w = true -> anyDescendant sel (Elem a kids') = true).
Proof.
  intros Hv.
  destruct (extract_then_insert r w a kids Hv)
    as (n1 & frag & bp & bo & kids' & Hx & Hins & Htxt & Hm).
  exists kids'. unfold Viewer.wrapRange, surroundContents.
  rewrite Hx. cbn [appendChild app]. rewrite Hins.
  split; [now destruct (partiallyContainsElement r)|]. auto.
Qed.

End WrapRange.

(** ** Applying shared annotations *)

Section ApplyFacts.

Import Dom Viewer.

Lemma applyOnePlain_skip (v : state) (ann : Ann.t) (dom : node) :
  container v = Some dom ->
  represented (Ann.id ann) dom = true ->
  applyOnePlain v ann = v.
Proof.
  intros Hc Hr. unfold applyOnePlain, place. rewrite Hc.
  destruct (getDoms (Ann.id ann) dom) as [|p l] eqn:Eg; [|reflexivity].
  apply querySelectorAll_none in Eg. unfold represented in Hr.
  rewrite Eg in Hr. simpl in Hr.
  destruct (querySelector (bindIdIs (Ann.id ann)) dom) eqn:Eq; [reflexivity|].
  apply querySelector_none in Eq. congruence.
Qed.

Lemma not_represented (id : string) (dom : node) :
  represented id dom = false ->
  getDoms id dom = [] /\ querySelector (bindIdIs id) dom = None.
Proof.
  unfold represented. intros H. apply orb_false_iff in H as [H1 H2].
  split; [now apply querySelectorAll_none | now apply querySelector_none].
Qed.

Lemma applyOnePlain_notfound (v : state) (ann : Ann.t) (dom : node) :
  container v = Some dom ->
  represented (Ann.id ann) dom = false ->
  Resolver.findTextInDOM dom (hasSelection v) (Ann.originalText ann) = None ->
  applyOnePlain v ann = warn (notFoundWarning ann) v.
Proof.
  intros Hc Hr Hf. apply not_represented in Hr as [Hg Hq].
  unfold applyOnePlain, place. now rewrite Hc, Hg, Hq, Hf.
Qed.

Lemma applyOnePlain_found (v : state) (ann : Ann.t) (a : attrs)
    (kids : list node) (r : Range) :
  container v = Some (Elem a kids) ->
  represented (Ann.id ann) (Elem a kids) = false ->
  Resolver.findTextInDOM (Elem a kids) (hasSelection v) (Ann.originalText ann)
    = Some r ->
  exists kids',
    wrapRange r (wrapperFor (Ann.id ann) (Ann.type ann)) (Elem a kids)
      = Normal (Elem a kids') /\
    applyOnePlain v ann = withContainer (Elem a kids') v /\
    textContent (Elem a kids') = textContent (Elem a kids) /\
    represented (Ann.id ann) (Elem a kids') = true /\
    forall sel : selector,
      anyDescendant sel (Elem a kids) = true ->
      anyDescendant sel (Elem a kids') = true.
Proof.
  intros Hc Hr Hf. apply not_represented in Hr as [Hg Hq].
  destruct (wrapRange_ok r (wrapperFor (Ann.id ann) (Ann.type ann)) a kids
              (findTextInDOM_valid _ _ _ _ Hf)) as (kids' & Hw & Htxt & Hm).
  exists kids'. unfold applyOnePlain, place. rewrite Hc, Hg, Hq, Hf, Hw.
  repeat split; auto.
  - unfold represented. destruct (Hm (bindIdIs (Ann.id ann))) as [_ H].
    assert (Hb : bindIdIs (Ann.id ann)
                   (wrapperFor (Ann.id ann) (Ann.type ann)) = true)
      by apply String.eqb_refl.
    rewrite (H Hb). apply orb_true_r.
  - intros sel. apply Hm.
Qed.

(** Whatever the annotation, one step keeps the container element, its
    flattened text and every element in it, and touches nothing but the
    tree and the warnings. *)
Lemma applyOnePlain_keeps (v : state) (ann : Ann.t) (a : attrs) (kids : list node) :
  container v = Some (Elem a kids) ->
  exists kids',
    container (applyOnePlain v ann) = Some (Elem a kids') /\
    textContent (Elem a kids') = textContent (Elem a kids) /\
    (forall sel : selector,
        anyDescendant sel (Elem a kids) = true ->
        anyDescendant sel (Elem a kids') = true) /\
    highlighter (applyOnePlain v ann) = highlighter v /\
    hasSelection (applyOnePlain v ann) = hasSelection v /\
    added (applyOnePlain v ann) = added v.
Proof.
  intros Hc.
  destruct (represented (Ann.id ann) (Elem a kids)) eqn:Er.
  - rewrite (applyOnePlain_skip v ann _ Hc Er). exists kids. repeat split; auto.
  - destruct (Resolver.findTextInDOM (Elem a kids) (hasSelection v)
                (Ann.originalText ann)) as [r|] eqn:Ef.
    + destruct (applyOnePlain_found v ann a kids r Hc Er Ef)
        as (kids' & _ & -> & Htxt & _ & Hm).
      exists kids'. simpl. repeat split; auto.
    + rewrite (applyOnePlain_notfound v ann _ Hc Er Ef). exists kids. simpl.
      repeat split; auto.
Qed.

End ApplyFacts.

Section BatchFacts.

Import Dom Viewer.






(** A batch keeps the container element, its flattened text and every
    element in it. *)
Lemma fold_applyOne_keeps (anns : list Ann.t) :
  forall v a kids,
    container v = Some (Elem a kids) ->
    exists kids',
      container (fold_left applyOnePlain anns v) = Some (Elem a kids') /\
      textContent (Elem a kids') = textContent (Elem a kids) /\
      (forall sel : selector,
          anyDescendant sel (Elem a kids) = true ->
          anyDescendant sel (Elem a kids') = true) /\
      highlighter (fold_left applyOnePlain anns v) = highlighter v /\
      hasSelection (fold_left applyOnePlain anns v) = hasSelection v /\
      added (fold_left applyOnePlain anns v) = added v.
Proof.
  induction anns as [|ann anns IH]; intros v a kids Hc; simpl.
  - exists kids. repeat split; auto.
  - destruct (applyOnePlain_keeps v ann a kids Hc)
      as (kids1 & Hc1 & Ht1 & Hm1 & Hh1 & Hs1 & Ha1).
    destruct (IH _ _ _ Hc1) as (kids2 & Hc2 & Ht2 & Hm2 & Hh2 & Hs2 & Ha2).
    exists kids2. split; [exact Hc2|]. split; [congruence|].
    split; [intros sel H; apply Hm2, Hm1, H|].
    repeat split; congruence.
Qed.

End BatchFacts.

(** ** Claims on the application of shared annotations *)

Section ApplyClaims.

Import Dom Viewer.

Local Open Scope string_scope.


End ApplyClaims.

(** ** Creating annotations *)

Section CreateFacts.

Import Dom Viewer.

Lemma nodeAt_app (p q : path) :
  forall n m, nodeAt p n = Some m -> nodeAt (p ++ q) n = nodeAt q m.
Proof.
  induction p as [|i p IH]; intros n m; simpl.
  - now intros [= ->].
  - destruct n as [s|a kids]; [discriminate|].
    destruct (nth_error kids i) as [k|]; [|discriminate]. apply IH.
Qed.

Lemma matchesFrom_elem (sel : selector) (kids : list node) :
  forall i q,
    In q (matchesFrom sel i kids) ->
    exists j q' k,
      q = (i + j) :: q' /\ nth_error kids j = Some k /\ In q' (matchesIn sel k).
Proof.
  induction kids as [|k kids IH]; intros i q; [intros []|].
  rewrite matchesFrom_cons, in_app_iff. intros [H|H].
  - apply in_map_iff in H as (q' & <- & Hin).
    exists 0, q', k. rewrite Nat.add_0_r. auto.
  - destruct (IH _ _ H) as (j & q' & k' & -> & Hn & Hin).
    exists (S j), q', k'. repeat split; auto. f_equal. lia.
Qed.

Lemma matchesIn_elem (sel : selector) (n : node) :
  forall q, In q (matchesIn sel n) ->
            exists a kids, nodeAt q n = Some (Elem a kids) /\ sel a = true.
Proof.
  induction n as [s|a kids IH] using node_induction; intros q; [intros []|].
  rewrite matchesIn_Elem, in_app_iff. intros [H|H].
  - destruct (sel a) eqn:Ea; [|destruct H].
    destruct H as [<-|[]]. exists a, kids. auto.
  - destruct (matchesFrom_elem sel kids 0 q H) as (j & q' & k & -> & Hn & Hin).
    rewrite Forall_forall in IH.
    destruct (IH k (nth_error_In _ _ Hn) q' Hin) as (a' & kids' & Hq & Ha).
    exists a', kids'. simpl. rewrite Hn. auto.
Qed.

Lemma querySelector_elem (sel : selector) (n : node) (q : path) :
  querySelector sel n = Some q ->
  exists a kids, nodeAt q n = Some (Elem a kids) /\ sel a = true.
Proof.
  unfold querySelector, querySelectorAll. destruct n as [s|a kids];
    [discriminate|].
  intros H. assert (Hin : In q (matchesFrom sel 0 kids)).
  { destruct (matchesFrom sel 0 kids); [discriminate|].
    injection H as ->. now left. }
  destruct (matchesFrom_elem sel kids 0 q Hin) as (j & q' & k & -> & Hn & Hq).
  destruct (matchesIn_elem sel k q' Hq) as (a' & kids' & Hq' & Ha).
  exists a', kids'. simpl. rewrite Hn. auto.
Qed.

Lemma surroundNodeContents_ok (w : attrs) (p : path) :
  forall n a kids,
    nodeAt p n = Some (Elem a kids) ->
    exists n', surroundNodeContents p w n = Some n' /\
               textContent n' = textContent n.
Proof.
  induction p as [|i p IH]; intros n a kids; simpl.
  - intros [= ->]. eexists. split; [reflexivity|].
    rewrite !textContent_Elem, textOfList_single. apply textContent_Elem.
  - destruct n as [s|b ks]; [discriminate|].
    destruct (nth_error ks i) as [k|] eqn:Ek; [|discriminate].
    intros H. destruct (IH _ _ _ H) as (k' & -> & Htxt).
    eexists. split; [reflexivity|].
    rewrite !textContent_Elem. apply (textOfList_splice i k _ ks Ek).
    now rewrite textOfList_single.
Qed.

Lemma closestBlock_found (dom : node) (el parent : path) :
  closestBlock dom el = Some parent ->
  exists bid a kids,
    blockIdOf dom parent = Some bid /\
    nodeAt parent dom = Some (Elem a kids) /\
    dataBlockId a = Some bid.
Proof.
  unfold closestBlock. intros H. apply find_some in H as [_ H].
  unfold blockIdOf in *.
  destruct (nodeAt parent dom) as [[s|a kids]|]; try discriminate.
  destruct (dataBlockId a) as [[|c s]|] eqn:Ea; try discriminate.
  exists (String c s), a, kids. repeat split; auto.
Qed.

(** The offsets that [createAnnotationFromSource] computes, when the first
    mark of the source lies in a block whose text holds the selected
    text. *)
Lemma locate_in_block (dom : node) (source : Source) (el : path)
    (rest : list path) (parent : path) (blockEl : node) (i : nat) :
  getDoms (srcId source) dom = el :: rest ->
  closestBlock dom el = Some parent ->
  nodeAt parent dom = Some blockEl ->
  indexOf (textContent blockEl) (srcText source) = Some i ->
  exists bid so,
    locate dom source = (bid, so) /\
    blockIdOf dom parent = Some bid /\
    substring so (so + len (srcText source)) (textContent blockEl)
    = srcText source /\
    (srcText source <> EmptyString -> so = i) /\
    (srcText source = EmptyString ->
     so = if Nat.eqb (len (textContent blockEl)) 0 then 0 else 1).
Proof.
  intros Hg Hc Hn Hi.
  destruct (closestBlock_found dom el parent Hc) as (bid & a & kids & Hb & Hn' & _).
  unfold locate. rewrite Hg, Hc, Hb, Hn.
  eexists. eexists. split; [reflexivity|]. split; [reflexivity|].
  unfold splitFirst. destruct (srcText source) as [|c s] eqn:Et.
  - split; [|split; [congruence|]].
    + unfold substring. rewrite Nat.add_0_r, Nat.sub_diag. reflexivity.
    + intros _. now destruct (textContent blockEl).
  - rewrite Hi. pose proof (indexOf_occurs _ _ _ Hi) as [Hocc _].
    rewrite len_take by apply Hocc.
    split; [now apply occursAt_substring|].
    split; [reflexivity | discriminate].
Qed.

End CreateFacts.

Section CreateClaims.

Import Dom Viewer.

Local Open Scope string_scope.

(** C3, as the specification states it, fails: a selection that runs from
    the end of one block into the next has its first mark in the first
    block, whose text does not hold the selected text; [split] then returns
    the whole block text, and the offsets point past the end of the block. *)
Lemma cross_block_selection_breaks_offsets :
  ~ Stated.offsetsDelimitText Samples.twoBlocks
      (newAnnotationFromSource Samples.crossBlockSource DELETION None
         Samples.twoBlocks (Samples.viewerOn Samples.twoBlocks)).
Proof.
  intros (p & a & kids & Hn & Hb & Hs).
  vm_compute in Hb. vm_compute in Hs.
  repeat (match type of Hn with
          | nodeAt ?q _ = _ =>
              is_var q; destruct q as [|[|[|[|?]]] ?]; cbn in Hn;
              try discriminate Hn
          end);
    injection Hn as <- <-; try discriminate Hb; vm_compute in Hs;
    discriminate Hs.
Qed.

(** C3, amended: at creation, [originalText] is the substring of the
    flattened text from [startOffset] to [endOffset]
    - of the block that [blockId] names, for a free-text selection whose
      first mark lies in a block whose flattened text holds the selected
      text (a selection inside one block); for a selected text that is not
      empty, [startOffset] is then the index of the first occurrence of the
      text in the block ([i], the result of [indexOf]); for the empty text
      it is 1, or 0 in a block without text;
    - of the [code] element, for a whole-code-block commit, and so of the
      block's element when, as [CodeBlock] renders it, the block has no text
      outside the [code] element. *)
Theorem originalText_is_block_substring (v : state) (type : AnnotationType)
    (text : option string) :
  (forall dom source el rest parent blockEl i,
      getDoms (srcId source) dom = el :: rest ->
      closestBlock dom el = Some parent ->
      nodeAt parent dom = Some blockEl ->
      indexOf (textContent blockEl) (srcText source) = Some i ->
      let ann := newAnnotationFromSource source type text dom v in
      added (createAnnotationFromSource source type text dom v)
      = (added v ++ [ann])%list /\
      blockIdOf dom parent = Some (Ann.blockId ann) /\
      substring (Ann.startOffset ann) (Ann.endOffset ann) (textContent blockEl)
      = Ann.originalText ann /\
      (srcText source <> "" ->
       Ann.startOffset ann = i /\
       occursAt (textContent blockEl) (srcText source) i /\
       forall j, j < i -> ~ occursAt (textContent blockEl) (srcText source) j) /\
      (srcText source = "" ->
       Ann.startOffset ann
       = if Nat.eqb (len (textContent blockEl)) 0 then 0 else 1)) /\
  (forall hov dom element q codeEl,
      hoveredCodeBlock v = Some hov ->
      highlighter v = true ->
      container v = Some dom ->
      nodeAt (hovElement hov) dom = Some element ->
      querySelector (tagIs "code") element = Some q ->
      nodeAt q element = Some codeEl ->
      let ann := newCodeBlockAnnotation (hovBlock hov) (textContent codeEl)
                   type text v in
      added (handleCodeBlockAnnotate type text v) = (added v ++ [ann])%list /\
      Ann.blockId ann = blkId (hovBlock hov) /\
      substring (Ann.startOffset ann) (Ann.endOffset ann) (textContent codeEl)
      = Ann.originalText ann /\
      (textContent element = textContent codeEl ->
       substring (Ann.startOffset ann) (Ann.endOffset ann) (textContent element)
       = Ann.originalText ann)).
Proof.
  split.
  - intros dom source el rest parent blockEl i Hg Hc Hn Hi ann.
    destruct (locate_in_block dom source el rest parent blockEl i Hg Hc Hn Hi)
      as (bid & so & Hl & Hb & Hs & Hfirst & Hempty).
    subst ann. unfold newAnnotationFromSource. rewrite Hl. simpl.
    split; [|split; [exact Hb | split; [exact Hs | split; [|exact Hempty]]]].
    + unfold createAnnotationFromSource, newAnnotationFromSource. rewrite Hl.
      reflexivity.
    + intros Hne. split; [now apply Hfirst|]. now apply indexOf_occurs.
  - intros hov dom element q codeEl Hh Hl Hc Hel Hq Hcode ann.
    destruct (querySelector_elem _ _ _ Hq) as (a & kids & Hq' & _).
    assert (Hp : nodeAt (hovElement hov ++ q)%list dom = Some (Elem a kids))
      by (rewrite (nodeAt_app _ q _ _ Hel); exact Hq').
    destruct (surroundNodeContents_ok
                (wrapperFor ("codeblock-" +++ numberToString (now v)) type)
                _ _ _ _ Hp) as (dom' & Hw & _).
    assert (Hsub : substring 0 (len (textContent codeEl)) (textContent codeEl)
                   = textContent codeEl).
    { unfold substring. rewrite Nat.sub_0_r. now apply take_all. }
    split; [|split; [reflexivity | split; [exact Hsub|]]].
    + unfold handleCodeBlockAnnotate. rewrite Hh, Hl, Hc, Hel, Hq, Hcode, Hw.
      reflexivity.
    + intros ->. exact Hsub.
Qed.

Lemma originalText_is_block_substring_witness :
  (let v := Samples.viewerOn Samples.twoSelections in
   let ann := newAnnotationFromSource Samples.sourceB DELETION None
                Samples.twoSelections v in
   added (createAnnotationFromSource Samples.sourceB DELETION None
            Samples.twoSelections v) = [ann] /\
   blockIdOf Samples.twoSelections [0] = Some (Ann.blockId ann) /\
   substring (Ann.startOffset ann) (Ann.endOffset ann) "The quick brown fox"
   = Ann.originalText ann /\
   Ann.startOffset ann = 16) /\
  (let v := Samples.hoveringCode in
   let ann := newCodeBlockAnnotation Samples.shellBlock "npm test"
                COMMENT (Some "use the CI script") v in
   added (handleCodeBlockAnnotate COMMENT (Some "use the CI script") v) = [ann] /\
   Ann.blockId ann = "block-2" /\
   substring (Ann.startOffset ann) (Ann.endOffset ann) "npm test"
   = Ann.originalText ann).
Proof.
  split.
  - intros v ann.
    destruct (proj1 (originalText_is_block_substring v DELETION None)
                Samples.twoSelections Samples.sourceB [0; 3] [] [0]
                (Elem (Samples.block "p" "para-1")
                   [Text "The "; Elem (Samples.hlMark "sel-a") [Text "quick"];
                    Text " brown "; Elem (Samples.hlMark "sel-b") [Text "fox"]])
                16 eq_refl eq_refl eq_refl eq_refl)
      as (Ha & Hb & Hs & Hfirst & _).
    split; [exact Ha|]. split; [exact Hb|]. split; [exact Hs|].
    apply Hfirst. discriminate.
  - intros v ann.
    destruct (proj2 (originalText_is_block_substring v COMMENT
                       (Some "use the CI script"))
                {| hovBlock := Samples.shellBlock; hovElement := [1] |}
                Samples.withCode
                (Samples.codeBlock "block-2" "npm test") [1; 0]
                (Elem {| tagName := "code";
                         classList := ["hljs"; "font-mono"];
                         dataBindId := None; dataBlockId := None;
                         dataHighlightId := None |} [Text "npm test"])
                eq_refl eq_refl eq_refl eq_refl eq_refl eq_refl)
      as (Ha & Hb & Hs & _).
    repeat split; assumption.
Defined.

End CreateClaims.

(** ** The highlighter's marks *)

Section HighlighterFacts.

Import Dom Viewer.

Lemma textOfList_flat_map (f : node -> list node) (kids : list node) :
  Forall (fun k => textOfList (f k) = textContent k) kids ->
  textOfList (flat_map f kids) = textOfList kids.
Proof.
  induction 1 as [|k kids Hk _ IH]; simpl; [reflexivity|].
  now rewrite textOfList_app, textOfList_cons, Hk, IH.
Qed.

Lemma unwrapMatching_text (sel : selector) (n : node) :
  textOfList (unwrapMatching sel n) = textContent n.
Proof.
  induction n as [s|a kids IH] using node_induction.
  - apply textOfList_single.
  - cbn [unwrapMatching]. rewrite textContent_Elem.
    destruct (sel a).
    + now apply textOfList_flat_map.
    + rewrite textOfList_single, textContent_Elem.
      now apply textOfList_flat_map.
Qed.

Lemma highlighterRemove_text (id : string) (dom : node) :
  textContent (highlighterRemove id dom) = textContent dom.
Proof.
  destruct dom as [s|a kids]; [reflexivity|].
  unfold highlighterRemove. rewrite !textContent_Elem.
  apply textOfList_flat_map. apply Forall_forall. intros k _.
  apply unwrapMatching_text.
Qed.

Lemma existsb_flat_map (f : node -> bool) (g : node -> list node)
    (kids : list node) :
  existsb f (flat_map g kids) = existsb (fun k => existsb f (g k)) kids.
Proof.
  induction kids as [|k kids IH]; simpl; [reflexivity|].
  now rewrite existsb_app, IH.
Qed.

Lemma existsb_ext_in (f g : node -> bool) (kids : list node) :
  Forall (fun k => f k = g k) kids -> existsb f kids = existsb g kids.
Proof.
  induction 1 as [|k kids Hk _ IH]; simpl; [reflexivity|]. now rewrite Hk, IH.
Qed.

(** After the removal no mark of the selection is left. *)
Lemma unwrapMatching_gone (sel : selector) (n : node) :
  existsb (anyMatch sel) (unwrapMatching sel n) = false.
Proof.
  induction n as [s|a kids IH] using node_induction; [reflexivity|].
  cbn [unwrapMatching].
  assert (Hk : existsb (anyMatch sel) (flat_map (unwrapMatching sel) kids)
               = false).
  { rewrite existsb_flat_map.
    rewrite (existsb_ext_in _ (fun _ => false) kids IH).
    clear. induction kids; simpl; auto. }
  destruct (sel a) eqn:Ea; [exact Hk|].
  cbn [existsb anyMatch]. now rewrite Ea, Hk.
Qed.

(** The removal leaves the elements of every other kind in place. *)
Lemma unwrapMatching_others (sel sel' : selector) (n : node) :
  (forall a, sel' a = true -> sel a = false) ->
  existsb (anyMatch sel') (unwrapMatching sel n) = anyMatch sel' n.
Proof.
  intros Hd. induction n as [s|a kids IH] using node_induction;
    [reflexivity|].
  cbn [unwrapMatching anyMatch].
  assert (Hk : existsb (anyMatch sel') (flat_map (unwrapMatching sel) kids)
               = existsb (anyMatch sel') kids).
  { rewrite existsb_flat_map. now apply existsb_ext_in. }
  destruct (sel a) eqn:Ea.
  - rewrite Hk. destruct (sel' a) eqn:Ea'; [|reflexivity].
    rewrite (Hd a Ea') in Ea. discriminate.
  - cbn [existsb anyMatch]. now rewrite Hk, orb_false_r.
Qed.

Lemma highlighterRemove_gone (id : string) (dom : node) :
  getDoms id (highlighterRemove id dom) = [].
Proof.
  apply querySelectorAll_none. destruct dom as [s|a kids]; [reflexivity|].
  cbn [highlighterRemove anyDescendant]. rewrite existsb_flat_map.
  rewrite (existsb_ext_in _ (fun _ => false) kids).
  - clear. induction kids; simpl; auto.
  - apply Forall_forall. intros k _. apply unwrapMatching_gone.
Qed.

Lemma highlighterRemove_others (id : string) (sel' : selector) (dom : node) :
  (forall a, sel' a = true -> highlightIdIs id a = false) ->
  anyDescendant sel' (highlighterRemove id dom) = anyDescendant sel' dom.
Proof.
  intros Hd. destruct dom as [s|a kids]; [reflexivity|].
  cbn [highlighterRemove anyDescendant]. rewrite existsb_flat_map.
  apply existsb_ext_in. apply Forall_forall. intros k _.
  now apply unwrapMatching_others.
Qed.

Lemma highlightIdIs_other (id id' : string) (a : attrs) :
  id' <> id -> highlightIdIs id' a = true -> highlightIdIs id a = false.
Proof.
  unfold highlightIdIs, opt_string_eqb. intros Hne.
  destruct (dataHighlightId a) as [t|]; [|discriminate].
  intros H. apply String.eqb_eq in H. subst t.
  now apply String.eqb_neq.
Qed.

Lemma addClassWhere_text (sel : selector) (cls : string) (n : node) :
  textContent (addClassWhere sel cls n) = textContent n.
Proof.
  induction n as [s|a kids IH] using node_induction; [reflexivity|].
  cbn [addClassWhere]. rewrite !textContent_Elem.
  induction IH as [|k kids Hk _ IHk]; [reflexivity|].
  simpl. now rewrite !textOfList_cons, Hk, IHk.
Qed.

Lemma addClassWhere_any (sel sel' : selector) (cls : string) (n : node) :
  classBlind sel' ->
  anyMatch sel' (addClassWhere sel cls n) = anyMatch sel' n.
Proof.
  intros Hb. induction n as [s|a kids IH] using node_induction;
    [reflexivity|].
  cbn [addClassWhere anyMatch]. f_equal.
  - destruct (sel a); [|reflexivity]. destruct a. apply Hb.
  - induction IH as [|k kids Hk _ IHk]; [reflexivity|].
    simpl. now rewrite Hk, IHk.
Qed.

Lemma addClassWhere_descendants (sel sel' : selector) (cls : string) (n : node) :
  classBlind sel' ->
  anyDescendant sel' (addClassWhere sel cls n) = anyDescendant sel' n.
Proof.
  intros Hb. destruct n as [s|a kids]; [reflexivity|].
  cbn [addClassWhere anyDescendant].
  induction kids as [|k kids IH]; [reflexivity|].
  simpl. now rewrite (addClassWhere_any sel sel' cls k Hb), IH.
Qed.

Lemma highlightIdIs_classBlind (id : string) : classBlind (highlightIdIs id).
Proof. intros tag cl cl' b k h. reflexivity. Qed.

End HighlighterFacts.

(** ** Claims on the selection lifecycle *)

Section LifecycleClaims.

Import Dom Viewer.

Local Open Scope string_scope.

Lemma getIdentity_stored (e : Identity.env) :
  Identity.stored (snd (Identity.getIdentity e))
  = Some (fst (Identity.getIdentity e)).
Proof.
  unfold Identity.getIdentity.
  destruct (Identity.stored e) as [[|c s]|] eqn:E; simpl; auto.
Qed.

(** C7: in redline mode the [CREATE] handler commits the selection at once:
    nothing is left pending, the toolbar state is not set, the visible text
    is unchanged, and the store receives a deletion for the source, the
    very record that the explicit route (selection mode, then "delete" in
    the toolbar) hands to the store for the same source. *)
Theorem redline_commits_at_once (v : state) (dom : node) (source : Source) :
  mode v = redline ->
  highlighter v = true ->
  container v = Some dom ->
  getDoms (srcId source) dom <> [] ->
  let v' := onCreate [source] v in
  pendingSource v' = None /\
  toolbarState v' = toolbarState v /\
  flatText v' = flatText v /\
  exists ann,
    added v' = (added v ++ [ann])%list /\
    Ann.id ann = srcId source /\
    Ann.type ann = DELETION /\
    Ann.text ann = None /\
    Ann.originalText ann = srcText source /\
    added (handleAnnotate DELETION None
             (onCreate [source] (withMode selection v)))
    = (added v ++ [ann])%list.
Proof.
  intros Hm Hh Hc Hd v'. subst v'. unfold onCreate. simpl.
  rewrite Hc, Hm.
  destruct (getDoms (srcId source) dom) as [|el l] eqn:Eg; [congruence|].
  set (dom1 := match pendingSource v with
               | Some pending => highlighterRemove (srcId pending) dom
               | None => dom
               end).
  assert (Ht : textContent dom1 = textContent dom).
  { unfold dom1. destruct (pendingSource v);
      [apply highlighterRemove_text | reflexivity]. }
  unfold createAnnotationFromSource, newAnnotationFromSource,
    handleAnnotate. simpl. rewrite Hh.
  destruct (locate dom1 source) as [bid so] eqn:El. simpl.
  repeat split.
  - unfold flatText. simpl. rewrite Hc. simpl. f_equal.
    unfold highlighterAddClass. now rewrite addClassWhere_text.
  - eexists. repeat split.
    unfold newAnnotationFromSource. now rewrite El.
Qed.

Lemma redline_commits_at_once_witness :
  let v := Samples.pendingA redline in
  let v' := onCreate [Samples.sourceB] v in
  pendingSource v' = None /\
  toolbarState v' = toolbarState v /\
  flatText v' = flatText v /\
  exists ann,
    added v' = (added v ++ [ann])%list /\
    Ann.id ann = "sel-b" /\
    Ann.type ann = DELETION /\
    Ann.text ann = None /\
    Ann.originalText ann = "fox" /\
    added (handleAnnotate DELETION None
             (onCreate [Samples.sourceB] (withMode selection v)))
    = (added v ++ [ann])%list.
Proof.
  intros v.
  apply (redline_commits_at_once v Samples.twoSelections Samples.sourceB);
    try reflexivity.
  discriminate.
Defined.

End LifecycleClaims.

Section PendingClaim.

Import Dom Viewer.

Local Open Scope string_scope.

(** C6, as the specification states it, fails in redline mode: with [sel-a]
    pending (the mode was switched while the toolbar was open), completing
    [sel-b] removes the marks of [sel-a] and commits [sel-b] at once, so no
    selection is pending afterwards. *)
Lemma redline_leaves_nothing_pending :
  ~ Stated.leavesPending Samples.sourceB (Samples.pendingA redline).
Proof. unfold Stated.leavesPending. vm_compute. discriminate. Qed.

(** C6, amended: at most one selection is pending at any time. When the
    selection [B] is completed while [A] is pending, the marks of [A] are
    removed from the document, the marks of every other selection are as
    before (those of [B] are there), the visible text is unchanged, and the
    single pending slot holds [B] in selection mode, with the toolbar on
    the first mark of [B]; in redline mode [B] is committed at once and
    nothing is pending. *)
Theorem new_selection_replaces_pending (v : state) (dom : node) (A B : Source) :
  container v = Some dom ->
  pendingSource v = Some A ->
  getDoms (srcId B) dom <> [] ->
  srcId B <> srcId A ->
  let v' := onCreate [B] v in
  exists dom',
    container v' = Some dom' /\
    getDoms (srcId A) dom' = [] /\
    getDoms (srcId B) dom' <> [] /\
    (forall id, id <> srcId A ->
                anyDescendant (highlightIdIs id) dom'
                = anyDescendant (highlightIdIs id) dom) /\
    textContent dom' = textContent dom /\
    match mode v with
    | selection =>
        pendingSource v' = Some B /\
        toolbarState v'
        = Some {| tbElement := hd_error (getDoms (srcId B) dom');
                  tbSource := B |} /\
        added v' = added v
    | redline =>
        pendingSource v' = None /\
        exists ann, added v' = (added v ++ [ann])%list /\
                    Ann.id ann = srcId B /\ Ann.type ann = DELETION
    end.
Proof.
  intros Hc Hp Hb Hne v'. subst v'. unfold onCreate. simpl.
  rewrite Hc, Hp.
  destruct (getDoms (srcId B) dom) as [|el l] eqn:Eg; [congruence|].
  set (dom1 := highlighterRemove (srcId A) dom).
  assert (HA : getDoms (srcId A) dom1 = [])
    by apply highlighterRemove_gone.
  assert (Hothers : forall id, id <> srcId A ->
                      anyDescendant (highlightIdIs id) dom1
                      = anyDescendant (highlightIdIs id) dom).
  { intros id Hid. apply highlighterRemove_others.
    intros a. now apply highlightIdIs_other. }
  assert (HB : getDoms (srcId B) dom1 <> []).
  { intros H. apply querySelectorAll_none in H.
    rewrite (Hothers _ Hne) in H. apply querySelectorAll_none in H.
    unfold getDoms in Eg. congruence. }
  destruct (mode v).
  - exists dom1. simpl. repeat split; auto.
    apply highlighterRemove_text.
  - exists (highlighterAddClass (typeClass DELETION) (srcId B) dom1).
    unfold createAnnotationFromSource, highlighterAddClass. simpl.
    split; [reflexivity|]. split; [|split; [|split; [|split; [|split]]]].
    + apply querySelectorAll_none.
      rewrite addClassWhere_descendants by apply highlightIdIs_classBlind.
      now apply querySelectorAll_none.
    + intros H. apply HB. apply querySelectorAll_none.
      apply querySelectorAll_none in H.
      now rewrite addClassWhere_descendants in H
        by apply highlightIdIs_classBlind.
    + intros id Hid.
      rewrite addClassWhere_descendants by apply highlightIdIs_classBlind.
      now apply Hothers.
    + rewrite addClassWhere_text. apply highlighterRemove_text.
    + reflexivity.
    + eexists. split; [reflexivity|].
      unfold newAnnotationFromSource.
      destruct (locate dom1 B); simpl; auto.
Qed.

Lemma new_selection_replaces_pending_witness :
  let v := Samples.pendingA selection in
  let v' := onCreate [Samples.sourceB] v in
  exists dom',
    container v' = Some dom' /\
    getDoms "sel-a" dom' = [] /\
    getDoms "sel-b" dom' <> [] /\
    (forall id, id <> "sel-a" ->
                anyDescendant (highlightIdIs id) dom'
                = anyDescendant (highlightIdIs id) Samples.twoSelections) /\
    textContent dom' = textContent Samples.twoSelections /\
    pendingSource v' = Some Samples.sourceB /\
    toolbarState v'
    = Some {| tbElement := hd_error (getDoms "sel-b" dom');
              tbSource := Samples.sourceB |} /\
    added v' = added v.
Proof.
  intros v.
  apply (new_selection_replaces_pending v Samples.twoSelections
           Samples.sourceA Samples.sourceB);
    try reflexivity; discriminate.
Defined.

End PendingClaim.

(** ** Removing highlights *)

Section RemovalFacts.

Import Dom Viewer.

Lemma unwrapAt_text (p : path) :
  forall n, textContent (unwrapAt p n) = textContent n.
Proof.
  induction p as [|i p IH]; intros [s|a kids]; try reflexivity.
  cbn [unwrapAt].
  destruct (nth_error kids i) as [k|] eqn:Ek; [|reflexivity].
  destruct p as [|j p].
  - destruct k as [s|b inner]; [reflexivity|].
    rewrite !textContent_Elem. apply (textOfList_splice i _ _ kids Ek).
    symmetry. apply textContent_Elem.
  - rewrite !textContent_Elem. apply (textOfList_splice i _ _ kids Ek).
    rewrite textOfList_single. apply IH.
Qed.



Lemma removePlain_text (id : string) (v : state) :
  flatText (removePlain id v) = flatText v.
Proof.
  unfold removePlain, flatText.
  destruct (container v) as [dom|] eqn:Hc; [|now rewrite Hc].
  assert (H : textContent (if highlighter v then highlighterRemove id dom
                           else dom) = textContent dom).
  { destruct (highlighter v); [apply highlighterRemove_text | reflexivity]. }
  destruct (querySelector _ _); simpl; f_equal; [|exact H].
  rewrite unwrapAt_text. exact H.
Qed.


Lemma applyOnePlain_text (v : state) (ann : Ann.t) (a : attrs) (kids : list node) :
  container v = Some (Elem a kids) ->
  flatText (applyOnePlain v ann) = flatText v.
Proof.
  intros Hc. destruct (applyOnePlain_keeps v ann a kids Hc)
    as (kids' & Hc' & Ht & _).
  unfold flatText. rewrite Hc, Hc'. simpl. now rewrite Ht.
Qed.


End RemovalFacts.


(** ** The share link *)

Section CodecFacts.

Import ShareCodec.

Lemma hex_pair (c : ascii) :
  Ascii.eqb (hexDigit (nat_of_ascii c / 16)) dot = false /\
  unhexPair (hexDigit (nat_of_ascii c / 16)) (hexDigit (nat_of_ascii c mod 16))
  = Some c.
Proof.
  destruct c as [[] [] [] [] [] [] [] []]; vm_compute; split; reflexivity.
Qed.

Lemma readField_write (f rest : string) :
  readField (writeField f +++ rest) = Some (f, rest).
Proof.
  unfold writeField. rewrite append_assoc.
  induction f as [|c f IH]; [reflexivity|].
  destruct (hex_pair c) as [Hd Hp].
  cbn [hex String.append readField] in *. now rewrite Hd, Hp, IH.
Qed.

Lemma readNat_write (n : nat) (rest : string) :
  readNat (writeNat n +++ rest) = Some (n, rest).
Proof.
  unfold readNat, writeNat. rewrite readField_write, NilEmpty.usu.
  now rewrite DecimalNat.Unsigned.of_to.
Qed.

Lemma readN_write (n : N) (rest : string) :
  readN (writeN n +++ rest) = Some (n, rest).
Proof.
  unfold readN, writeN. rewrite readField_write, NilEmpty.usu.
  now rewrite DecimalN.Unsigned.of_to.
Qed.

Lemma readOption_write (o : option string) (rest : string) :
  readOption (writeOption o +++ rest) = Some (o, rest).
Proof.
  unfold readOption, writeOption. destruct o; now rewrite readField_write.
Qed.

Lemma readType_write (t : AnnotationType) (rest : string) :
  readType (writeType t +++ rest) = Some (t, rest).
Proof.
  unfold readType, writeType. rewrite readField_write. now destruct t.
Qed.

Lemma readShareable_write (s : Shareable) (rest : string) :
  readShareable (writeShareable s +++ rest) = Some (s, rest).
Proof.
  unfold readShareable, writeShareable. rewrite !append_assoc.
  rewrite !readField_write, !readNat_write, readType_write, readOption_write,
    readField_write, readN_write, readOption_write.
  now destruct s.
Qed.

Lemma readAll_write (l : list Shareable) (rest : string) :
  readAll (length l) (writeAll l +++ rest) = Some (l, rest).
Proof.
  induction l as [|s l IH]; simpl; [reflexivity|].
  now rewrite append_assoc, readShareable_write, IH.
Qed.

Lemma decode_encode (d : string) (A : list Ann.t) :
  decode (encode d A) = Some {| p := d; a := toShareable A |}.
Proof.
  unfold decode, encode. cbn [p a].
  rewrite readField_write, String.eqb_refl, readField_write, readNat_write.
  rewrite <- (append_nil_r (writeAll (toShareable A))).
  now rewrite readAll_write.
Qed.

Lemma semantic_restored (A : list Ann.t) :
  map semantic (fromShareable (toShareable A)) = map semantic A.
Proof.
  unfold fromShareable, toShareable. rewrite !map_map.
  apply map_ext. intros ann. reflexivity.
Qed.

Lemma all_but_hints_restored (A : list Ann.t) :
  fromShareable (toShareable A) = map withoutHints A.
Proof.
  unfold fromShareable, toShareable. rewrite map_map.
  apply map_ext. intros ann. reflexivity.
Qed.

Lemma hints_dropped (l : list Shareable) :
  Forall (fun ann => Ann.startMeta ann = None /\ Ann.endMeta ann = None)
    (fromShareable l).
Proof.
  unfold fromShareable. apply Forall_forall. intros ann H.
  apply in_map_iff in H as (s & <- & _). auto.
Qed.

Lemma indexOf_first (pre rest : string) (c : ascii) :
  indexOf pre (String c EmptyString) = None ->
  indexOf (pre +++ String c rest) (String c EmptyString) = Some (len pre).
Proof.
  intros Hnone. induction pre as [|x pre IH].
  - simpl. now rewrite Ascii.eqb_refl.
  - simpl in Hnone. simpl.
    destruct (Ascii.eqb c x) eqn:Ex; simpl in *; [discriminate|].
    destruct (indexOf pre (String c EmptyString)) eqn:Ei; [discriminate|].
    rewrite IH by reflexivity. reflexivity.
Qed.

End CodecFacts.

Section ShareClaim.

Import ShareCodec Sharing.

Local Open Scope string_scope.

Lemma openLink_hash (base d : string) (A : list Ann.t) (s : state) :
  indexOf base "#" = None ->
  hash (openLink (generateShareUrl base d A) s) = "#" +++ encode d A.
Proof.
  intros H. unfold openLink, generateShareUrl, withHash.
  cbn [hash String.append].
  rewrite (indexOf_first base (encode d A) "#" H).
  rewrite drop_append_r by lia. now rewrite Nat.sub_diag.
Qed.

(** C1: the round trip through a link. Decoding the transport string of a
    document [d] and annotations [A] gives [d] and the shareable form of
    [A]; loading the link ([loadFromHash], through the [hashchange]
    listener) sets the document to [d] and the annotations to the list [A]
    itself, in the same order, but for the anchor hints
    [startMeta]/[endMeta], which are absent: every other field, the
    semantic ones (id, blockId, startOffset, endOffset, type, text,
    originalText, author) and the creation time, is as in [A]. The same
    list is held for application to the page. *)
Theorem share_round_trip (base d : string) (A : list Ann.t) (s : state) :
  indexOf base "#" = None ->
  let url := generateShareUrl base d A in
  let s' := handleHashChange (openLink url s) in
  decode (encode d A) = Some {| p := d; a := toShareable A |} /\
  loadFromHash (openLink url s) = (true, s') /\
  markdown s' = d /\
  annotations s' = map withoutHints A /\
  map semantic (annotations s') = map semantic A /\
  map Ann.createdA (annotations s') = map Ann.createdA A /\
  pendingSharedAnnotations s' = Some (annotations s') /\
  isSharedSession s' = true /\
  Forall (fun ann => Ann.startMeta ann = None /\ Ann.endMeta ann = None)
    (annotations s').
Proof.
  intros Hb url s'. subst url s'.
  pose proof (openLink_hash base d A s Hb) as Hh.
  pose proof (decode_encode d A) as Hd.
  assert (Hl : loadFromHash (openLink (generateShareUrl base d A) s)
               = (true,
                  {| markdown := d;
                     annotations := fromShareable (toShareable A);
                     isSharedSession := true;
                     pendingSharedAnnotations :=
                       Some (fromShareable (toShareable A));
                     hash := "";
                     sharedLoads := S (sharedLoads s) |})).
  { unfold loadFromHash. rewrite Hh. cbn [parseShareHash String.append].
    now rewrite Hd. }
  assert (Hg : handleHashChange (openLink (generateShareUrl base d A) s)
               = snd (loadFromHash (openLink (generateShareUrl base d A) s))).
  { unfold handleHashChange. rewrite Hh. reflexivity. }
  rewrite Hg, Hl. cbn [snd markdown annotations pendingSharedAnnotations
                        isSharedSession].
  repeat split; auto.
  - apply all_but_hints_restored.
  - apply semantic_restored.
  - rewrite all_but_hints_restored, map_map. reflexivity.
  - apply hints_dropped.
Qed.

Lemma share_round_trip_witness :
  let d := "The quick brown fox" in
  let A := [Samples.shared "ann-1" "quick brown" DELETION] in
  let s := {| markdown := ""; annotations := []; isSharedSession := false;
              pendingSharedAnnotations := None; hash := "";
              sharedLoads := 0 |} in
  let url := generateShareUrl "https://share.example/" d A in
  let s' := handleHashChange (openLink url s) in
  decode (encode d A) = Some {| p := d; a := toShareable A |} /\
  loadFromHash (openLink url s) = (true, s') /\
  markdown s' = d /\
  annotations s' = map withoutHints A /\
  map semantic (annotations s') = map semantic A /\
  map Ann.createdA (annotations s') = map Ann.createdA A /\
  pendingSharedAnnotations s' = Some (annotations s') /\
  isSharedSession s' = true /\
  Forall (fun ann => Ann.startMeta ann = None /\ Ann.endMeta ann = None)
    (annotations s').
Proof.
  intros d A s.
  apply (share_round_trip "https://share.example/" d A s). reflexivity.
Defined.

End ShareClaim.

(** ** Removal takes the marks away *)

Section UnwrapCount.

Import Dom Viewer.

Variable sel : selector.

Lemma length_matchesFrom (kids : list node) :
  forall i j, length (matchesFrom sel i kids) = length (matchesFrom sel j kids).
Proof.
  induction kids as [|k kids IH]; intros i j; [reflexivity|].
  rewrite !matchesFrom_cons, !length_app, !length_map. f_equal. apply IH.
Qed.

Lemma count_cons (k : node) (kids : list node) :
  length (matchesFrom sel 0 (k :: kids))
  = length (matchesIn sel k) + length (matchesFrom sel 0 kids).
Proof.
  rewrite matchesFrom_cons, length_app, length_map. f_equal.
  apply length_matchesFrom.
Qed.

Lemma count_app (A B : list node) :
  length (matchesFrom sel 0 (A ++ B))
  = length (matchesFrom sel 0 A) + length (matchesFrom sel 0 B).
Proof.
  induction A as [|k A IH]; [reflexivity|].
  change ((k :: A) ++ B) with (k :: (A ++ B)).
  rewrite !count_cons, IH. lia.
Qed.

Lemma count_split (i : nat) (k : node) (kids : list node) :
  nth_error kids i = Some k ->
  length (matchesFrom sel 0 kids)
  = length (matchesFrom sel 0 (firstn i kids)) + length (matchesIn sel k)
    + length (matchesFrom sel 0 (skipn (S i) kids)).
Proof.
  intros H. rewrite (kids_split i k kids H) at 1.
  rewrite count_app, count_cons. lia.
Qed.

Lemma count_splice (i : nat) (ks kids : list node) :
  length (matchesFrom sel 0 (spliceKid i ks kids))
  = length (matchesFrom sel 0 (firstn i kids)) + length (matchesFrom sel 0 ks)
    + length (matchesFrom sel 0 (skipn (S i) kids)).
Proof. unfold spliceKid. rewrite !count_app. lia. Qed.

Lemma count_Elem (a : attrs) (kids : list node) :
  length (matchesIn sel (Elem a kids))
  = (if sel a then 1 else 0) + length (matchesFrom sel 0 kids).
Proof. rewrite matchesIn_Elem, length_app. now destruct (sel a). Qed.

Lemma first_match (kids : list node) :
  forall i q,
    hd_error (matchesFrom sel i kids) = Some q ->
    exists j q' k,
      q = (i + j) :: q' /\ nth_error kids j = Some k /\
      hd_error (matchesIn sel k) = Some q'.
Proof.
  induction kids as [|k kids IH]; intros i q; [discriminate|].
  rewrite matchesFrom_cons.
  destruct (matchesIn sel k) as [|m ms] eqn:Em; simpl.
  - intros H. destruct (IH _ _ H) as (j & q' & k' & -> & Hn & Hq).
    exists (S j), q', k'. repeat split; auto. f_equal. lia.
  - intros [= <-]. exists 0, m, k. rewrite Nat.add_0_r, Em. auto.
Qed.

Lemma first_match_here (k : node) :
  hd_error (matchesIn sel k) = Some [] ->
  exists b inner, k = Elem b inner /\ sel b = true.
Proof.
  destruct k as [s|b inner]; [discriminate|].
  rewrite matchesIn_Elem. destruct (sel b) eqn:Eb; [eauto|].
  simpl. intros H. apply first_match in H as (j & q' & k' & Hq & _).
  discriminate.
Qed.

Lemma first_match_below (k : node) (j : nat) (q : path) :
  hd_error (matchesIn sel k) = Some (j :: q) ->
  exists b kk, k = Elem b kk /\ sel b = false /\
               hd_error (matchesFrom sel 0 kk) = Some (j :: q).
Proof.
  destruct k as [s|b kk]; [discriminate|].
  rewrite matchesIn_Elem. destruct (sel b) eqn:Eb; [discriminate|].
  simpl. eauto.
Qed.

(** Unwrapping the first match takes exactly that one match away. *)
Lemma unwrapAt_count (p : path) :
  forall a kids,
    hd_error (matchesFrom sel 0 kids) = Some p ->
    exists kids',
      unwrapAt p (Elem a kids) = Elem a kids' /\
      S (length (matchesFrom sel 0 kids')) = length (matchesFrom sel 0 kids).
Proof.
  induction p as [|i p IH]; intros a kids H;
    destruct (first_match kids 0 _ H) as (j & q' & k & Hq & Hn & Hk);
    [discriminate|].
  injection Hq as -> <-. cbn [unwrapAt]. rewrite Hn.
  rewrite (count_split j k kids Hn).
  destruct p as [|j' p'].
  - destruct (first_match_here k Hk) as (b & inner & -> & Hb).
    eexists. split; [reflexivity|].
    rewrite count_splice, count_Elem, Hb. lia.
  - destruct (first_match_below k j' p' Hk) as (b & kk & -> & Hb & Hkk).
    destruct (IH b kk Hkk) as (kk' & -> & Hc).
    eexists. split; [reflexivity|].
    rewrite count_splice, count_cons, !count_Elem, Hb. simpl. lia.
Qed.

Lemma unwrapFirst_clears (n : nat) :
  forall a kids,
    length (matchesFrom sel 0 kids) = n ->
    exists kids',
      unwrapFirst n sel (Elem a kids) = Elem a kids' /\
      matchesFrom sel 0 kids' = [].
Proof.
  induction n as [|n IH]; intros a kids Hl.
  - exists kids. split; [reflexivity|]. now apply length_zero_iff_nil.
  - cbn [unwrapFirst]. unfold querySelector, querySelectorAll.
    destruct (matchesFrom sel 0 kids) as [|p l] eqn:Em; [discriminate|].
    cbn [hd_error].
    destruct (unwrapAt_count p a kids) as (kids1 & -> & Hc);
      [now rewrite Em|].
    apply IH. rewrite Em in Hc. simpl in *. lia.
Qed.

Lemma unwrapEach_clears (a : attrs) (kids : list node) :
  exists kids',
    unwrapEach sel (Elem a kids) = Elem a kids' /\
    anyDescendant sel (Elem a kids') = false.
Proof.
  unfold unwrapEach.
  destruct (unwrapFirst_clears (length (querySelectorAll sel (Elem a kids)))
              a kids eq_refl) as (kids' & Hu & Hn).
  exists kids'. split; [assumption|]. now apply querySelectorAll_none.
Qed.

(** Unwrapping makes no new element. *)
Lemma unwrapAt_no_new (sel' : selector) (p : path) :
  forall a kids,
    exists kids',
      unwrapAt p (Elem a kids) = Elem a kids' /\
      (existsb (anyMatch sel') kids' = true ->
       existsb (anyMatch sel') kids = true).
Proof.
  induction p as [|i p IH]; intros a kids; [exists kids; auto|].
  cbn [unwrapAt].
  destruct (nth_error kids i) as [k|] eqn:Ek; [|exists kids; auto].
  destruct p as [|j p'].
  - destruct k as [s|b inner]; [exists kids; auto|].
    eexists. split; [reflexivity|].
    rewrite (anyOf_splice sel' i _ _ kids Ek), (anyOf_split sel' i _ kids Ek).
    cbn [anyMatch].
    destruct (existsb (anyMatch sel') (firstn i kids)),
      (existsb (anyMatch sel') inner),
      (existsb (anyMatch sel') (skipn (S i) kids)), (sel' b);
      simpl; auto.
  - destruct k as [s|b kk].
    + eexists. split; [reflexivity|].
      rewrite (anyOf_splice sel' i _ _ kids Ek), (anyOf_split sel' i _ kids Ek).
      auto.
    + destruct (IH b kk) as (kk' & Hu & Hnew).
      eexists. split; [reflexivity|].
      rewrite (anyOf_splice sel' i _ _ kids Ek), (anyOf_split sel' i _ kids Ek).
      rewrite Hu. cbn [existsb anyMatch]. rewrite !orb_false_r.
      destruct (existsb (anyMatch sel') (firstn i kids)); [auto|].
      destruct (existsb (anyMatch sel') (skipn (S i) kids));
        [now rewrite !orb_true_r|].
      destruct (sel' b); [auto|]. simpl. now rewrite !orb_false_r.
Qed.

Lemma unwrapFirst_no_new (sel' : selector) (n : nat) :
  forall a kids,
    exists kids',
      unwrapFirst n sel (Elem a kids) = Elem a kids' /\
      (existsb (anyMatch sel') kids' = true ->
       existsb (anyMatch sel') kids = true).
Proof.
  induction n as [|n IH]; intros a kids; [exists kids; auto|].
  cbn [unwrapFirst].
  destruct (querySelector sel (Elem a kids)) as [p|]; [|exists kids; auto].
  destruct (unwrapAt_no_new sel' p a kids) as (kids1 & -> & H1).
  destruct (IH a kids1) as (kids2 & -> & H2).
  exists kids2. auto.
Qed.

End UnwrapCount.

Section FreshMarks.

Import Dom Viewer.

Variable sel : selector.

Local Abbreviation anyOf := (existsb (anyMatch sel)).

Lemma anyOf_false_split (i : nat) (k : node) (kids : list node) :
  nth_error kids i = Some k ->
  anyOf kids = false ->
  anyOf (firstn i kids) = false /\ anyMatch sel k = false
  /\ anyOf (skipn (S i) kids) = false.
Proof.
  intros Hn H. rewrite (anyOf_split sel i k kids Hn) in H.
  apply orb_false_iff in H as [H H3]. apply orb_false_iff in H as [H1 H2].
  auto.
Qed.

Lemma extractTail_no_new (o : nat) (p : path) :
  forall n stay clone,
    extractTail p o n = Some (stay, clone) ->
    anyMatch sel n = false ->
    anyMatch sel stay = false /\ anyMatch sel clone = false.
Proof.
  induction p as [|i p IH]; intros [s|a kids] stay clone;
    cbn [extractTail]; try discriminate.
  - intros [= <- <-] _. auto.
  - destruct (nth_error kids i) as [k|] eqn:Ek; [|discriminate].
    destruct (extractTail p o k) as [[st cl]|] eqn:Et; [|discriminate].
    remember (skipn (S i) kids) as B. intros [= <- <-]. cbn [anyMatch].
    intros H. apply orb_false_iff in H as [Ha Hk].
    destruct (anyOf_false_split i k kids Ek Hk) as (H1 & H2 & H3).
    destruct (IH _ _ _ Et H2) as [Hst Hcl]. subst B.
    rewrite Ha, existsb_app. cbn [existsb]. now rewrite H1, Hst, Hcl, H3.
Qed.

Lemma extractHead_no_new (o : nat) (p : path) :
  forall n clone stay,
    extractHead p o n = Some (clone, stay) ->
    anyMatch sel n = false ->
    anyMatch sel clone = false /\ anyMatch sel stay = false.
Proof.
  induction p as [|i p IH]; intros [s|a kids] clone stay;
    cbn [extractHead]; try discriminate.
  - intros [= <- <-] _. auto.
  - destruct (nth_error kids i) as [k|] eqn:Ek; [|discriminate].
    destruct (extractHead p o k) as [[cl st]|] eqn:Et; [|discriminate].
    remember (skipn (S i) kids) as B. intros [= <- <-]. cbn [anyMatch].
    intros H. apply orb_false_iff in H as [Ha Hk].
    destruct (anyOf_false_split i k kids Ek Hk) as (H1 & H2 & H3).
    destruct (IH _ _ _ Et H2) as [Hcl Hst]. subst B.
    rewrite Ha, existsb_app. cbn [existsb]. now rewrite H1, Hst, Hcl, H3.
Qed.

(** An extraction makes no element of a kind that the tree did not hold. *)
Lemma extractBetween_no_new (so eo : nat) (sp : path) :
  forall ep a kids kids1 frag b,
    extractBetween sp ep so eo (Elem a kids) = Some (Elem a kids1, frag, b) ->
    anyOf kids = false ->
    anyOf kids1 = false /\ anyOf frag = false.
Proof.
  induction sp as [|i sp IH]; intros [|j ep] a kids kids1 frag b;
    cbn [extractBetween]; try discriminate.
  destruct (i =? j) eqn:Eij.
  - destruct (nth_error kids i) as [k|] eqn:Ek; [|discriminate].
    destruct (extractBetween sp ep so eo k) as [[[k' fr] [bp bo]]|] eqn:Ex;
      [|discriminate].
    intros [= <- <- _] H.
    destruct (anyOf_false_split i k kids Ek H) as (H1 & H2 & H3).
    rewrite (anyOf_splice sel i k [k'] kids Ek), H1, H3. cbn [existsb].
    destruct k as [s|ak kk].
    + destruct sp, ep; cbn [extractBetween] in Ex; try discriminate.
      destruct (so <=? eo); [|discriminate]. injection Ex as <- <- _ _.
      auto.
    + destruct (extractBetween_shape _ _ _ _ _ _ _ _ _ Ex) as [kk1 ->].
      cbn [anyMatch] in H2. apply orb_false_iff in H2 as [Ha Hkk].
      destruct (IH _ _ _ _ _ _ Ex Hkk) as [Hk1 Hfr].
      cbn [anyMatch]. now rewrite Ha, Hk1, Hfr.
  - destruct (i <? j) eqn:Elt; [|discriminate]. apply Nat.ltb_lt in Elt.
    destruct (nth_error kids i) as [ki|] eqn:Eki; [|discriminate].
    destruct (nth_error kids j) as [kj|] eqn:Ekj; [|discriminate].
    destruct (extractTail sp so ki) as [[stI clI]|] eqn:Et; [|discriminate].
    destruct (extractHead ep eo kj) as [[clJ stJ]|] eqn:Eh; [|discriminate].
    assert (Hk : anyOf kids
                 = anyOf (firstn i kids) || anyMatch sel ki
                   || anyOf (containedKids i j kids) || anyMatch sel kj
                   || anyOf (skipn (S j) kids)).
    { rewrite (kids_split2 i j ki kj kids Elt Eki Ekj) at 1.
      rewrite existsb_app. cbn [existsb]. rewrite existsb_app.
      cbn [existsb]. now rewrite !orb_assoc. }
    remember (firstn i kids) as A. remember (skipn (S j) kids) as B.
    intros [= <- <- _] H. rewrite Hk in H.
    apply orb_false_iff in H as [H H5]. apply orb_false_iff in H as [H H4].
    apply orb_false_iff in H as [H H3]. apply orb_false_iff in H as [H1 H2].
    destruct (extractTail_no_new _ _ _ _ _ Et H2) as [Hst Hcl].
    destruct (extractHead_no_new _ _ _ _ _ Eh H4) as [Hcl' Hst'].
    rewrite !existsb_app. cbn [existsb]. rewrite existsb_app. cbn [existsb].
    now rewrite H1, Hst, Hst', H5, Hcl, H3, Hcl'.
Qed.

Lemma insertNode_count (w : node) (bo : nat) (bp : path) :
  forall a kids n2,
    insertNode bp bo w (Elem a kids) = Some n2 ->
    exists kids2, n2 = Elem a kids2 /\
                  length (matchesFrom sel 0 kids2) = length (matchesFrom sel 0 kids) + length (matchesIn sel w).
Proof.
  induction bp as [|i bp IH]; intros a kids n2.
  - unfold insertNode. destruct (bo <=? length kids); [|discriminate].
    intros [= <-]. eexists. split; [reflexivity|].
    assert (E : length (matchesFrom sel 0 kids)
                = length (matchesFrom sel 0 (firstn bo kids))
                  + length (matchesFrom sel 0 (skipn bo kids)))
      by (now rewrite <- count_app, firstn_skipn).
    rewrite count_app, count_cons, E. lia.
  - destruct (nth_error kids i) as [k|] eqn:Ek.
    + destruct k as [s|ak kk].
      * destruct bp.
        -- rewrite (insertNode_split a kids i bo w s Ek). intros [= <-].
           eexists. split; [reflexivity|].
           rewrite count_splice, (count_split sel i _ kids Ek), !count_cons.
           simpl. lia.
        -- unfold insertNode. rewrite Ek. discriminate.
      * rewrite (insertNode_down a ak kids kk i bo bp w Ek).
        destruct (insertNode bp bo w (Elem ak kk)) as [k'|] eqn:Ei;
          [|discriminate].
        destruct (IH _ _ _ Ei) as (kk2 & -> & Hkk).
        intros [= <-]. eexists. split; [reflexivity|].
        rewrite count_splice, (count_split sel i _ kids Ek), count_cons,
          !count_Elem, Hkk.
        simpl. lia.
    + unfold insertNode. rewrite Ek. discriminate.
Qed.

Lemma countOf_none (kids : list node) :
  anyOf kids = false -> length (matchesFrom sel 0 kids) = 0.
Proof.
  intros H. apply (matchesFrom_none sel kids 0) in H. now rewrite H.
Qed.

(** On a tree without any element of the kind, wrapping a range leaves the
    wrapper as the only candidate. *)
Lemma wrapRange_fresh (r : Range) (w : attrs) (a : attrs) (kids : list node) :
  validRange (Elem a kids) r ->
  anyDescendant sel (Elem a kids) = false ->
  exists kids',
    wrapRange r w (Elem a kids) = Normal (Elem a kids') /\
    length (matchesFrom sel 0 kids') = if sel w then 1 else 0.
Proof.
  intros Hv Hnone. cbn [anyDescendant] in Hnone.
  destruct (extract_then_insert r w a kids Hv)
    as (n1 & frag & bp & bo & kids' & Hx & Hins & _).
  exists kids'. split.
  - unfold wrapRange, surroundContents. rewrite Hx.
    cbn [appendChild app]. rewrite Hins.
    now destruct (partiallyContainsElement r).
  - unfold extractContents in Hx. destruct (collapsed r).
    + injection Hx as <- <- _ _.
      destruct (insertNode_count _ _ _ _ _ _ Hins) as (k2 & [= <-] & ->).
      rewrite (countOf_none kids Hnone), count_Elem. simpl.
      now destruct (sel w).
    + destruct (extractBetween_shape _ _ _ _ _ _ _ _ _ Hx) as [kids1 ->].
      destruct (extractBetween_no_new _ _ _ _ _ _ _ _ _ Hx Hnone)
        as [Hk1 Hfr].
      destruct (insertNode_count _ _ _ _ _ _ Hins) as (k2 & [= <-] & ->).
      rewrite (countOf_none kids1 Hk1), count_Elem, (countOf_none frag Hfr).
      now destruct (sel w).
Qed.

End FreshMarks.

Section RemovalMarks.

Import Dom Viewer.

Local Open Scope string_scope.

Lemma unwrapMatching_id (sel : selector) (n : node) :
  anyMatch sel n = false -> unwrapMatching sel n = [n].
Proof.
  induction n as [s|a kids IH] using node_induction; [reflexivity|].
  cbn [anyMatch unwrapMatching]. intros H.
  apply orb_false_iff in H as [-> Hk]. do 2 f_equal.
  induction IH as [|k kids Hk' _ IHk]; [reflexivity|].
  cbn [existsb] in Hk. apply orb_false_iff in Hk as [H1 H2].
  simpl. now rewrite (Hk' H1), (IHk H2).
Qed.

Lemma highlighterRemove_id (id : string) (dom : node) :
  anyDescendant (highlightIdIs id) dom = false ->
  highlighterRemove id dom = dom.
Proof.
  destruct dom as [s|a kids]; [reflexivity|].
  cbn [anyDescendant highlighterRemove]. intros H. f_equal.
  induction kids as [|k kids IH]; [reflexivity|].
  cbn [existsb] in H. apply orb_false_iff in H as [H1 H2].
  simpl. now rewrite (unwrapMatching_id _ k H1), (IH H2).
Qed.


(** After [clearAllHighlights] no element carries [data-bind-id] or the
    class of the highlights. *)
Lemma clearAllHighlights_clears (v : state) (a : attrs) (kids : list node) :
  container v = Some (Elem a kids) ->
  exists kids',
    container (clearAllHighlights v) = Some (Elem a kids') /\
    anyDescendant hasBindId (Elem a kids') = false /\
    anyDescendant (hasClass "annotation-highlight") (Elem a kids') = false.
Proof.
  intros Hc. unfold clearAllHighlights. rewrite Hc.
  destruct (unwrapEach_clears hasBindId a kids) as (kids1 & -> & H1).
  destruct (unwrapEach_clears (hasClass "annotation-highlight") a kids1)
    as (kids2 & Hu2 & H2).
  destruct (unwrapFirst_no_new (hasClass "annotation-highlight") hasBindId
              (length (querySelectorAll (hasClass "annotation-highlight")
                         (Elem a kids1))) a kids1) as (kids2' & Hu2' & Hnew).
  unfold unwrapEach in Hu2. rewrite Hu2 in Hu2'. injection Hu2' as <-.
  exists kids2. unfold unwrapEach at 1. rewrite Hu2.
  repeat split; auto.
  cbn [anyDescendant] in *.
  destruct (existsb (anyMatch hasBindId) kids2); [|reflexivity].
  rewrite Hnew in H1; [discriminate | reflexivity].
Qed.

End RemovalMarks.

Section RemovalClaim.

Import Dom Viewer.

Local Open Scope string_scope.


End RemovalClaim.

(** ** The selector of an id *)

Section PlainIds.

Import Dom Viewer.

Local Open Scope string_scope.

Lemma plainChar_read (c : ascii) :
  plainChar c = true ->
  isLineBreak c = false /\ isQuote c = false /\ isNull c = false
  /\ isBackslash c = false.
Proof.
  unfold plainChar. intros H. apply negb_true_iff in H.
  apply orb_false_iff in H as [H Hb]. apply orb_false_iff in H as [H Hn].
  apply orb_false_iff in H as [Hl Hq]. auto.
Qed.

(** The string token of a plain id has the id as its value. *)
Lemma readString_plain (id : string) :
  plainId id = true -> readString id = StringValue id.
Proof.
  induction id as [|c id IH]; [reflexivity|]. cbn [plainId readString].
  intros H. apply andb_true_iff in H as [Hc Hid].
  destruct (plainChar_read c Hc) as (-> & -> & -> & ->).
  cbn [orb]. now rewrite (IH Hid).
Qed.

Lemma plainId_append (a b : string) :
  plainId (a +++ b) = plainId a && plainId b.
Proof.
  induction a as [|c a IH]; [reflexivity|].
  cbn [String.append plainId]. now rewrite IH, andb_assoc.
Qed.

Lemma plainId_digits (d : Decimal.uint) :
  plainId (NilEmpty.string_of_uint d) = true.
Proof. induction d; cbn [NilEmpty.string_of_uint plainId]; auto. Qed.

(** The id that the viewer gives to the annotation of a code block is
    plain. *)
Lemma plainId_codeblock (n : N) :
  plainId ("codeblock-" +++ numberToString n) = true.
Proof.
  rewrite plainId_append. unfold numberToString.
  now rewrite plainId_digits.
Qed.

Lemma queryBindId_plain (v : state) (id : string) (dom : node) :
  plainId id = true ->
  queryBindId v id dom = Normal (querySelector (bindIdIs id) dom).
Proof. intros H. unfold queryBindId. now rewrite (readString_plain id H). Qed.

Lemma applyOne_plain (v : state) (ann : Ann.t) :
  plainId (Ann.id ann) = true ->
  applyOne v ann = Normal (applyOnePlain v ann).
Proof.
  intros H. unfold applyOne, applyOnePlain.
  destruct (container v) as [dom|]; [|reflexivity].
  destruct (getDoms (Ann.id ann) dom); [|reflexivity].
  rewrite (queryBindId_plain v _ dom H).
  now destruct (querySelector (bindIdIs (Ann.id ann)) dom).
Qed.

Lemma forEach_plain (anns : list Ann.t) :
  Forall (fun x => plainId (Ann.id x) = true) anns ->
  forall v, forEach anns v = fold_left applyOnePlain anns v.
Proof.
  induction 1 as [|x anns Hx _ IH]; intros v; [reflexivity|].
  cbn [forEach fold_left]. rewrite (applyOne_plain v x Hx). apply IH.
Qed.

(** On plain ids the two methods are the plain ones. *)
Lemma applySharedAnnotations_plain (anns : list Ann.t) (v : state) :
  Forall (fun x => plainId (Ann.id x) = true) anns ->
  applySharedAnnotations anns v = applyPlain anns v.
Proof.
  intros H. unfold applySharedAnnotations, applyPlain.
  destruct (highlighter v); [|reflexivity].
  destruct (container v); [|reflexivity]. now apply forEach_plain.
Qed.

Lemma removeHighlight_plain (id : string) (v : state) :
  plainId id = true -> removeHighlight id v = removePlain id v.
Proof.
  intros H. unfold removeHighlight, removePlain.
  destruct (container v) as [dom|]; [|reflexivity]. cbn zeta.
  rewrite (queryBindId_plain v id _ H).
  now destruct (querySelector (bindIdIs id) _).
Qed.

End PlainIds.

(** ** The methods of the handle, whatever the selector *)

Section AnyIds.

Import Dom Viewer.

Local Open Scope string_scope.

(** From [findTextInDOM] on, the callback keeps the container element, its
    flattened text and every element in it; it logs nothing, or the warning
    that the text was not found. *)
Lemma place_keeps (v : state) (ann : Ann.t) (a : attrs) (kids : list node) :
  container v = Some (Elem a kids) ->
  exists kids',
    container (place v ann (Elem a kids)) = Some (Elem a kids') /\
    textContent (Elem a kids') = textContent (Elem a kids) /\
    (forall sel : selector,
        anyDescendant sel (Elem a kids) = true ->
        anyDescendant sel (Elem a kids') = true) /\
    (warnings (place v ann (Elem a kids)) = warnings v \/
     (warnings (place v ann (Elem a kids))
      = (warnings v ++ [notFoundWarning ann])%list /\
      Resolver.findTextInDOM (Elem a kids) (hasSelection v)
        (Ann.originalText ann) = None)).
Proof.
  intros Hc. unfold place.
  destruct (Resolver.findTextInDOM (Elem a kids) (hasSelection v)
              (Ann.originalText ann)) as [r|] eqn:Ef.
  - destruct (wrapRange_ok r (wrapperFor (Ann.id ann) (Ann.type ann)) a kids
                (findTextInDOM_valid _ _ _ _ Ef)) as (kids' & -> & Htxt & Hm).
    exists kids'. cbn. repeat split; auto. intros sel. apply Hm.
  - exists kids. cbn. repeat split; auto.
Qed.

(** What the callback leaves alone. *)
Lemma place_frame (v : state) (ann : Ann.t) (dom : node) :
  highlighter (place v ann dom) = highlighter v /\
  hasSelection (place v ann dom) = hasSelection v /\
  added (place v ann dom) = added v /\
  pendingSource (place v ann dom) = pendingSource v /\
  toolbarState (place v ann dom) = toolbarState v /\
  uncaught (place v ann dom) = uncaught v /\
  unread (place v ann dom) = unread v.
Proof.
  unfold place. destruct (Resolver.findTextInDOM _ _ _); [|cbn; auto 10].
  destruct (wrapRange _ _ _); cbn; auto 10.
Qed.

(** The three ways in which the callback ends. *)
Lemma applyOne_cases (v : state) (ann : Ann.t) (dom : node) :
  container v = Some dom ->
  (exists e, applyOne v ann = Throw e) \/
  applyOne v ann = Normal v \/
  applyOne v ann = Normal (place v ann dom).
Proof.
  intros Hc. unfold applyOne. rewrite Hc.
  destruct (getDoms (Ann.id ann) dom); [|auto].
  destruct (queryBindId v (Ann.id ann) dom) as [[p|]|e]; eauto.
Qed.

(** A batch, whatever its ids: the container element, its flattened text
    and every element in it are kept, also when an exception ends the
    loop. *)
Lemma forEach_keeps (anns : list Ann.t) :
  forall v a kids,
    container v = Some (Elem a kids) ->
    exists kids',
      container (forEach anns v) = Some (Elem a kids') /\
      textContent (Elem a kids') = textContent (Elem a kids) /\
      (forall sel : selector,
          anyDescendant sel (Elem a kids) = true ->
          anyDescendant sel (Elem a kids') = true) /\
      highlighter (forEach anns v) = highlighter v /\
      hasSelection (forEach anns v) = hasSelection v /\
      added (forEach anns v) = added v /\
      pendingSource (forEach anns v) = pendingSource v /\
      toolbarState (forEach anns v) = toolbarState v.
Proof.
  induction anns as [|x anns IH]; intros v a kids Hc; cbn [forEach].
  - exists kids. repeat split; auto.
  - destruct (applyOne_cases v x _ Hc) as [[e ->]|[->| ->]].
    + exists kids. cbn. repeat split; auto.
    + apply IH, Hc.
    + destruct (place_keeps v x a kids Hc) as (kids1 & Hc1 & Ht1 & Hm1 & _).
      destruct (place_frame v x (Elem a kids))
        as (F1 & F2 & F3 & F4 & F5 & _).
      destruct (IH _ _ _ Hc1)
        as (kids2 & Hc2 & Ht2 & Hm2 & G1 & G2 & G3 & G4 & G5).
      exists kids2. split; [exact Hc2|]. split; [congruence|].
      split; [intros sel H; apply Hm2, Hm1, H|].
      repeat split; congruence.
Qed.

(** What a batch logs, whatever its ids. *)
Lemma forEach_warns (anns : list Ann.t) :
  forall v a kids,
    container v = Some (Elem a kids) ->
    exists ws,
      warnings (forEach anns v) = (warnings v ++ ws)%list /\
      length ws <= length anns /\
      Forall (fun w => exists ann, In ann anns /\ w = notFoundWarning ann) ws.
Proof.
  induction anns as [|x anns IH]; intros v a kids Hc; cbn [forEach].
  - exists []. rewrite app_nil_r. repeat split; auto.
  - assert (Hup : forall ws,
               Forall (fun w => exists ann, In ann anns
                                            /\ w = notFoundWarning ann) ws ->
               Forall (fun w => exists ann, In ann (x :: anns)
                                            /\ w = notFoundWarning ann) ws).
    { intros ws. apply Forall_impl. intros w (ann & Hin & ->).
      exists ann. split; [now right | reflexivity]. }
    destruct (applyOne_cases v x _ Hc) as [[e ->]|[->| ->]].
    + exists []. cbn. rewrite app_nil_r. repeat split; auto. lia.
    + destruct (IH _ _ _ Hc) as (ws & H1 & H2 & H3).
      exists ws. repeat split; auto. cbn [length]. lia.
    + destruct (place_keeps v x a kids Hc) as (kids1 & Hc1 & _ & _ & Hw).
      destruct (IH _ _ _ Hc1) as (ws & H1 & H2 & H3).
      destruct Hw as [E|[E _]].
      * exists ws. rewrite H1, E. repeat split; auto. cbn [length]. lia.
      * exists (notFoundWarning x :: ws). rewrite H1, E, <- app_assoc.
        repeat split; auto; [cbn [length]; lia|].
        constructor; [|auto]. exists x. split; [now left | reflexivity].
Qed.


End AnyIds.

(** ** What a range extracts is what it reads *)

Section FragmentFacts.

Import Dom.

Lemma texts_textNodesFrom (l : list node) :
  forall j, texts (textNodesFrom j l) = textOfList l.
Proof.
  induction l as [|k l IH]; intros j; [reflexivity|].
  now rewrite textNodesFrom_cons, texts_app, texts_relabel, texts_textNodes,
    IH, textOfList_cons.
Qed.

Lemma textNodesFrom_app (A B : list node) :
  forall j,
    textNodesFrom j (A ++ B)
    = textNodesFrom j A ++ textNodesFrom (j + length A) B.
Proof.
  induction A as [|k A IH]; intros j.
  - cbn [app length]. now rewrite Nat.add_0_r.
  - cbn [app length]. rewrite !textNodesFrom_cons, IH, <- app_assoc.
    now rewrite Nat.add_succ_r.
Qed.

Lemma textNodesFrom_heads (l : list node) :
  forall j p,
    In p (map fst (textNodesFrom j l)) ->
    exists h q, p = h :: q /\ j <= h < j + length l.
Proof.
  induction l as [|k l IH]; intros j p; [intros []|].
  rewrite textNodesFrom_cons, map_app, in_app_iff, map_map. cbn [fst length].
  intros [H|H].
  - apply in_map_iff in H as (ps & <- & _). exists j, (fst ps).
    split; [reflexivity | lia].
  - destruct (IH _ _ H) as (h & q & -> & Hh). exists h, q.
    split; [reflexivity | lia].
Qed.

(** The text nodes of an element, around its child [i]. *)
Lemma textNodes_split (i : nat) (k : node) (a : attrs) (kids : list node) :
  nth_error kids i = Some k ->
  textNodes (Elem a kids)
  = textNodesFrom 0 (firstn i kids)
    ++ map (fun ps => (i :: fst ps, snd ps)) (textNodes k)
    ++ textNodesFrom (S i) (skipn (S i) kids).
Proof.
  intros H. rewrite textNodes_Elem. rewrite (kids_split i k kids H) at 1.
  rewrite textNodesFrom_app, textNodesFrom_cons.
  now rewrite (firstn_length_nth i k kids H).
Qed.

Lemma before_child (i : nat) (kids : list node) (p q : path) :
  In p (map fst (textNodesFrom 0 (firstn i kids))) -> p <> i :: q.
Proof.
  intros H. destruct (textNodesFrom_heads _ _ _ H) as (h & q' & -> & Hh).
  rewrite length_firstn in Hh. intros [= -> _]. lia.
Qed.

Lemma inside_child (i j : nat) (L : list (path * string)) (p q : path) :
  i <> j ->
  In p (map fst (map (fun ps => (i :: fst ps, snd ps)) L)) -> p <> j :: q.
Proof.
  intros Hij H. rewrite map_map in H. apply in_map_iff in H as (ps & <- & _).
  cbn. intros [= ? _]. contradiction.
Qed.

Lemma rangeTextTo_relabel (i : nat) (ep : path) (eo : nat)
    (L : list (path * string)) :
  rangeTextTo (i :: ep) eo (map (fun ps => (i :: fst ps, snd ps)) L)
  = rangeTextTo ep eo L.
Proof.
  induction L as [|[p t] L IH]; [reflexivity|].
  cbn [map fst snd rangeTextTo path_eqb]. rewrite Nat.eqb_refl. cbn [andb].
  now rewrite IH.
Qed.

Lemma rangeTextFrom_relabel (i : nat) (sp : path) (so : nat)
    (L : list (path * string)) :
  rangeTextFrom (i :: sp) so (map (fun ps => (i :: fst ps, snd ps)) L)
  = rangeTextFrom sp so L.
Proof.
  induction L as [|[p t] L IH]; [reflexivity|].
  cbn [map fst snd rangeTextFrom path_eqb]. rewrite Nat.eqb_refl. cbn [andb].
  now rewrite IH, texts_relabel.
Qed.

Lemma rangeTextIn_relabel (i : nat) (sp ep : path) (so eo : nat)
    (L : list (path * string)) :
  rangeTextIn {| startContainer := i :: sp; startOffset := so;
                 endContainer := i :: ep; endOffset := eo |}
    (map (fun ps => (i :: fst ps, snd ps)) L)
  = rangeTextIn {| startContainer := sp; startOffset := so;
                   endContainer := ep; endOffset := eo |} L.
Proof.
  induction L as [|[p t] L IH]; [reflexivity|].
  cbn [map fst snd rangeTextIn path_eqb startContainer endContainer
       startOffset endOffset] in *.
  rewrite Nat.eqb_refl. cbn [andb].
  now rewrite IH, rangeTextTo_relabel.
Qed.

Lemma rangeTextTo_skip (A B : list (path * string)) (ep : path) (eo : nat) :
  (forall q, In q (map fst A) -> q <> ep) ->
  rangeTextTo ep eo (A ++ B)
  = option_map (String.append (texts A)) (rangeTextTo ep eo B).
Proof.
  induction A as [|[p t] A IH]; intros H.
  - cbn. now destruct (rangeTextTo ep eo B).
  - cbn [app rangeTextTo]. rewrite path_eqb_neq by (apply H; now left).
    rewrite IH by (intros q Hq; apply H; now right).
    destruct (rangeTextTo ep eo B); [|reflexivity].
    cbn [option_map]. now rewrite texts_cons, append_assoc.
Qed.

Lemma rangeTextFrom_skip (A B : list (path * string)) (sp : path) (so : nat) :
  (forall q, In q (map fst A) -> q <> sp) ->
  rangeTextFrom sp so (A ++ B) = rangeTextFrom sp so B.
Proof.
  induction A as [|[p t] A IH]; intros H; [reflexivity|].
  cbn [app rangeTextFrom]. rewrite path_eqb_neq by (apply H; now left).
  apply IH. intros q Hq. apply H. now right.
Qed.

Lemma rangeTextIn_skip (A B : list (path * string)) (r : Range) :
  (forall q, In q (map fst A) -> q <> startContainer r) ->
  rangeTextIn r (A ++ B) = rangeTextIn r B.
Proof.
  induction A as [|[p t] A IH]; intros H; [reflexivity|].
  cbn [app rangeTextIn]. rewrite path_eqb_neq by (apply H; now left).
  apply IH. intros q Hq. apply H. now right.
Qed.

Lemma rangeTextTo_front (A B : list (path * string)) (ep : path) (eo : nat) :
  forall x, rangeTextTo ep eo A = Some x -> rangeTextTo ep eo (A ++ B) = Some x.
Proof.
  induction A as [|[p t] A IH]; intros x; [discriminate|].
  cbn [app rangeTextTo]. destruct (path_eqb p ep); [auto|].
  destruct (rangeTextTo ep eo A) as [y|]; [|discriminate].
  intros [= <-]. now rewrite (IH y eq_refl).
Qed.

Lemma rangeTextFrom_front (A B : list (path * string)) (sp : path) (so : nat) :
  forall x,
    rangeTextFrom sp so A = Some x ->
    rangeTextFrom sp so (A ++ B) = Some (x +++ texts B).
Proof.
  induction A as [|[p t] A IH]; intros x; [discriminate|].
  cbn [app rangeTextFrom]. destruct (path_eqb p sp); [|apply IH].
  intros [= <-]. now rewrite texts_app, append_assoc.
Qed.

Lemma rangeTextIn_front (A B : list (path * string)) (r : Range) :
  forall x, rangeTextIn r A = Some x -> rangeTextIn r (A ++ B) = Some x.
Proof.
  induction A as [|[p t] A IH]; intros x; [discriminate|].
  cbn [app rangeTextIn]. destruct (path_eqb p (startContainer r)); [|apply IH].
  destruct (path_eqb p (endContainer r)); [auto|].
  destruct (rangeTextTo (endContainer r) (endOffset r) A) as [y|] eqn:E;
    [|discriminate].
  intros [= <-]. now rewrite (rangeTextTo_front A B _ _ y E).
Qed.

(** A range that starts in the walk [A] and ends after it. *)
Lemma rangeTextIn_across (A B : list (path * string)) (r : Range) :
  (forall q, In q (map fst A) -> q <> endContainer r) ->
  forall x,
    rangeTextFrom (startContainer r) (startOffset r) A = Some x ->
    rangeTextIn r (A ++ B)
    = option_map (String.append x)
        (rangeTextTo (endContainer r) (endOffset r) B).
Proof.
  induction A as [|[p t] A IH]; intros H x; [discriminate|].
  cbn [app rangeTextIn rangeTextFrom].
  destruct (path_eqb p (startContainer r)).
  - intros [= <-]. rewrite path_eqb_neq by (apply H; now left).
    rewrite rangeTextTo_skip by (intros q Hq; apply H; now right).
    destruct (rangeTextTo (endContainer r) (endOffset r) B); [|reflexivity].
    cbn. now rewrite append_assoc.
  - apply IH. intros q Hq. apply H. now right.
Qed.

Lemma extractTail_reads (o : nat) (p : path) :
  forall n stay clone,
    extractTail p o n = Some (stay, clone) ->
    rangeTextFrom p o (textNodes n) = Some (textContent clone).
Proof.
  induction p as [|i p IH]; intros [s|a kids] stay clone;
    cbn [extractTail]; try discriminate.
  - intros [= _ <-]. cbn. now rewrite append_nil_r.
  - destruct (nth_error kids i) as [k|] eqn:Ek; [|discriminate].
    destruct (extractTail p o k) as [[st cl]|] eqn:Et; [|discriminate].
    intros [= _ <-]. rewrite (textNodes_split i k a kids Ek).
    rewrite rangeTextFrom_skip by (intros q; apply before_child).
    rewrite (rangeTextFrom_front _ _ _ _ (textContent cl))
      by (rewrite rangeTextFrom_relabel; exact (IH _ _ _ Et)).
    now rewrite texts_textNodesFrom, textContent_Elem, textOfList_cons.
Qed.

Lemma extractHead_reads (o : nat) (p : path) :
  forall n clone stay,
    extractHead p o n = Some (clone, stay) ->
    rangeTextTo p o (textNodes n) = Some (textContent clone).
Proof.
  induction p as [|i p IH]; intros [s|a kids] clone stay;
    cbn [extractHead]; try discriminate.
  - intros [= <- _]. reflexivity.
  - destruct (nth_error kids i) as [k|] eqn:Ek; [|discriminate].
    destruct (extractHead p o k) as [[cl st]|] eqn:Et; [|discriminate].
    intros [= <- _]. rewrite (textNodes_split i k a kids Ek).
    rewrite rangeTextTo_skip by (intros q; apply before_child).
    rewrite (rangeTextTo_front _ _ _ _ (textContent cl))
      by (rewrite rangeTextTo_relabel; exact (IH _ _ _ Et)).
    cbn [option_map].
    now rewrite texts_textNodesFrom, textContent_Elem, textOfList_app,
      textOfList_single.
Qed.

Lemma length_containedKids (i j : nat) (kj : node) (kids : list node) :
  i < j -> nth_error kids j = Some kj ->
  length (containedKids i j kids) = j - S i.
Proof.
  intros Hij Hj. unfold containedKids.
  assert (Hl : j < length kids) by (apply nth_error_Some; congruence).
  rewrite length_firstn, length_skipn. lia.
Qed.

(** The text nodes of an element, around its children [i < j]. *)
Lemma textNodes_split2 (i j : nat) (ki kj : node) (a : attrs)
    (kids : list node) :
  i < j -> nth_error kids i = Some ki -> nth_error kids j = Some kj ->
  textNodes (Elem a kids)
  = textNodesFrom 0 (firstn i kids)
    ++ map (fun ps => (i :: fst ps, snd ps)) (textNodes ki)
    ++ textNodesFrom (S i) (containedKids i j kids)
    ++ map (fun ps => (j :: fst ps, snd ps)) (textNodes kj)
    ++ textNodesFrom (S j) (skipn (S j) kids).
Proof.
  intros Hij Hi Hj. rewrite textNodes_Elem.
  rewrite (kids_split2 i j ki kj kids Hij Hi Hj) at 1.
  rewrite textNodesFrom_app, textNodesFrom_cons, textNodesFrom_app,
    textNodesFrom_cons.
  rewrite (firstn_length_nth i ki kids Hi),
    (length_containedKids i j kj kids Hij Hj).
  cbn [Nat.add]. replace (S (i + (j - S i))) with j by lia. reflexivity.
Qed.

Lemma between_children (i j : nat) (kids : list node) (p q : path) :
  In p (map fst (textNodesFrom (S i) (containedKids i j kids))) ->
  p <> j :: q.
Proof.
  intros H. destruct (textNodesFrom_heads _ _ _ H) as (h & q' & -> & Hh).
  unfold containedKids in Hh. rewrite length_firstn in Hh.
  intros [= -> _]. lia.
Qed.

(** The fragment of an extraction holds the text that the range reads. *)
Lemma extractBetween_reads (so eo : nat) (sp : path) :
  forall ep n n1 frag b,
    extractBetween sp ep so eo n = Some (n1, frag, b) ->
    rangeTextIn {| startContainer := sp; startOffset := so;
                   endContainer := ep; endOffset := eo |} (textNodes n)
    = Some (textOfList frag).
Proof.
  induction sp as [|i sp IH]; intros [|j ep] [s|a kids] n1 frag b;
    cbn [extractBetween]; try discriminate.
  - destruct (so <=? eo); [|discriminate]. intros [= _ <- _].
    cbn [textNodes rangeTextIn path_eqb startContainer endContainer
         startOffset endOffset].
    now rewrite textOfList_single.
  - destruct (i =? j) eqn:Eij.
    + apply Nat.eqb_eq in Eij. subst j.
      destruct (nth_error kids i) as [k|] eqn:Ek; [|discriminate].
      destruct (extractBetween sp ep so eo k) as [[[k' fr] [bp bo]]|] eqn:Ex;
        [|discriminate].
      intros [= _ <- _]. rewrite (textNodes_split i k a kids Ek).
      rewrite rangeTextIn_skip by (intros q; apply before_child).
      apply rangeTextIn_front. rewrite rangeTextIn_relabel.
      exact (IH _ _ _ _ _ Ex).
    + destruct (i <? j) eqn:Elt; [|discriminate]. apply Nat.ltb_lt in Elt.
      destruct (nth_error kids i) as [ki|] eqn:Eki; [|discriminate].
      destruct (nth_error kids j) as [kj|] eqn:Ekj; [|discriminate].
      destruct (extractTail sp so ki) as [[stI clI]|] eqn:Et; [|discriminate].
      destruct (extractHead ep eo kj) as [[clJ stJ]|] eqn:Eh; [|discriminate].
      intros [= _ <- _].
      rewrite (textNodes_split2 i j ki kj a kids Elt Eki Ekj).
      rewrite rangeTextIn_skip by (intros q; apply before_child).
      assert (Hav : forall q,
                 In q (map fst (map (fun ps => (i :: fst ps, snd ps))
                                  (textNodes ki))) ->
                 q <> j :: ep).
      { intros q Hq. apply (inside_child i j (textNodes ki) q ep);
          [lia | exact Hq]. }
      rewrite (rangeTextIn_across _ _
                 {| startContainer := i :: sp; startOffset := so;
                    endContainer := j :: ep; endOffset := eo |}
                 Hav (textContent clI))
        by (cbn [startContainer startOffset];
            rewrite rangeTextFrom_relabel; exact (extractTail_reads _ _ _ _ _ Et)).
      cbn [endContainer endOffset].
      rewrite rangeTextTo_skip by (intros q; apply between_children).
      rewrite (rangeTextTo_front _ _ _ _ (textContent clJ))
        by (rewrite rangeTextTo_relabel; exact (extractHead_reads _ _ _ _ _ Eh)).
      cbn [option_map].
      now rewrite texts_textNodesFrom, textOfList_cons, textOfList_app,
        textOfList_single.
Qed.

Lemma nodeAt_textNodes (p : path) :
  forall n t, nodeAt p n = Some (Text t) -> In (p, t) (textNodes n).
Proof.
  induction p as [|i p IH]; intros [s|a kids] t; cbn [nodeAt];
    try discriminate.
  - intros [= ->]. now left.
  - destruct (nth_error kids i) as [k|] eqn:Ek; [|discriminate].
    intros H. rewrite (textNodes_split i k a kids Ek).
    apply in_or_app. right. apply in_or_app. left.
    apply in_map_iff. exists (p, t). split; [reflexivity|]. now apply IH.
Qed.

Lemma rangeTextIn_collapsed (r : Range) (nodes : list (path * string)) :
  collapsed r = true ->
  In (startContainer r) (map fst nodes) ->
  rangeTextIn r nodes = Some EmptyString.
Proof.
  unfold collapsed. intros H. apply andb_true_iff in H as [Hp Ho].
  apply path_eqb_eq in Hp. apply Nat.eqb_eq in Ho.
  induction nodes as [|[p t] nodes IH]; [intros []|].
  cbn [map fst rangeTextIn].
  destruct (path_eqb p (startContainer r)) eqn:E.
  - intros _. rewrite <- Hp, E. unfold substring.
    rewrite Ho, Nat.sub_diag. now rewrite take_0.
  - intros [H|Hin]; [|now apply IH].
    rewrite H, path_eqb_refl in E. discriminate.
Qed.

(** [range.extractContents()] takes out what [range.toString()] reads. *)
Lemma extractContents_reads (dom : node) (r : Range) (dom1 : node)
    (frag : list node) (b : boundary) :
  validRange dom r ->
  extractContents r dom = Some (dom1, frag, b) ->
  rangeToString dom r = Some (textOfList frag).
Proof.
  intros ([t Hs] & _) Hx. unfold extractContents in Hx. unfold rangeToString.
  destruct (collapsed r) eqn:Ec.
  - injection Hx as _ <- _. apply rangeTextIn_collapsed; [exact Ec|].
    apply in_map_iff. exists (startContainer r, t).
    split; [reflexivity | now apply nodeAt_textNodes].
  - destruct r as [sp so ep eo]. exact (extractBetween_reads _ _ _ _ _ _ _ _ Hx).
Qed.

(** The node that [insertNode] puts into the tree is in the tree. *)
Lemma insertNode_places (w : node) (bo : nat) (bp : path) :
  forall n n2,
    insertNode bp bo w n = Some n2 ->
    exists q, nodeAt q n2 = Some w.
Proof.
  induction bp as [|i bp IH]; intros [s|a kids] n2; try discriminate.
  - unfold insertNode. destruct (bo <=? length kids) eqn:E; [|discriminate].
    apply Nat.leb_le in E. intros [= <-]. exists [bo]. cbn [nodeAt].
    rewrite nth_error_app2; rewrite length_firstn; [|lia].
    replace (bo - Nat.min bo (length kids)) with 0 by lia. reflexivity.
  - destruct (nth_error kids i) as [k|] eqn:Ek.
    + assert (Hl : length (firstn i kids) = i)
        by (apply (firstn_length_nth i k kids Ek)).
      destruct k as [s|ak kk].
      * destruct bp.
        -- rewrite (insertNode_split a kids i bo w s Ek). intros [= <-].
           exists [S i]. cbn [nodeAt]. unfold spliceKid.
           rewrite nth_error_app2; rewrite Hl; [|lia].
           replace (S i - i) with 1 by lia. reflexivity.
        -- unfold insertNode. rewrite Ek. discriminate.
      * rewrite (insertNode_down a ak kids kk i bo bp w Ek).
        destruct (insertNode bp bo w (Elem ak kk)) as [k'|] eqn:Ei;
          [|discriminate].
        destruct (IH _ _ Ei) as (q & Hq). intros [= <-]. exists (i :: q).
        cbn [nodeAt]. now rewrite (nth_error_splice i _ k' kids Ek).
    + unfold insertNode. rewrite Ek. discriminate.
Qed.

End FragmentFacts.

(** ** When the resolver gives up *)

Section ResolverNone.

Lemma no_text_nodes (dom : node) (sel : bool) (pat : string) :
  textNodes dom = [] -> Resolver.findTextInDOM dom sel pat = None.
Proof.
  intros H. unfold Resolver.findTextInDOM. rewrite H. simpl.
  destruct (indexOf (textContent dom) pat); [|reflexivity].
  now destruct (negb sel).
Qed.

(** With the selection object at hand, the resolver gives up only on a text
    that the document does not hold. *)
Lemma findTextInDOM_none (dom : node) (pat : string) :
  Resolver.findTextInDOM dom true pat = None ->
  textNodes dom <> [] ->
  indexOf (textContent dom) pat = None.
Proof.
  unfold Resolver.findTextInDOM. intros H Hn.
  destruct (Resolver.fastPath pat (textNodes dom)) eqn:Ef; [discriminate|].
  destruct (indexOf (textContent dom) pat) as [i|] eqn:Ei; [|reflexivity].
  exfalso. simpl in H. destruct pat as [|c pat'].
  - destruct (textNodes dom) as [|[p t] l]; [congruence|].
    destruct t; simpl in Ef; discriminate Ef.
  - apply indexOf_occurs in Ei as [Hocc _].
    pose proof (occursAt_bound _ _ _ Hocc) as Hb.
    rewrite <- texts_textNodes in Hb.
    destruct (slowWalk_start i (len (String c pat')) (textNodes dom) 0
                (textNodes_NoDup dom)) as (sn & so & en & eo & Hw & _);
      [lia | unfold len; simpl; lia | lia |].
    rewrite Hw in H. discriminate H.
Qed.

End ResolverNone.

(** ** Wrapping only cuts text nodes *)

Section PieceFacts.

Import Dom.

Local Abbreviation pieces l' l :=
  (forall t' : string, In t' l' -> exists t, In t l /\ factorOf t' t).

Lemma factorOf_refl (t : string) : factorOf t t.
Proof. exists EmptyString, EmptyString. now rewrite append_nil_r. Qed.

Lemma pieces_refl (l : list string) : pieces l l.
Proof. intros t H. exists t. split; [exact H | apply factorOf_refl]. Qed.

Lemma pieces_two (t1 t2 s : string) :
  t1 +++ t2 = s -> pieces [t1; t2] [s].
Proof.
  intros <- t [<-|[<-|[]]]; eexists; (split; [now left|]).
  - exists EmptyString, t2. reflexivity.
  - exists t1, EmptyString. now rewrite append_nil_r.
Qed.

Lemma pieces_three (t1 t2 t3 s : string) :
  t1 +++ t2 +++ t3 = s -> pieces [t1; t2; t3] [s].
Proof.
  intros <- t [<-|[<-|[<-|[]]]]; eexists; (split; [now left|]).
  - exists EmptyString, (t2 +++ t3). reflexivity.
  - exists t1, t3. reflexivity.
  - exists (t1 +++ t2), EmptyString.
    now rewrite append_nil_r, append_assoc.
Qed.

Lemma pieces_app (a a' b b' : list string) :
  pieces a a' -> pieces b b' -> pieces (a ++ b) (a' ++ b').
Proof.
  intros Ha Hb t H. apply in_app_iff in H as [H|H].
  - destruct (Ha t H) as (u & Hu & Hf). exists u. split; [|exact Hf].
    apply in_or_app. now left.
  - destruct (Hb t H) as (u & Hu & Hf). exists u. split; [|exact Hf].
    apply in_or_app. now right.
Qed.

Lemma pieces_pair (x y k rest rest' : list string) :
  pieces (x ++ y) k -> pieces rest rest' ->
  pieces (x ++ y ++ rest) (k ++ rest').
Proof. intros H1 H2. rewrite app_assoc. now apply pieces_app. Qed.

Lemma leaves_Elem (a : attrs) (kids : list node) :
  leaves (Elem a kids) = flat_map leaves kids.
Proof. reflexivity. Qed.

Lemma leaves_split (i : nat) (k : node) (kids : list node) :
  nth_error kids i = Some k ->
  flat_map leaves kids
  = flat_map leaves (firstn i kids) ++ leaves k
    ++ flat_map leaves (skipn (S i) kids).
Proof.
  intros H. rewrite (kids_split i k kids H) at 1.
  now rewrite flat_map_app.
Qed.

Lemma leaves_splice (i : nat) (ks kids : list node) :
  flat_map leaves (spliceKid i ks kids)
  = flat_map leaves (firstn i kids) ++ flat_map leaves ks
    ++ flat_map leaves (skipn (S i) kids).
Proof. unfold spliceKid. now rewrite !flat_map_app. Qed.

Lemma pieces_splice (i : nat) (k : node) (ks kids : list node) :
  nth_error kids i = Some k ->
  pieces (flat_map leaves ks) (leaves k) ->
  pieces (flat_map leaves (spliceKid i ks kids)) (flat_map leaves kids).
Proof.
  intros Hn H. rewrite leaves_splice, (leaves_split i k kids Hn).
  apply pieces_app; [apply pieces_refl|].
  apply pieces_app; [exact H | apply pieces_refl].
Qed.

Lemma leaves_textNodes (n : node) : map snd (textNodes n) = leaves n.
Proof.
  induction n as [s|a kids IH] using node_induction; [reflexivity|].
  rewrite textNodes_Elem, leaves_Elem. generalize 0.
  induction IH as [|k kids Hk _ IHk]; intros i; [reflexivity|].
  rewrite textNodesFrom_cons, map_app, map_map. cbn [snd flat_map].
  now rewrite IHk, <- Hk.
Qed.

Lemma extractTail_pieces (o : nat) (p : path) :
  forall n stay clone,
    extractTail p o n = Some (stay, clone) ->
    pieces (leaves stay ++ leaves clone) (leaves n).
Proof.
  induction p as [|i p IH]; intros [s|a kids] stay clone;
    cbn [extractTail]; try discriminate.
  - intros [= <- <-]. apply pieces_two, take_drop.
  - destruct (nth_error kids i) as [k|] eqn:Ek; [|discriminate].
    destruct (extractTail p o k) as [[st cl]|] eqn:Et; [|discriminate].
    remember (skipn (S i) kids) as B.
    intros [= <- <-]. specialize (IH _ _ _ Et).
    assert (E1 : leaves (Elem a (firstn i kids ++ [st]))
                 = flat_map leaves (firstn i kids) ++ leaves st).
    { rewrite leaves_Elem, flat_map_app. cbn [flat_map].
      now rewrite app_nil_r. }
    assert (E2 : leaves (Elem a (cl :: B)) = leaves cl ++ flat_map leaves B)
      by reflexivity.
    rewrite E1, E2, leaves_Elem, (leaves_split i k kids Ek), <- HeqB,
      <- app_assoc.
    apply pieces_app; [apply pieces_refl|].
    apply pieces_pair; [exact IH | apply pieces_refl].
Qed.

Lemma extractHead_pieces (o : nat) (p : path) :
  forall n clone stay,
    extractHead p o n = Some (clone, stay) ->
    pieces (leaves clone ++ leaves stay) (leaves n).
Proof.
  induction p as [|i p IH]; intros [s|a kids] clone stay;
    cbn [extractHead]; try discriminate.
  - intros [= <- <-]. apply pieces_two, take_drop.
  - destruct (nth_error kids i) as [k|] eqn:Ek; [|discriminate].
    destruct (extractHead p o k) as [[cl st]|] eqn:Et; [|discriminate].
    remember (skipn (S i) kids) as B.
    intros [= <- <-]. specialize (IH _ _ _ Et).
    assert (E1 : leaves (Elem a (firstn i kids ++ [cl]))
                 = flat_map leaves (firstn i kids) ++ leaves cl).
    { rewrite leaves_Elem, flat_map_app. cbn [flat_map].
      now rewrite app_nil_r. }
    assert (E2 : leaves (Elem a (st :: B)) = leaves st ++ flat_map leaves B)
      by reflexivity.
    rewrite E1, E2, leaves_Elem, (leaves_split i k kids Ek), <- HeqB,
      <- app_assoc.
    apply pieces_app; [apply pieces_refl|].
    apply pieces_pair; [exact IH | apply pieces_refl].
Qed.

(** Extract-and-reinsert makes no text node that was not part of one. *)
Lemma extract_insert_pieces (w : attrs) (sp : path) :
  forall ep so eo a kids n1 frag bp bo n2,
    extractBetween sp ep so eo (Elem a kids) = Some (n1, frag, (bp, bo)) ->
    insertNode bp bo (Elem w frag) n1 = Some n2 ->
    pieces (leaves n2) (leaves (Elem a kids)).
Proof.
  induction sp as [|i sp IH]; intros [|j ep] so eo a kids n1 frag bp bo n2;
    cbn [extractBetween]; try discriminate.
  destruct (i =? j) eqn:Eij.
  - destruct (nth_error kids i) as [k|] eqn:Ek; [|discriminate].
    destruct (extractBetween sp ep so eo k) as [[[k' fr] [bp' bo']]|] eqn:Ex;
      [|discriminate].
    intros [= <- <- <- <-].
    destruct k as [s|ak kk].
    + destruct sp, ep; cbn [extractBetween] in Ex; try discriminate.
      destruct (so <=? eo) eqn:Ele; [|discriminate].
      apply Nat.leb_le in Ele. injection Ex as <- <- <- <-.
      rewrite (insertNode_split a _ i so _ _ (nth_error_splice i _ _ kids Ek)).
      intros [= <-]. rewrite (splice_splice i _ _ _ kids Ek).
      rewrite !leaves_Elem. apply (pieces_splice i _ _ kids Ek).
      cbn [flat_map leaves app]. apply pieces_three.
      now apply cut_and_restore.
    + destruct (extractBetween_shape _ _ _ _ _ _ _ _ _ Ex) as [kk' ->].
      rewrite (insertNode_down a ak _ kk' i bo' bp' _
                 (nth_error_splice i _ _ kids Ek)).
      destruct (insertNode bp' bo' (Elem w fr) (Elem ak kk')) as [k2|] eqn:Hins;
        [|discriminate].
      intros [= <-]. rewrite (splice_splice i _ _ _ kids Ek).
      rewrite !leaves_Elem. apply (pieces_splice i _ _ kids Ek).
      cbn [flat_map]. rewrite app_nil_r.
      exact (IH _ _ _ _ _ _ _ _ _ _ Ex Hins).
  - destruct (i <? j) eqn:Elt; [|discriminate]. apply Nat.ltb_lt in Elt.
    destruct (nth_error kids i) as [ki|] eqn:Eki; [|discriminate].
    destruct (nth_error kids j) as [kj|] eqn:Ekj; [|discriminate].
    destruct (extractTail sp so ki) as [[stI clI]|] eqn:Et; [|discriminate].
    destruct (extractHead ep eo kj) as [[clJ stJ]|] eqn:Eh; [|discriminate].
    pose proof (firstn_length_nth i ki kids Eki) as Hl.
    pose proof (extractTail_pieces _ _ _ _ _ Et) as HT.
    pose proof (extractHead_pieces _ _ _ _ _ Eh) as HH.
    assert (Hk : flat_map leaves kids
                 = flat_map leaves (firstn i kids) ++ leaves ki
                   ++ flat_map leaves (containedKids i j kids) ++ leaves kj
                   ++ flat_map leaves (skipn (S j) kids)).
    { rewrite (kids_split2 i j ki kj kids Elt Eki Ekj) at 1.
      rewrite flat_map_app. cbn [flat_map]. now rewrite flat_map_app. }
    remember (firstn i kids) as A. remember (skipn (S j) kids) as B.
    intros [= <- <- <- <-].
    rewrite insertNode_here by (rewrite length_app, Hl; simpl; lia).
    assert (E1 : firstn (S i) (A ++ stI :: stJ :: B) = A ++ [stI])
      by (rewrite <- Hl; apply firstn_middle').
    assert (E2 : skipn (S i) (A ++ stI :: stJ :: B) = stJ :: B)
      by (rewrite <- Hl; apply skipn_middle).
    rewrite E1, E2. intros [= <-].
    assert (E3 : leaves (Elem a ((A ++ [stI])
                                 ++ Elem w (clI :: containedKids i j kids
                                              ++ [clJ]) :: stJ :: B))
                 = flat_map leaves A ++ leaves stI ++ leaves clI
                   ++ flat_map leaves (containedKids i j kids) ++ leaves clJ
                   ++ leaves stJ ++ flat_map leaves B).
    { rewrite leaves_Elem, !flat_map_app. cbn [flat_map leaves].
      rewrite flat_map_app. cbn [flat_map].
      now rewrite !app_nil_r, <- !app_assoc. }
    rewrite E3, leaves_Elem, Hk.
    apply pieces_app; [apply pieces_refl|].
    apply pieces_pair; [exact HT|].
    apply pieces_app; [apply pieces_refl|].
    apply pieces_pair; [exact HH | apply pieces_refl].
Qed.

Lemma insertNode_at_text_pieces (w : node) (bo : nat) (bp : path) :
  forall a kids s n2,
    nodeAt bp (Elem a kids) = Some (Text s) ->
    leaves w = [] ->
    insertNode bp bo w (Elem a kids) = Some n2 ->
    pieces (leaves n2) (leaves (Elem a kids)).
Proof.
  induction bp as [|i bp IH]; intros a kids s n2; cbn [nodeAt]; [discriminate|].
  destruct (nth_error kids i) as [k|] eqn:Ek; [|discriminate].
  intros Hn Hw. destruct k as [s0|ak kk].
  - destruct bp; cbn [nodeAt] in Hn; [|discriminate]. injection Hn as ->.
    rewrite (insertNode_split a kids i bo w s Ek). intros [= <-].
    rewrite !leaves_Elem. apply (pieces_splice i _ _ kids Ek).
    cbn [flat_map leaves]. rewrite Hw. cbn [app].
    apply pieces_two, take_drop.
  - rewrite (insertNode_down a ak kids kk i bo bp w Ek).
    destruct (insertNode bp bo w (Elem ak kk)) as [k2|] eqn:Hins;
      [|discriminate].
    intros [= <-]. rewrite !leaves_Elem. apply (pieces_splice i _ _ kids Ek).
    cbn [flat_map]. rewrite app_nil_r.
    exact (IH _ _ _ _ Hn Hw Hins).
Qed.

(** Every text node after a wrap is a part of a text node before it. *)
Lemma wrapRange_pieces (r : Range) (w : attrs) (a : attrs) (kids : list node)
    (dom' : node) :
  validRange (Elem a kids) r ->
  Viewer.wrapRange r w (Elem a kids) = Normal dom' ->
  pieces (leaves dom') (leaves (Elem a kids)).
Proof.
  intros Hv Hw.
  destruct (extract_then_insert r w a kids Hv)
    as (n1 & frag & bp & bo & kids' & Hx & Hins & _).
  assert (E : dom' = Elem a kids').
  { unfold Viewer.wrapRange, surroundContents in Hw. rewrite Hx in Hw.
    cbn [appendChild app] in Hw. rewrite Hins in Hw.
    destruct (partiallyContainsElement r); now injection Hw. }
  subst dom'. unfold extractContents in Hx.
  destruct (collapsed r) eqn:Ec.
  - injection Hx as <- <- <- <-. destruct Hv as ([t Hs] & _).
    exact (insertNode_at_text_pieces (Elem w []) _ _ _ _ _ _ Hs eq_refl Hins).
  - exact (extract_insert_pieces _ _ _ _ _ _ _ _ _ _ _ _ Hx Hins).
Qed.

Lemma fastPath_none (pat : string) (nodes : list (path * string)) :
  (forall t, In t (map snd nodes) -> indexOf t pat = None) ->
  Resolver.fastPath pat nodes = None.
Proof.
  induction nodes as [|[p t] nodes IH]; intros H; [reflexivity|].
  cbn [Resolver.fastPath]. rewrite (H t) by now left.
  apply IH. intros u Hu. apply H. now right.
Qed.

Lemma factorOf_absent (piece s pat : string) :
  factorOf piece s -> indexOf s pat = None -> indexOf piece pat = None.
Proof.
  intros (pre & post & ->) Hs.
  destruct (indexOf piece pat) as [i|] eqn:E; [|reflexivity].
  apply indexOf_occurs in E as [Hocc _].
  exfalso. exact (indexOf_absent _ _ Hs _ (occursAt_in_context pre _ post _ _ Hocc)).
Qed.

(** A text that the resolver does not find is not found after a change of
    the tree that keeps the flattened text and only cuts text nodes. *)
Lemma findTextInDOM_stays_none (sel : bool) (dom dom' : node) (pat : string) :
  textContent dom' = textContent dom ->
  pieces (leaves dom') (leaves dom) ->
  Resolver.findTextInDOM dom sel pat = None ->
  Resolver.findTextInDOM dom' sel pat = None.
Proof.
  intros Htxt Hp Hnone.
  assert (Ef : Resolver.fastPath pat (textNodes dom) = None).
  { unfold Resolver.findTextInDOM in Hnone.
    destruct (Resolver.fastPath pat (textNodes dom));
      [discriminate | reflexivity]. }
  assert (Hfast : Resolver.fastPath pat (textNodes dom') = None).
  { apply fastPath_none. rewrite leaves_textNodes. intros t' Ht'.
    destruct (Hp t' Ht') as (t & Ht & Hf).
    apply (factorOf_absent t' t pat Hf).
    rewrite <- leaves_textNodes in Ht.
    apply in_map_iff in Ht as ([q u] & E & Hin). cbn in E. subst u.
    exact (fastPath_absent pat _ Ef q t Hin). }
  destruct (indexOf (textContent dom) pat) as [i|] eqn:Ei.
  - destruct sel.
    + destruct (textNodes dom') as [|[q' t'] l'] eqn:En';
        [now apply no_text_nodes|].
      exfalso.
      assert (Hin' : In t' (leaves dom')).
      { rewrite <- leaves_textNodes, En'. now left. }
      destruct (Hp t' Hin') as (t & Ht & _).
      rewrite <- leaves_textNodes in Ht.
      assert (Hne : textNodes dom <> []) by (now destruct (textNodes dom)).
      pose proof (findTextInDOM_none dom pat Hnone Hne) as Habs. congruence.
    + unfold Resolver.findTextInDOM. rewrite Hfast.
      now destruct (indexOf (textContent dom') pat).
  - apply findTextInDOM_absent. now rewrite Htxt.
Qed.

End PieceFacts.

(** ** A second application of a batch *)

Section SecondPass.

Import Dom Viewer.

Variable sel : bool.

Lemma applyOnePlain_settles (v : state) (ann : Ann.t) (a : attrs)
    (kids : list node) :
  container v = Some (Elem a kids) ->
  hasSelection v = sel ->
  exists kids',
    container (applyOnePlain v ann) = Some (Elem a kids') /\
    settled sel ann (Elem a kids').
Proof.
  intros Hc Hs. unfold settled.
  destruct (represented (Ann.id ann) (Elem a kids)) eqn:Er.
  - rewrite (applyOnePlain_skip v ann _ Hc Er). exists kids. auto.
  - destruct (Resolver.findTextInDOM (Elem a kids) (hasSelection v)
                (Ann.originalText ann)) as [r|] eqn:Ef.
    + destruct (applyOnePlain_found v ann a kids r Hc Er Ef)
        as (kids' & _ & -> & _ & Hr & _).
      exists kids'. auto.
    + rewrite (applyOnePlain_notfound v ann _ Hc Er Ef). exists kids.
      rewrite Hs in Ef. auto.
Qed.

Lemma settled_stable (v : state) (b x : Ann.t) (a : attrs) (kids : list node) :
  container v = Some (Elem a kids) ->
  hasSelection v = sel ->
  settled sel x (Elem a kids) ->
  exists kids',
    container (applyOnePlain v b) = Some (Elem a kids') /\
    settled sel x (Elem a kids').
Proof.
  intros Hc Hs Hx.
  destruct (represented (Ann.id b) (Elem a kids)) eqn:Er.
  - rewrite (applyOnePlain_skip v b _ Hc Er). exists kids. auto.
  - destruct (Resolver.findTextInDOM (Elem a kids) (hasSelection v)
                (Ann.originalText b)) as [r|] eqn:Ef.
    + destruct (applyOnePlain_found v b a kids r Hc Er Ef)
        as (kids' & Hw & -> & Htxt & _ & Hm).
      exists kids'. split; [reflexivity|].
      destruct Hx as [Hx|Hx].
      * left. unfold represented in *.
        apply orb_true_iff in Hx as [Hx|Hx]; apply Hm in Hx; rewrite Hx;
          [reflexivity | apply orb_true_r].
      * right.
        apply (findTextInDOM_stays_none sel (Elem a kids)); [exact Htxt | | exact Hx].
        exact (wrapRange_pieces r _ a kids _
                 (findTextInDOM_valid _ _ _ _ Ef) Hw).
    + rewrite (applyOnePlain_notfound v b _ Hc Er Ef). exists kids. auto.
Qed.

Lemma fold_settled (anns : list Ann.t) (x : Ann.t) :
  forall v a kids,
    container v = Some (Elem a kids) ->
    hasSelection v = sel ->
    settled sel x (Elem a kids) ->
    exists kids',
      container (fold_left applyOnePlain anns v) = Some (Elem a kids') /\
      settled sel x (Elem a kids').
Proof.
  induction anns as [|b anns IH]; intros v a kids Hc Hs Hx; simpl.
  - exists kids. auto.
  - destruct (settled_stable v b x a kids Hc Hs Hx) as (kids1 & Hc1 & Hx1).
    destruct (applyOnePlain_keeps v b a kids Hc) as (_ & _ & _ & _ & _ & Hs1 & _).
    apply (IH _ _ _ Hc1); [congruence | assumption].
Qed.

Lemma fold_all_settled (anns : list Ann.t) :
  forall v a kids,
    container v = Some (Elem a kids) ->
    hasSelection v = sel ->
    exists kids',
      container (fold_left applyOnePlain anns v) = Some (Elem a kids') /\
      forall x, In x anns -> settled sel x (Elem a kids').
Proof.
  induction anns as [|b anns IH]; intros v a kids Hc Hs; simpl.
  - exists kids. split; [assumption | intros x []].
  - destruct (applyOnePlain_settles v b a kids Hc Hs) as (kids1 & Hc1 & Hb1).
    destruct (applyOnePlain_keeps v b a kids Hc) as (_ & _ & _ & _ & _ & Hs1 & _).
    assert (Hs1' : hasSelection (applyOnePlain v b) = sel) by congruence.
    destruct (IH _ _ _ Hc1 Hs1') as (kids2 & Hc2 & Hall).
    destruct (fold_settled anns b _ _ _ Hc1 Hs1' Hb1) as (kids3 & Hc3 & Hb3).
    exists kids2. split; [assumption|].
    intros x [<-|Hin]; [|now apply Hall].
    rewrite Hc2 in Hc3. injection Hc3 as <-. assumption.
Qed.



End SecondPass.

Section SecondPassPlain.

Import Dom Viewer.


End SecondPassPlain.

(** ** The plan server *)

Section ServerFacts.

Import Server.

Local Open Scope string_scope.

Lemma endsWith_spec (s suffix : string) :
  endsWith s suffix = true ->
  len suffix <= len s /\ drop (len s - len suffix) s = suffix.
Proof.
  unfold endsWith. intros H. apply andb_true_iff in H as [H1 H2].
  apply Nat.leb_le in H1. apply String.eqb_eq in H2. now split.
Qed.

(** Two suffixes of one string: the shorter is a suffix of the longer. *)
Lemma endsWith_nested (s e1 e2 : string) :
  endsWith s e1 = true -> endsWith s e2 = true -> len e1 <= len e2 ->
  endsWith e2 e1 = true.
Proof.
  intros H1 H2 Hl.
  apply endsWith_spec in H1 as [L1 D1]. apply endsWith_spec in H2 as [L2 D2].
  unfold endsWith. apply andb_true_iff. split; [now apply Nat.leb_le|].
  apply String.eqb_eq.
  transitivity (drop (len e2 - len e1) (drop (len s - len e2) s));
    [now rewrite D2|].
  rewrite drop_drop.
  replace (len s - len e2 + (len e2 - len e1)) with (len s - len e1) by lia.
  exact D1.
Qed.

Lemma endsWith_exclusive (s e1 e2 : string) :
  endsWith e1 e2 = false -> endsWith e2 e1 = false ->
  endsWith s e1 = true -> endsWith s e2 = false.
Proof.
  intros N1 N2 H1. destruct (endsWith s e2) eqn:H2; [|reflexivity].
  destruct (Nat.le_ge_cases (len e1) (len e2)) as [L|L].
  - now rewrite (endsWith_nested s e1 e2 H1 H2 L) in N2.
  - now rewrite (endsWith_nested s e2 e1 H2 H1 L) in N1.
Qed.

Lemma fetch_keeps_decision (req : request) (st : state) (d : decision) :
  decided st = Some d -> snd (fetch req st) = st.
Proof.
  intros H. unfold fetch, resolveDecision. rewrite H.
  repeat match goal with
         | |- context [if ?b then _ else _] => destruct b
         end; reflexivity.
Qed.

Lemma serve_keeps_decision (reqs : list request) (st : state) (d : decision) :
  decided st = Some d -> serve reqs st = st.
Proof.
  intros H. induction reqs as [|req reqs IH]; [reflexivity|].
  unfold serve in *. cbn [fold_left].
  now rewrite (fetch_keeps_decision req st d H).
Qed.

Lemma serve_cons (req : request) (reqs : list request) (st : state) :
  serve (req :: reqs) st = serve reqs (snd (fetch req st)).
Proof. reflexivity. Qed.

Lemma serve_app (l1 l2 : list request) (st : state) :
  serve (l1 ++ l2)%list st = serve l2 (serve l1 st).
Proof. unfold serve. apply fold_left_app. Qed.

Lemma fetch_not_POST (req : request) (st : state) :
  method req <> "POST" ->
  snd (fetch req st) = st /\ fst (fetch req st) <> JsonOk.
Proof.
  intros H. apply String.eqb_neq in H. unfold fetch. rewrite H.
  rewrite !andb_false_r.
  repeat match goal with
         | |- context [if ?b then _ else _] => destruct b
         end; split; (reflexivity || discriminate).
Qed.

Lemma serve_not_POST (reqs : list request) (st : state) :
  (forall req, In req reqs -> method req <> "POST") -> serve reqs st = st.
Proof.
  induction reqs as [|req reqs IH]; intros H; [reflexivity|].
  rewrite serve_cons.
  rewrite (proj1 (fetch_not_POST req st (H req (or_introl eq_refl)))).
  apply IH. intros r Hr. apply H. now right.
Qed.

Lemma orElse_nonempty (a : option string) (b : string) :
  b <> "" -> orElse a b <> "" /\ (orElse a b = b \/ a = Some (orElse a b)).
Proof.
  intros Hb. destruct a as [[|c s]|]; cbn [orElse]; split; auto; discriminate.
Qed.

(** What one request can settle the decision to. *)
Lemma fetch_decision (req : request) (st : state) (d : decision) :
  decided st = None ->
  decided (snd (fetch req st)) = Some d ->
  method req = "POST" /\
  ((pathname req = "/api/approve" /\ d = {| approved := true; feedback := None |})
   \/ (pathname req = "/api/deny" /\ approved d = false /\
       exists m, feedback d = Some m /\ m <> "" /\
                 (m = "Plan rejected by user" \/ json req = Some (Some m)))).
Proof.
  intros Hn. unfold fetch, resolveDecision. rewrite Hn.
  destruct (String.eqb (pathname req) "/api/plan") eqn:E1;
    [cbn; congruence|].
  destruct (String.eqb (pathname req) "/api/approve") eqn:E2;
    destruct (String.eqb (method req) "POST") eqn:E3; cbn [andb].
  - cbn. intros [= <-]. apply String.eqb_eq in E2, E3. split; auto.
  - destruct (String.eqb (pathname req) "/api/deny"); cbn [andb];
      repeat match goal with
             | |- context [if ?b then _ else _] => destruct b
             end; cbn; congruence.
  - destruct (String.eqb (pathname req) "/api/deny") eqn:E4; cbn [andb].
    + cbn. intros [= <-]. apply String.eqb_eq in E3, E4.
      split; [assumption|]. right. split; [assumption|]. split; [reflexivity|].
      cbn [feedback]. eexists. split; [reflexivity|].
      destruct (json req) as [f|]; [|split; [discriminate | now left]].
      destruct (orElse_nonempty f "Plan rejected by user"
                  ltac:(discriminate)) as [H1 [H2|H2]].
      * split; [exact H1 | now left].
      * split; [exact H1|]. right. now f_equal.
    + repeat match goal with
             | |- context [if ?b then _ else _] => destruct b
             end; cbn; congruence.
  - destruct (String.eqb (pathname req) "/api/deny"); cbn [andb];
      repeat match goal with
             | |- context [if ?b then _ else _] => destruct b
             end; cbn; congruence.
Qed.

(** The request that settled the decision of a run. *)
Lemma serve_decision (reqs : list request) :
  forall st d,
    decided st = None ->
    decided (serve reqs st) = Some d ->
    exists before req after st',
      reqs = (before ++ req :: after)%list /\
      st' = serve before st /\
      decided st' = None /\
      decided (snd (fetch req st')) = Some d.
Proof.
  induction reqs as [|req reqs IH]; intros st d Hn Hd; [cbn in Hd; congruence|].
  rewrite serve_cons in Hd.
  destruct (decided (snd (fetch req st))) as [d'|] eqn:E.
  - rewrite (serve_keeps_decision reqs _ d' E) in Hd.
    exists [], req, reqs, st. repeat split; auto.
  - destruct (IH _ d E Hd) as (before & r & after & st' & -> & -> & H1 & H2).
    exists (req :: before), r, after, (serve before (snd (fetch req st))).
    repeat split; auto.
Qed.

Ltac resolve_tests H :=
  repeat match goal with
         | |- context [endsWith ?p ?e] =>
             first [ rewrite H
                   | match type of H with
                     | endsWith _ ?e1 = true =>
                         rewrite (endsWith_exclusive p e1 e eq_refl eq_refl H)
                     end ]
         end.

(** The seven tests of [getContentType] exclude one another: no path ends
    with two of the extensions. So the type is that of whichever extension
    the path ends with, the order of the tests does not matter, and a path
    that ends with none of them has no type. *)
Theorem getContentType_by_extension (path : string) :
  (forall ext type,
      In (ext, type) contentTypes -> endsWith path ext = true ->
      getContentType path = Some type) /\
  ((forall ext type,
       In (ext, type) contentTypes -> endsWith path ext = false) ->
   getContentType path = None).
Proof.
  split.
  - intros ext type Hin H. unfold getContentType. cbn in Hin.
    repeat destruct Hin as [Hin|Hin]; try contradiction;
      injection Hin as <- <-; resolve_tests H; reflexivity.
  - intros H. unfold getContentType.
    repeat match goal with
           | |- context [endsWith path ?e] =>
               rewrite (H e _ ltac:(cbn; tauto))
           end.
    reflexivity.
Qed.

(** Once a request has settled the decision, the server stays as that
    request left it: a later approval or denial changes nothing. *)
Theorem first_decision_stands (req : request) (reqs : list request)
    (st : state) (d : decision) :
  decided (snd (fetch req st)) = Some d ->
  serve (req :: reqs) st = snd (fetch req st).
Proof.
  intros H. rewrite serve_cons. now apply (serve_keeps_decision reqs _ d).
Qed.

Lemma first_decision_stands_witness :
  let st := {| planContent := "Ship it"; dist := fun _ => false;
               decided := None |} in
  let approve := {| pathname := "/api/approve"; method := "POST";
                    json := None |} in
  let refuse := {| pathname := "/api/deny"; method := "POST";
                   json := Some (Some "Too late") |} in
  serve [approve; refuse] st = snd (fetch approve st).
Proof.
  intros st approve refuse.
  apply (first_decision_stands approve [refuse] st
           {| approved := true; feedback := None |}).
  reflexivity.
Defined.

(** Requests that are not [POST] never settle the decision and never get
    the answer of an approval or a denial: the server stays as it was,
    whatever their paths. *)
Theorem browsing_never_decides (reqs : list request) (st : state) :
  (forall req, In req reqs -> method req <> "POST") ->
  serve reqs st = st /\
  forall req, In req reqs -> fst (fetch req st) <> JsonOk.
Proof.
  intros H. split; [now apply serve_not_POST|].
  intros req Hin. now apply fetch_not_POST, H.
Qed.

Lemma browsing_never_decides_witness :
  let st := {| planContent := "Ship it"; dist := fun _ => false;
               decided := None |} in
  let reqs := [ {| pathname := "/api/approve"; method := "GET";
                   json := None |};
                {| pathname := "/api/plan"; method := "GET";
                   json := None |} ] in
  serve reqs st = st /\
  forall req, In req reqs -> fst (fetch req st) <> JsonOk.
Proof.
  intros st reqs. apply (browsing_never_decides reqs st).
  intros req [<-|[<-|[]]]; discriminate.
Defined.

(** When [dist/] holds [index.html] no request is answered with 404: the
    root path gets [index.html] as [text/html], and so does every path
    that is not an API call and names no file. *)
Theorem index_is_the_fallback (req : request) (st : state) :
  dist st "/index.html" = true ->
  fst (fetch req st) <> NotFound /\
  (pathname req = "/" \/ pathname req = "" ->
   fst (fetch req st) = FileResponse "/index.html" (Some "text/html")) /\
  (pathname req <> "/api/plan" -> method req <> "POST" ->
   dist st (pathname req) = false ->
   fst (fetch req st) = FileResponse "/index.html" (Some "text/html")).
Proof.
  intros Hi. split; [|split].
  - unfold fetch. rewrite Hi.
    repeat match goal with
           | |- context [if ?b then _ else _] => destruct b
           end; discriminate.
  - intros [H|H]; unfold fetch; rewrite H; cbn; now rewrite Hi.
  - intros Hp Hm Hd. apply String.eqb_neq in Hp, Hm.
    unfold fetch. rewrite Hp, Hm, !andb_false_r.
    destruct (String.eqb (pathname req) "/" || String.eqb (pathname req) "");
      [now rewrite Hi|].
    now rewrite Hd, Hi.
Qed.

Lemma index_is_the_fallback_witness :
  let st := {| planContent := "Ship it";
               dist := fun f => String.eqb f "/index.html";
               decided := None |} in
  let req := {| pathname := "/plans/42"; method := "GET"; json := None |} in
  fst (fetch req st) <> NotFound /\
  (pathname req = "/" \/ pathname req = "" ->
   fst (fetch req st) = FileResponse "/index.html" (Some "text/html")) /\
  (pathname req <> "/api/plan" -> method req <> "POST" ->
   dist st (pathname req) = false ->
   fst (fetch req st) = FileResponse "/index.html" (Some "text/html")).
Proof.
  intros st req. apply (index_is_the_fallback req st). reflexivity.
Defined.

(** The message of a denial that the script prints is never empty, and it
    is the feedback that the deciding request carried or the text
    "Plan rejected by user": the handler has replaced a missing or empty
    feedback before, so the second default of the script,
    "Plan changes requested", is printed only if the user wrote it. *)
Theorem deny_message_is_given (argv2 envPlan : option string)
    (files : string -> bool) (reqs : list request) (o : outcome) (m : string) :
  main argv2 envPlan files reqs = Some o ->
  printed o = Some (deny m) ->
  m <> "" /\
  (m = "Plan rejected by user" \/
   exists req, In req reqs /\ pathname req = "/api/deny" /\
               method req = "POST" /\ json req = Some (Some m)).
Proof.
  unfold main. destruct (orElse argv2 (orElse envPlan "")) as [|c s];
    [intros [= <-]; discriminate|].
  set (server := {| planContent := String c s; dist := files;
                    decided := None |}).
  destruct (decided (serve reqs server)) as [d|] eqn:Ed; [|discriminate].
  intros [= <-]. cbn [printed].
  destruct (serve_decision reqs server d eq_refl Ed)
    as (before & req & after & st' & -> & _ & Hn & Hd).
  destruct (fetch_decision req st' d Hn Hd) as [Hm [[_ ->]|(Hp & Ha & m' & Hf & Hne & Hor)]];
    [discriminate|].
  rewrite Ha, Hf. destruct m' as [|c' s']; [congruence|]. cbn [orElse].
  intros [= <-]. split; [exact Hne|].
  destruct Hor as [->|Hj]; [now left|]. right. exists req.
  repeat split; auto. apply in_or_app. right. now left.
Qed.

Lemma deny_message_is_given_witness :
  let reqs := [ {| pathname := "/api/deny"; method := "POST";
                   json := Some (Some "") |} ] in
  "Plan rejected by user" <> "" /\
  ("Plan rejected by user" = "Plan rejected by user" \/
   exists req, In req reqs /\ pathname req = "/api/deny" /\
               method req = "POST" /\
               json req = Some (Some "Plan rejected by user")).
Proof.
  intros reqs.
  apply (deny_message_is_given (Some "Ship it") None (fun _ => false) reqs
           {| printed := Some (deny "Plan rejected by user"); exitCode := 0 |}
           "Plan rejected by user"); reflexivity.
Defined.

(** The script exits with 1, printing nothing, exactly when it has no plan
    from its argument or from [PLAN_CONTENT]; otherwise it exits, once the
    decision is there, with 0 for an approval and for a denial alike, and
    what it prints is decided by the first [POST] of a decision: requests
    that are not [POST] before it and whatever comes after it count for
    nothing. *)
Theorem main_exits (argv2 envPlan : option string) (files : string -> bool) :
  (forall reqs,
      main argv2 envPlan files reqs
        = Some {| printed := None; exitCode := 1 |}
      <-> orElse argv2 (orElse envPlan "") = "") /\
  (forall reqs o,
      main argv2 envPlan files reqs = Some o ->
      (exitCode o = 1 /\ printed o = None) \/
      (exitCode o = 0 /\ printed o <> None)) /\
  (forall before req after,
      orElse argv2 (orElse envPlan "") <> "" ->
      (forall r, In r before -> method r <> "POST") ->
      pathname req = "/api/approve" -> method req = "POST" ->
      main argv2 envPlan files (before ++ req :: after)%list
        = Some {| printed := Some allow; exitCode := 0 |}).
Proof.
  split; [|split].
  - intros reqs. unfold main.
    destruct (orElse argv2 (orElse envPlan "")) as [|c s]; [tauto|].
    split; [|discriminate].
    destruct (decided (serve reqs _)); discriminate.
  - intros reqs o. unfold main.
    destruct (orElse argv2 (orElse envPlan "")) as [|c s].
    + intros [= <-]. now left.
    + destruct (decided (serve reqs _)); [|discriminate].
      intros [= <-]. right. split; [reflexivity | discriminate].
  - intros before req after Hplan Hb Hp Hm. unfold main.
    destruct (orElse argv2 (orElse envPlan "")) as [|c s]; [congruence|].
    rewrite serve_app, (serve_not_POST before _ Hb).
    assert (Hd : decided (snd (fetch req
                   {| planContent := String c s; dist := files;
                      decided := None |}))
                 = Some {| approved := true; feedback := None |}).
    { unfold fetch. rewrite Hp, Hm. reflexivity. }
    rewrite serve_cons, (serve_keeps_decision after _ _ Hd), Hd. reflexivity.
Qed.

End ServerFacts.

(** ** The hook script *)

Section HookFacts.

Import Server Hook.

Local Open Scope string_scope.

(** The hook never exits with a status other than 0: it lets the tool call
    through at once when the tool is not [ExitPlanMode] or the plan is
    empty or the word "null"; otherwise it hands the plan to the server,
    waits as long as the server waits for a decision, and exits with the
    server's status, which is 0 after a denial as after an approval, since
    the plan it hands over is not empty. The decision reaches the caller
    only through what the server prints. *)
Theorem hook_exits_zero (toolName plan : string) (envPlan : option string)
    (files : string -> bool) (reqs : list request) :
  (forall code,
      runWithServer toolName plan envPlan files reqs = Some code ->
      code = 0) /\
  (toolName <> "ExitPlanMode" \/ plan = "" \/ plan = "null" ->
   runWithServer toolName plan envPlan files reqs = Some 0) /\
  (toolName = "ExitPlanMode" -> plan <> "" -> plan <> "null" ->
   runWithServer toolName plan envPlan files reqs
   = option_map (fun _ => 0)
       (decided (serve reqs {| planContent := plan; dist := files;
                               decided := None |}))).
Proof.
  assert (Hrun : plan <> "" ->
            option_map exitCode (main (Some plan) envPlan files reqs)
            = option_map (fun _ => 0)
                (decided (serve reqs {| planContent := plan; dist := files;
                                        decided := None |}))).
  { intros Hp. unfold main. destruct plan as [|c s]; [congruence|].
    cbn [orElse]. now destruct (decided (serve reqs _)). }
  split; [|split].
  - intros code. unfold runWithServer, run.
    destruct (String.eqb toolName "ExitPlanMode"); [|now intros [= <-]].
    destruct (String.eqb plan "") eqn:E1; [now intros [= <-]|].
    destruct (String.eqb plan "null"); [now intros [= <-]|].
    cbn [negb andb]. apply String.eqb_neq in E1. rewrite (Hrun E1).
    destruct (decided (serve reqs _)); [now intros [= <-] | discriminate].
  - unfold runWithServer, run.
    intros [H|[->| ->]].
    + apply String.eqb_neq in H. now rewrite H.
    + now destruct (String.eqb toolName "ExitPlanMode").
    + now destruct (String.eqb toolName "ExitPlanMode").
  - intros -> H1 H2. unfold runWithServer, run.
    apply String.eqb_neq in H2. rewrite H2.
    pose proof H1 as H1'. apply String.eqb_neq in H1'. rewrite H1'.
    rewrite String.eqb_refl. cbn [negb andb]. now apply Hrun.
Qed.

End HookFacts.

(** ** The identity store *)

Section IdentityFacts.

Import Identity.

Local Open Scope string_scope.

Lemma generateIdentity_nonempty (e : env) :
  exists c s, fst (generateIdentity e) = String c s.
Proof.
  unfold generateIdentity. destruct (draws e (drawn e)) as [adjective noun].
  cbn [fst]. destruct adjective as [|c s]; cbn; eauto.
Qed.

Lemma getIdentity_nonempty (e : env) :
  exists c s, fst (getIdentity e) = String c s.
Proof.
  unfold getIdentity. destruct (stored e) as [[|c s]|]; cbn [fst]; eauto;
    apply generateIdentity_nonempty.
Qed.

Lemma getIdentity_again (e : env) :
  getIdentity (snd (getIdentity e))
  = (fst (getIdentity e), snd (getIdentity e)).
Proof.
  unfold getIdentity at 2 3 4.
  destruct (stored e) as [[|c s]|] eqn:E; cbn [fst snd];
    try (destruct (generateIdentity_nonempty e) as (c' & s' & G);
         unfold getIdentity, saveIdentity; cbn [stored]; now rewrite G).
  unfold getIdentity. now rewrite E.
Qed.

Lemma isCurrentUser_true (author : option string) (e : env) :
  isCurrentUser author e = true <->
  exists s, s <> "" /\ author = Some s /\ stored e = Some s.
Proof.
  unfold isCurrentUser. split.
  - destruct author as [[|c s]|]; try discriminate.
    destruct (stored e) as [i|]; [|discriminate].
    intros H. apply String.eqb_eq in H. subst i.
    exists (String c s). repeat split; auto. discriminate.
  - intros (s & Hs & -> & ->). destruct s as [|c s]; [congruence|].
    apply String.eqb_refl.
Qed.

(** [getIdentity] settles the identity: the first call stores what it
    returns (an identity it generates is never empty), and every later call
    returns the same identity and leaves the store as it is. *)
Theorem getIdentity_settles (e : env) :
  stored (snd (getIdentity e)) = Some (fst (getIdentity e)) /\
  fst (getIdentity e) <> "" /\
  getIdentity (snd (getIdentity e))
  = (fst (getIdentity e), snd (getIdentity e)).
Proof.
  split; [apply getIdentity_stored|]. split; [|apply getIdentity_again].
  destruct (getIdentity_nonempty e) as (c & s & ->). discriminate.
Qed.

(** After [regenerateIdentity] the new identity is the stored one, it is
    what [getIdentity] returns from then on, and it alone is the current
    user: the identity held before no longer is, unless the generator has
    drawn it again. *)
Theorem regenerateIdentity_replaces (e : env) :
  let new := fst (regenerateIdentity e) in
  let e' := snd (regenerateIdentity e) in
  stored e' = Some new /\
  getIdentity e' = (new, e') /\
  forall author, isCurrentUser author e' = true <-> author = Some new.
Proof.
  cbn zeta. unfold regenerateIdentity. cbn [fst snd].
  destruct (generateIdentity_nonempty e) as (c & s & G).
  split; [reflexivity|]. split.
  - unfold getIdentity, saveIdentity. cbn [stored]. now rewrite G.
  - intros author. rewrite isCurrentUser_true. cbn [saveIdentity stored].
    split.
    + intros (x & _ & -> & [= <-]). reflexivity.
    + intros ->. exists (fst (generateIdentity e)). rewrite G.
      repeat split; auto. discriminate.
Qed.

End IdentityFacts.

Section AuthorFacts.

Import Dom Viewer.

Local Open Scope string_scope.

(** The author of a committed annotation is the current user right after
    the commit, and a later commit carries the same author: the first
    commit has stored the identity that it used. *)
Theorem commit_author_is_current_user (v : state) (source : Source)
    (type : AnnotationType) (text : option string) (dom : node) :
  let ann := newAnnotationFromSource source type text dom v in
  let v' := createAnnotationFromSource source type text dom v in
  Identity.isCurrentUser (Ann.author ann) (identity v') = true /\
  (forall source2 type2 text2 dom2,
      Ann.author (newAnnotationFromSource source2 type2 text2 dom2 v')
      = Ann.author ann) /\
  (forall block codeText type2 text2,
      Ann.author (newCodeBlockAnnotation block codeText type2 text2 v')
      = Ann.author ann).
Proof.
  cbn zeta.
  assert (Hid : identity (createAnnotationFromSource source type text dom v)
                = snd (Identity.getIdentity (identity v))) by reflexivity.
  assert (Ha : Ann.author (newAnnotationFromSource source type text dom v)
               = Some (fst (Identity.getIdentity (identity v)))).
  { unfold newAnnotationFromSource. now destruct (locate dom source). }
  split; [|split].
  - rewrite Hid, Ha. apply isCurrentUser_true.
    destruct (getIdentity_nonempty (identity v)) as (c & s & E).
    exists (fst (Identity.getIdentity (identity v))).
    repeat split; [rewrite E; discriminate | apply getIdentity_stored].
  - intros source2 type2 text2 dom2. rewrite Ha.
    unfold newAnnotationFromSource. destruct (locate dom2 source2).
    cbn [Ann.author]. now rewrite Hid, getIdentity_again.
  - intros block codeText type2 text2. rewrite Ha.
    unfold newCodeBlockAnnotation. cbn [Ann.author].
    now rewrite Hid, getIdentity_again.
Qed.

End AuthorFacts.

(** ** The identity helper over [localStorage] *)

Section LegacyIdentityFacts.

Import LegacyIdentity.

Local Open Scope string_scope.

Lemma indexOf_cons (x : ascii) (s pat : string) :
  indexOf (String x s) pat
  = if startsWith pat (String x s) then Some 0
    else option_map S (indexOf s pat).
Proof. reflexivity. Qed.

Lemma indexOf_after (a sep rest : string) (c : ascii) :
  indexOf a (String c "") = None ->
  indexOf (a +++ String c sep +++ rest) (String c sep) = Some (len a).
Proof.
  induction a as [|x a IH]; intros H.
  - change ("" +++ String c sep +++ rest) with (String c sep +++ rest).
    destruct (String c sep +++ rest) eqn:E; [discriminate|].
    rewrite indexOf_cons, <- E, startsWith_append. reflexivity.
  - rewrite indexOf_cons in H.
    change (startsWith (String c "") (String x a)) with (Ascii.eqb c x && true)
      in H.
    destruct (Ascii.eqb c x) eqn:Ex; [discriminate|]. cbn [andb] in H.
    destruct (indexOf a (String c "")) eqn:Ei; [discriminate|].
    change (String x a +++ String c sep +++ rest)
      with (String x (a +++ String c sep +++ rest)).
    rewrite indexOf_cons.
    change (startsWith (String c sep) (String x (a +++ String c sep +++ rest)))
      with (Ascii.eqb c x && startsWith sep (a +++ String c sep +++ rest)).
    rewrite Ex. cbn [andb]. now rewrite IH.
Qed.

(** The fuel of [split] is enough: more of it gives the same pieces. *)
Lemma splitFuel_enough (sep : string) :
  sep <> "" ->
  forall n s, len s <= n -> splitFuel (S n) s sep = splitFuel n s sep.
Proof.
  intros Hsep. induction n as [|n IH]; intros s Hl.
  - destruct s as [|c s];
      [|change (len (String c s)) with (S (len s)) in Hl; lia].
    destruct sep as [|x sep]; [congruence|]. reflexivity.
  - cbn [splitFuel]. destruct (indexOf s sep) as [i|]; [|reflexivity].
    f_equal. apply IH. rewrite len_drop.
    destruct sep as [|x sep]; [congruence|].
    change (len (String x sep)) with (S (len sep)). lia.
Qed.

(** The separator keeps compound words whole: when the generator returns
    an adjective and a noun around ["|||"], neither holding the separator,
    the identity is [adjective-noun-tater] with the two words as they were
    drawn, hyphens included. A result without the separator gives the
    noun [undefined]. *)
Theorem generateIdentity_splits (e : env) :
  (forall adjective noun,
      generated e = adjective +++ "|||" +++ noun ->
      indexOf adjective "|" = None ->
      indexOf noun "|||" = None ->
      generateIdentity e = adjective +++ "-" +++ noun +++ "-tater") /\
  (indexOf (generated e) "|||" = None ->
   generateIdentity e = generated e +++ "-undefined-tater").
Proof.
  split.
  - intros a n Hg Ha Hn. unfold generateIdentity, split. rewrite Hg.
    rewrite len_append.
    change (len ("|||" +++ n)) with (S (S (S (len n)))).
    rewrite Nat.add_succ_r. cbn [splitFuel].
    rewrite (indexOf_after a "||" n "|"%char Ha).
    rewrite take_append_l, take_all by lia.
    rewrite drop_append_r by (change (len "|||") with 3; lia).
    change (len "|||") with 3.
    replace (len a + 3 - len a) with 3 by lia.
    change (drop 3 ("|||" +++ n)) with n.
    destruct (len a + S (S (len n))); cbn [splitFuel]; rewrite Hn;
      reflexivity.
  - intros H. unfold generateIdentity, split.
    destruct (len (generated e)); cbn [splitFuel]; rewrite H; reflexivity.
Qed.

Lemma generateIdentity_splits_witness :
  generateIdentity {| getThrows := false; setThrows := false;
                      stored := None;
                      generated := "behind-the-scenes|||falcon" |}
  = "behind-the-scenes-falcon-tater".
Proof.
  apply (proj1 (generateIdentity_splits
                  {| getThrows := false; setThrows := false; stored := None;
                     generated := "behind-the-scenes|||falcon" |})
           "behind-the-scenes" "falcon"); reflexivity.
Defined.

Lemma legacy_generate_nonempty (e : env) :
  exists c s, generateIdentity e = String c s.
Proof.
  unfold generateIdentity.
  destruct (show (nth_error (split (generated e) "|||") 0)) as [|c s];
    cbn; eauto.
Qed.

(** With a [localStorage] that throws, nothing is lost but the memory:
    [getIdentity] still returns an identity that is not empty, but that
    identity is the current user afterwards only if reading works and
    either an identity was stored already or writing works. When reading
    throws, [isCurrentUser] is false for every author. *)
Theorem identity_without_storage (e : env) :
  fst (getIdentity e) <> "" /\
  (isCurrentUser (Some (fst (getIdentity e))) (snd (getIdentity e)) = true
   <-> getThrows e = false /\
       ((exists c s, stored e = Some (String c s)) \/ setThrows e = false)) /\
  (getThrows e = true -> forall author, isCurrentUser author e = false) /\
  (setThrows e = true -> snd (getIdentity e) = e).
Proof.
  destruct (legacy_generate_nonempty e) as (c & s & G).
  split; [|split; [|split]].
  - unfold getIdentity. destruct (getItem e) as [[|c' s']|]; cbn [fst];
      rewrite ?G; discriminate.
  - unfold getIdentity, getItem, saveIdentity, isCurrentUser.
    destruct (getThrows e) eqn:Eg, (setThrows e) eqn:Es,
      (stored e) as [[|c' s']|] eqn:Est;
      cbn [fst snd getThrows stored]; rewrite ?G, ?Eg, ?Est;
      cbn [getThrows stored]; rewrite ?String.eqb_refl;
      (split; [intros H; try discriminate H | intros [H1 H2]; try discriminate H1]);
      try (split; [reflexivity|]); eauto;
      try reflexivity;
      try (destruct H2 as [(? & ? & H2)|H2]; discriminate H2).
  - intros He author. unfold isCurrentUser. rewrite He.
    now destruct author as [[|? ?]|].
  - intros Hs. unfold getIdentity, saveIdentity. rewrite Hs.
    now destruct (getItem e) as [[|? ?]|].
Qed.

End LegacyIdentityFacts.

(** ** The settings dialog *)

Section SettingsFacts.

Import Settings.

Local Open Scope string_scope.

Lemma tracksStore_mount (e : Identity.env) : tracksStore e (mount e).
Proof.
  unfold tracksStore, mount. cbn. repeat split.
  - destruct H as [H|H]; [discriminate | congruence].
  - destruct H as [H|H]; [discriminate | congruence].
  - intros l o n H. now destruct l.
  - intros l1 o1 n1 o2 n2 l2 H. now destruct l1.
  - constructor.
  - now left.
  - discriminate.
  - discriminate.
  - discriminate.
Qed.

Lemma tracksStore_step (e : Identity.env) (s : state) (a : action) :
  tracksStore e s -> tracksStore e (step s a).
Proof.
  intros H. pose proof H as (H1 & H2 & H3 & H4 & H5 & H6).
  destruct a; cbn [step].
  - destruct (showDialog s) eqn:E; [exact H|].
    destruct (Identity.getIdentity (store s)) as [current store'] eqn:G.
    assert (Hs : Identity.stored store' = Some current).
    { pose proof (getIdentity_stored (store s)) as Hst.
      now rewrite G in Hst. }
    assert (Hn : current <> "").
    { destruct (getIdentity_nonempty (store s)) as (c & x & Hx).
      rewrite G in Hx. cbn in Hx. subst current. discriminate. }
    unfold tracksStore. cbn [showDialog identity store changes].
    split; [intros _; now split|].
    split; [|split; [exact H3 | split; [exact H4 | split; [|exact H6]]]].
    + intros l o n Hc. rewrite (H2 l o n Hc).
      assert (Hne' : changes s <> []) by (rewrite Hc; now destruct l).
      destruct (H1 (or_intror Hne')) as [Hst Hne].
      unfold Identity.getIdentity in G. rewrite Hst in G.
      destruct (identity s) as [|c x]; [congruence|]. now injection G as <- _.
    + intros Hnil. destruct (H5 Hnil) as [[Hst|Hst] _]; rewrite Hst in G.
      * rewrite G. cbn [fst snd]. auto.
      * rewrite getIdentity_again in G. injection G as <- <-. auto.
  - unfold tracksStore. cbn [showDialog identity store changes].
    split; [|split; [exact H2 | split; [exact H3 | split; [exact H4 |
              split; [|exact H6]]]]].
    + intros [K|K]; [discriminate|]. apply H1. now right.
    + intros Hnil. destruct (H5 Hnil) as [Hst _]. split; [exact Hst|].
      discriminate.
  - destruct (showDialog s) eqn:E; [|exact H].
    destruct (H1 (or_introl eq_refl)) as [Hst Hne].
    unfold handleRegenerateIdentity, Identity.regenerateIdentity.
    unfold tracksStore. cbn [showDialog identity store changes].
    destruct (generateIdentity_nonempty (store s)) as (c & x & G).
    cbn [Identity.stored Identity.saveIdentity].
    split; [|split; [|split; [|split; [|split]]]].
    + intros _. split; [reflexivity|]. rewrite G. discriminate.
    + intros l o n Hc. apply app_inj_tail in Hc as [_ Hc]. congruence.
    + intros l1 o1 n1 o2 n2 l2 Hc.
      assert (Hnil : (o2, n2) :: l2 <> []) by discriminate.
      destruct (exists_last Hnil) as (l2' & [o' n'] & Hl).
      destruct l2' as [|y l2'].
      * cbn in Hl. destruct l2; [|now destruct l2]. injection Hl as -> ->.
        change (l1 ++ [(o1, n1); (o', n')])%list
          with (l1 ++ [(o1, n1)] ++ [(o', n')])%list in Hc.
        rewrite app_assoc in Hc. apply app_inj_tail in Hc as [Hc Ho].
        injection Ho as <- _. symmetry. exact (H2 _ _ _ Hc).
      * cbn in Hl. injection Hl as <- ->.
        change (l1 ++ (o1, n1) :: (o2, n2) :: l2' ++ [(o', n')])%list
          with (l1 ++ ((o1, n1) :: (o2, n2) :: l2') ++ [(o', n')])%list in Hc.
        rewrite app_assoc in Hc. apply app_inj_tail in Hc as [Hc _].
        exact (H3 _ _ _ _ _ _ Hc).
    + apply Forall_app. split; [assumption|]. constructor; [|constructor].
      exact Hne.
    + intros Hnil. now destruct (changes s).
    + intros o n l Hc. destruct (changes s) as [|[o0 n0] l0] eqn:Ech.
      * cbn in Hc. injection Hc as <- _ _.
        destruct (H5 eq_refl) as [_ Hopen]. now destruct (Hopen eq_refl).
      * cbn in Hc. injection Hc as <- _ _. exact (H6 _ _ _ eq_refl).
Qed.

Lemma tracksStore_run (e : Identity.env) (actions : list action) :
  forall s, tracksStore e s -> tracksStore e (run actions s).
Proof.
  induction actions as [|a actions IH]; intros s H; [exact H|].
  apply IH, tracksStore_step, H.
Qed.

(** Whatever the user does with the dialog, it tracks the store: while the
    dialog is open the identity it shows is the stored one; the calls of
    [onIdentityChange] form a chain: the old identity of the first call is
    the identity of the device when the dialog was mounted (the stored one,
    or the one generated at the first opening), each later old identity is
    the new one of the call before, no old identity is empty, and the new
    identity of the last call is the one shown. *)
Theorem settings_track_the_store (e : Identity.env) (actions : list action) :
  let s := run actions (mount e) in
  (showDialog s = true -> Identity.stored (store s) = Some (identity s)) /\
  Forall (fun ch => fst ch <> "") (changes s) /\
  (forall o n l, changes s = (o, n) :: l ->
                 o = fst (Identity.getIdentity e)) /\
  (forall l1 o1 n1 o2 n2 l2,
      changes s = (l1 ++ (o1, n1) :: (o2, n2) :: l2)%list -> o2 = n1) /\
  (forall l o n, changes s = (l ++ [(o, n)])%list -> n = identity s).
Proof.
  cbn zeta.
  destruct (tracksStore_run e actions (mount e) (tracksStore_mount e))
    as (H1 & H2 & H3 & H4 & _ & H6).
  repeat split; auto. intros H. now apply H1; left.
Qed.

(** Two regenerations in a row report two different names: the generator is
    called anew each time. *)
Example settings_regenerate_twice :
  changes (run [OpenDialog; Regenerate; Regenerate] (mount Samples.anon))
  = [ ("swift-falcon-tater", "gentle-crystal-tater");
      ("gentle-crystal-tater", "brave-otter-tater") ].
Proof. reflexivity. Qed.

End SettingsFacts.

(** ** The sharing hook, once more *)

Section HashChangeFacts.

Import ShareCodec Sharing.

Local Open Scope string_scope.

(** A [hashchange] either leaves the session as it is or loads the link
    and clears the hash; in both cases the same event once more changes
    nothing, so no link is loaded twice and [onSharedLoad] is not called
    again. A hash of at most one character is never looked at. *)
Theorem hashchange_loads_once (s : state) :
  let s' := handleHashChange s in
  (s' = s \/
   (hash s' = "" /\ isSharedSession s' = true /\
    sharedLoads s' = S (sharedLoads s) /\
    pendingSharedAnnotations s' = Some (annotations s'))) /\
  handleHashChange s' = s' /\
  ((len (hash s) <= 1)%nat -> s' = s).
Proof.
  cbn zeta. unfold handleHashChange.
  destruct (1 <? len (hash s))%nat eqn:E.
  - unfold loadFromHash.
    destruct (parseShareHash (hash s)) as [payload|] eqn:P; cbn [snd].
    + split; [right; now repeat split|]. split; [reflexivity|].
      apply Nat.ltb_lt in E. lia.
    + split; [now left|]. split; [now rewrite E, P|].
      apply Nat.ltb_lt in E. lia.
  - split; [now left|]. split; [now rewrite E | reflexivity].
Qed.

End HashChangeFacts.

(** ** A batch of restored annotations, as a whole *)

Section BatchMore.

Import Dom Viewer.

Local Open Scope string_scope.

Lemma applyPlain_fold (anns : list Ann.t) (v : state)
    (a : attrs) (kids : list node) :
  container v = Some (Elem a kids) ->
  applyPlain anns v
  = if highlighter v then fold_left applyOnePlain anns v else v.
Proof.
  intros Hc. unfold applyPlain. rewrite Hc.
  now destruct (highlighter v).
Qed.

(** A batch of restored annotations, however long and whatever its ids,
    leaves the visible text as it was, removes no element that was there
    (an element that carries a given tag, class, [data-bind-id],
    [data-block-id] or highlight id before the batch is matched by an
    element after it), hands nothing to the store and touches neither the
    pending selection nor its toolbar. This holds also when the lookup of
    an id throws and ends the batch. *)
Theorem batch_keeps_text_and_marks (anns : list Ann.t) (v : state)
    (a : attrs) (kids : list node) :
  container v = Some (Elem a kids) ->
  let v' := applySharedAnnotations anns v in
  exists kids',
    container v' = Some (Elem a kids') /\
    textContent (Elem a kids') = textContent (Elem a kids) /\
    (forall sel : selector,
        anyDescendant sel (Elem a kids) = true ->
        anyDescendant sel (Elem a kids') = true) /\
    added v' = added v /\
    pendingSource v' = pendingSource v /\
    toolbarState v' = toolbarState v.
Proof.
  intros Hc. cbn zeta. unfold applySharedAnnotations. rewrite Hc.
  destruct (highlighter v).
  - destruct (forEach_keeps anns v a kids Hc)
      as (kids' & H1 & H2 & H3 & _ & _ & H4 & H5 & H6).
    exists kids'. repeat split; auto.
  - exists kids. repeat split; auto.
Qed.

Lemma batch_keeps_text_and_marks_witness :
  let v := Samples.viewerOn Samples.catNap in
  let anns := [ Samples.shared "ann-1" "at n" DELETION;
                Samples.shared "ann-2" "dog" COMMENT ] in
  let v' := applySharedAnnotations anns v in
  exists kids',
    container v' = Some (Elem (Samples.plain "article") kids') /\
    textContent (Elem (Samples.plain "article") kids')
    = textContent Samples.catNap /\
    (forall sel : selector,
        anyDescendant sel Samples.catNap = true ->
        anyDescendant sel (Elem (Samples.plain "article") kids') = true) /\
    added v' = added v /\
    pendingSource v' = pendingSource v /\
    toolbarState v' = toolbarState v.
Proof.
  intros v anns.
  apply (batch_keeps_text_and_marks anns v (Samples.plain "article")
           [ Elem (Samples.block "p" "block-0")
               [Text "ca"; Elem (Samples.plain "b") [Text "t nap"]];
             Elem (Samples.block "p" "block-1") [Text "cat"] ]).
  reflexivity.
Defined.

Lemma warnings_differ (x y : Ann.t) : notFoundWarning x <> failedWarning y.
Proof. unfold notFoundWarning, failedWarning. cbn. discriminate. Qed.

(** What a batch logs: it appends to the console, at most one line for
    each annotation, and every line is the warning that the text of one of
    its annotations was not found. The warning of a failed wrap is never
    logged: wrapping a range that the resolver returned does not fail. *)
Theorem batch_warns_only_not_found (anns : list Ann.t) (v : state)
    (a : attrs) (kids : list node) :
  container v = Some (Elem a kids) ->
  exists ws,
    warnings (applySharedAnnotations anns v) = (warnings v ++ ws)%list /\
    length ws <= length anns /\
    Forall (fun w => exists ann, In ann anns /\ w = notFoundWarning ann) ws /\
    forall ann, ~ In (failedWarning ann) ws.
Proof.
  intros Hc. unfold applySharedAnnotations. rewrite Hc.
  assert (Hno : forall ws,
             Forall (fun w => exists ann, In ann anns
                                          /\ w = notFoundWarning ann) ws ->
             forall ann, ~ In (failedWarning ann) ws).
  { intros ws Hf ann Hin. rewrite Forall_forall in Hf.
    destruct (Hf _ Hin) as (x & _ & E). symmetry in E.
    exact (warnings_differ _ _ E). }
  destruct (highlighter v).
  - destruct (forEach_warns anns v a kids Hc) as (ws & H1 & H2 & H3).
    exists ws. split; [exact H1|]. split; [exact H2|]. split; [exact H3|].
    now apply Hno.
  - exists []. rewrite app_nil_r. split; [reflexivity|].
    split; [cbn; lia|]. split; [constructor|]. intros ann [].
Qed.

Lemma batch_warns_only_not_found_witness :
  let v := Samples.viewerOn Samples.quickFox in
  let anns := [ Samples.shared "ann-1" "quick" DELETION;
                Samples.shared "ann-2" "lazy dog" COMMENT ] in
  exists ws,
    warnings (applySharedAnnotations anns v) = (warnings v ++ ws)%list /\
    length ws <= length anns /\
    Forall (fun w => exists ann, In ann anns /\ w = notFoundWarning ann) ws /\
    forall ann, ~ In (failedWarning ann) ws.
Proof.
  intros v anns.
  apply (batch_warns_only_not_found anns v (Samples.plain "article")
           [ Elem (Samples.block "p" "para-1") [Text "The quick brown fox"] ]).
  reflexivity.
Defined.

Lemma indexOf_in_empty (pat : string) :
  indexOf "" pat <> None -> pat = "".
Proof. destruct pat; [reflexivity | cbn; congruence]. Qed.

(** A batch of plain ids (no double quote, backslash, line break or
    U+0000 in any id, so that no lookup throws) misses no annotation that it
    can place: with the highlighter and the selection object there, every
    annotation of the batch whose text is not empty and occurs in the
    visible text has a mark with its id when the batch is done, whatever
    the other annotations did to the tree before its turn. *)
Theorem batch_marks_every_found_text (anns : list Ann.t) (v : state)
    (a : attrs) (kids : list node) (x : Ann.t) :
  highlighter v = true ->
  container v = Some (Elem a kids) ->
  hasSelection v = true ->
  Forall (fun y => plainId (Ann.id y) = true) anns ->
  In x anns ->
  Ann.originalText x <> "" ->
  indexOf (textContent (Elem a kids)) (Ann.originalText x) <> None ->
  exists kids',
    container (applySharedAnnotations anns v) = Some (Elem a kids') /\
    represented (Ann.id x) (Elem a kids') = true.
Proof.
  intros Hh Hc Hs Hp Hin Hne Hocc.
  rewrite (applySharedAnnotations_plain anns v Hp).
  rewrite (applyPlain_fold anns v a kids Hc), Hh.
  destruct (fold_all_settled true anns v a kids Hc Hs) as (kids' & Hc' & Hall).
  destruct (fold_applyOne_keeps anns v a kids Hc) as (kids2 & Hc2 & Htxt & _).
  rewrite Hc' in Hc2. injection Hc2 as <-.
  exists kids'. split; [exact Hc'|].
  destruct (Hall x Hin) as [Hr|Hnf]; [exact Hr|]. exfalso.
  destruct (textNodes (Elem a kids')) eqn:Et.
  - pose proof (texts_textNodes (Elem a kids')) as Ht. rewrite Et in Ht.
    cbn in Ht. rewrite Htxt in Ht. rewrite <- Ht in Hocc.
    exact (Hne (indexOf_in_empty _ Hocc)).
  - apply Hocc. rewrite <- Htxt. apply findTextInDOM_none; [exact Hnf|].
    rewrite Et. discriminate.
Qed.

Lemma batch_marks_every_found_text_witness :
  let v := Samples.viewerOn Samples.catNap in
  let x := Samples.shared "ann-2" "cat" COMMENT in
  let anns := [ Samples.shared "ann-1" "at n" DELETION; x ] in
  exists kids',
    container (applySharedAnnotations anns v)
    = Some (Elem (Samples.plain "article") kids') /\
    represented "ann-2" (Elem (Samples.plain "article") kids') = true.
Proof.
  intros v x anns.
  apply (batch_marks_every_found_text anns v (Samples.plain "article")
           [ Elem (Samples.block "p" "block-0")
               [Text "ca"; Elem (Samples.plain "b") [Text "t nap"]];
             Elem (Samples.block "p" "block-1") [Text "cat"] ] x);
    try reflexivity.
  - repeat constructor.
  - right. now left.
  - discriminate.
  - discriminate.
Defined.

End BatchMore.

(** ** Removal, once more *)

Section RemovalMore.

Import Dom Viewer.

Local Open Scope string_scope.

Lemma withContainer_same (v : state) (dom : node) :
  container v = Some dom -> withContainer dom v = v.
Proof. destruct v. cbn. now intros ->. Qed.

(** Unwrapping an element that a selector does not match keeps what the
    selector finds. *)
Lemma unwrapAt_others (sel' : selector) (p : path) :
  forall a kids b inner,
    p <> [] ->
    nodeAt p (Elem a kids) = Some (Elem b inner) ->
    sel' b = false ->
    exists kids',
      unwrapAt p (Elem a kids) = Elem a kids' /\
      existsb (anyMatch sel') kids' = existsb (anyMatch sel') kids.
Proof.
  induction p as [|i p IH]; intros a kids b inner Hp Hn Hb; [congruence|].
  cbn [nodeAt] in Hn. cbn [unwrapAt].
  destruct (nth_error kids i) as [k|] eqn:Ek; [|discriminate].
  destruct p as [|j p].
  - cbn [nodeAt] in Hn. injection Hn as ->.
    eexists. split; [reflexivity|].
    rewrite (anyOf_splice sel' i _ inner kids Ek),
      (anyOf_split sel' i _ kids Ek).
    cbn [anyMatch]. now rewrite Hb.
  - destruct k as [s|ak kk]; [discriminate|].
    destruct (IH ak kk b inner ltac:(discriminate) Hn Hb) as (kk' & -> & Hk).
    eexists. split; [reflexivity|].
    rewrite (anyOf_splice sel' i _ [Elem ak kk'] kids Ek),
      (anyOf_split sel' i _ kids Ek).
    cbn [existsb anyMatch]. now rewrite Hk, orb_false_r.
Qed.

Lemma matchesFrom_nonempty (sel : selector) (kids : list node) :
  forall i q, In q (matchesFrom sel i kids) -> q <> [].
Proof.
  intros i q H. destruct (matchesFrom_elem sel kids i q H) as (j & q' & k & -> & _).
  discriminate.
Qed.

Lemma removePlain_keeps (id : string) (sel' : selector) (v : state)
    (a : attrs) (kids : list node) :
  (forall b, sel' b = true ->
             highlightIdIs id b = false /\ bindIdIs id b = false) ->
  container v = Some (Elem a kids) ->
  exists kids',
    container (removePlain id v) = Some (Elem a kids') /\
    anyDescendant sel' (Elem a kids') = anyDescendant sel' (Elem a kids).
Proof.
  intros Hsel Hc. unfold removePlain. rewrite Hc.
  set (dom1 := if highlighter v then highlighterRemove id (Elem a kids)
               else Elem a kids).
  assert (H1 : exists kids1, dom1 = Elem a kids1 /\
                 anyDescendant sel' (Elem a kids1)
                 = anyDescendant sel' (Elem a kids)).
  { subst dom1. destruct (highlighter v); [|eauto].
    eexists. split; [reflexivity|].
    apply (highlighterRemove_others id sel' (Elem a kids)).
    intros b Hb. now apply Hsel. }
  destruct H1 as (kids1 & -> & Hk1).
  destruct (querySelector (bindIdIs id) (Elem a kids1)) as [p|] eqn:Eq;
    cbn [container withContainer]; [|eauto].
  destruct (querySelector_elem _ _ _ Eq) as (b & inner & Hn & Hb).
  assert (Hp : p <> []).
  { unfold querySelector, querySelectorAll in Eq.
    destruct (matchesFrom (bindIdIs id) 0 kids1) as [|q l] eqn:Em;
      [discriminate|]. injection Eq as <-.
    apply (matchesFrom_nonempty (bindIdIs id) kids1 0). rewrite Em. now left. }
  assert (Hb' : sel' b = false).
  { destruct (sel' b) eqn:E; [|reflexivity].
    destruct (Hsel b E) as [_ H]. congruence. }
  destruct (unwrapAt_others sel' p a kids1 b inner Hp Hn Hb') as (kids' & -> & Hk).
  exists kids'. split; [reflexivity|]. cbn [anyDescendant] in *. congruence.
Qed.

(** Removing a plain id (no double quote, backslash, line break or U+0000
    in it) that has no mark changes nothing at all: neither the tree nor
    the rest of the viewer. *)
Theorem removeHighlight_unknown_id (id : string) (v : state) (dom : node) :
  plainId id = true ->
  container v = Some dom ->
  represented id dom = false ->
  removeHighlight id v = v.
Proof.
  intros Hp Hc Hr. rewrite (removeHighlight_plain id v Hp).
  unfold removePlain. rewrite Hc.
  unfold represented in Hr. apply orb_false_iff in Hr as [Hh Hb].
  assert (Hd : (if highlighter v then highlighterRemove id dom else dom) = dom)
    by (destruct (highlighter v); [now apply highlighterRemove_id | reflexivity]).
  rewrite Hd. apply querySelector_none in Hb. rewrite Hb.
  now apply withContainer_same.
Qed.

Lemma removeHighlight_unknown_id_witness :
  removeHighlight "ann-9" (Samples.viewerOn Samples.catNap)
  = Samples.viewerOn Samples.catNap.
Proof.
  apply (removeHighlight_unknown_id "ann-9" (Samples.viewerOn Samples.catNap)
           Samples.catNap); reflexivity.
Defined.

(** Removing one annotation with a plain id (no double quote, backslash,
    line break or U+0000 in it) leaves the marks of the others. For every
    test on the attributes of one element (its tag, classes,
    [data-bind-id], [data-block-id], highlight id) that no mark of the
    removed id passes: some element passes the test after the removal
    exactly when some element passed it before. The visible text is
    unchanged. *)
Theorem removeHighlight_keeps_other_marks (id : string) (sel' : selector)
    (v : state) (a : attrs) (kids : list node) :
  plainId id = true ->
  (forall b, sel' b = true ->
             highlightIdIs id b = false /\ bindIdIs id b = false) ->
  container v = Some (Elem a kids) ->
  exists kids',
    container (removeHighlight id v) = Some (Elem a kids') /\
    anyDescendant sel' (Elem a kids') = anyDescendant sel' (Elem a kids) /\
    textContent (Elem a kids') = textContent (Elem a kids).
Proof.
  intros Hp Hsel Hc. rewrite (removeHighlight_plain id v Hp).
  destruct (removePlain_keeps id sel' v a kids Hsel Hc) as (kids' & H1 & H2).
  exists kids'. repeat split; auto.
  pose proof (removePlain_text id v) as Ht. unfold flatText in Ht.
  rewrite H1, Hc in Ht. cbn in Ht. now injection Ht.
Qed.

Lemma removeHighlight_keeps_other_marks_witness :
  let v := applySharedAnnotations
             [ Samples.shared "ann-1" "quick" DELETION;
               Samples.shared "ann-2" "fox" COMMENT ]
             (Samples.viewerOn Samples.quickFox) in
  let others : selector :=
    fun b => bindIdIs "ann-2" b && negb (highlightIdIs "ann-1" b) in
  exists kids',
    container (removeHighlight "ann-1" v)
    = Some (Elem (Samples.plain "article") kids') /\
    anyDescendant others (Elem (Samples.plain "article") kids') = true /\
    textContent (Elem (Samples.plain "article") kids') = "The quick brown fox".
Proof.
  intros v others.
  apply (removeHighlight_keeps_other_marks "ann-1" others v
           (Samples.plain "article")
           [ Elem (Samples.block "p" "para-1")
               [ Text "The ";
                 Elem (wrapperFor "ann-1" DELETION) [Text "quick"];
                 Text " brown ";
                 Elem (wrapperFor "ann-2" COMMENT) [Text "fox"];
                 Text "" ] ]).
  - reflexivity.
  - intros b. unfold others, bindIdIs, highlightIdIs, opt_string_eqb.
    destruct (dataBindId b) as [x|]; [|discriminate].
    destruct (String.eqb x "ann-2") eqn:E; [|discriminate].
    apply String.eqb_eq in E. subst x.
    destruct (dataHighlightId b) as [y|]; [|auto].
    destruct (String.eqb y "ann-1"); [discriminate | auto].
  - reflexivity.
Defined.




(** Clearing is idempotent: after [clearAllHighlights] a second call
    changes nothing, in the tree or elsewhere. The call itself touches
    only the tree: the pending selection, the toolbar and the store stay
    as they were. *)
Theorem clearAllHighlights_idempotent (v : state) :
  clearAllHighlights (clearAllHighlights v) = clearAllHighlights v /\
  pendingSource (clearAllHighlights v) = pendingSource v /\
  toolbarState (clearAllHighlights v) = toolbarState v /\
  added (clearAllHighlights v) = added v.
Proof.
  split.
  - destruct (container v) as [dom|] eqn:Hc;
      [|unfold clearAllHighlights; rewrite Hc; cbn; now rewrite Hc].
    set (clear := fun d => unwrapEach (hasClass "annotation-highlight")
                             (unwrapEach hasBindId d)).
    assert (H1 : clearAllHighlights v = withContainer (clear dom) v).
    { unfold clearAllHighlights. now rewrite Hc. }
    assert (H2 : clear (clear dom) = clear dom).
    { destruct dom as [s|a kids]; [reflexivity|].
      destruct (clearAllHighlights_clears v a kids Hc) as (kids' & Hc' & K1 & K2).
      rewrite H1 in Hc'. cbn [container withContainer] in Hc'.
      injection Hc' as Hc'. rewrite Hc'.
      apply querySelectorAll_none in K1, K2. subst clear. cbn beta.
      unfold unwrapEach at 2. rewrite K1. cbn [length unwrapFirst].
      unfold unwrapEach. rewrite K2. reflexivity. }
    rewrite H1. unfold clearAllHighlights. cbn [container withContainer].
    fold (clear (clear dom)). rewrite H2. reflexivity.
  - unfold clearAllHighlights. destruct (container v); auto.
Qed.

End RemovalMore.

(** ** The toolbar of a pending selection *)

Section ToolbarMore.

Import Dom Viewer.

Local Open Scope string_scope.

(** After [addClassWhere] every element that the selector matches has the
    class. *)
Lemma addClassWhere_classed (sel : selector) (cls : string) (n : node) :
  classBlind sel ->
  anyMatch (fun b => sel b && negb (hasClass cls b))
    (addClassWhere sel cls n) = false.
Proof.
  intros Hblind.
  induction n as [s|a kids IH] using node_induction; [reflexivity|].
  cbn [addClassWhere anyMatch]. apply orb_false_iff. split.
  - destruct (sel a) eqn:Es; [|now rewrite Es].
    destruct a as [tag cl b k h].
    cbn [tagName classList dataBindId dataBlockId dataHighlightId].
    rewrite (Hblind tag _ cl b k h), Es. cbn [andb].
    apply negb_false_iff.
    destruct (hasClass cls {| tagName := tag; classList := cl;
                              dataBindId := b; dataBlockId := k;
                              dataHighlightId := h |}) eqn:Eh.
    + exact Eh.
    + unfold hasClass. cbn [classList]. rewrite existsb_app. cbn [existsb].
      now rewrite String.eqb_refl, orb_true_r.
  - induction IH as [|k kids Hk _ IHk]; [reflexivity|].
    simpl. now rewrite Hk, IHk.
Qed.

Lemma addClassWhere_classed_below (sel : selector) (cls : string) (n : node) :
  classBlind sel ->
  anyDescendant (fun b => sel b && negb (hasClass cls b))
    (addClassWhere sel cls n) = false.
Proof.
  intros Hblind. pose proof (addClassWhere_classed sel cls n Hblind) as H.
  destruct n as [s|a kids]; [reflexivity|].
  cbn [addClassWhere anyMatch anyDescendant] in *.
  now apply orb_false_iff in H as [_ H].
Qed.

(** Closing the toolbar discards the selection it belongs to: the marks of
    that selection are unwrapped, nothing is pending, the toolbar is gone,
    the store has received nothing, the text is as before, and the marks
    of every other selection are where they were. *)
Theorem toolbar_close_discards_selection (v : state) (dom : node)
    (tb : ToolbarState) :
  container v = Some dom ->
  toolbarState v = Some tb ->
  highlighter v = true ->
  let v' := handleToolbarClose v in
  pendingSource v' = None /\
  toolbarState v' = None /\
  added v' = added v /\
  exists dom',
    container v' = Some dom' /\
    getDoms (srcId (tbSource tb)) dom' = [] /\
    textContent dom' = textContent dom /\
    forall id, id <> srcId (tbSource tb) ->
               anyDescendant (highlightIdIs id) dom'
               = anyDescendant (highlightIdIs id) dom.
Proof.
  intros Hc Ht Hh. cbn zeta. unfold handleToolbarClose. rewrite Hc, Ht, Hh.
  cbn. repeat split.
  exists (highlighterRemove (srcId (tbSource tb)) dom).
  split; [reflexivity|]. split; [apply highlighterRemove_gone|].
  split; [apply highlighterRemove_text|].
  intros id Hid. apply highlighterRemove_others.
  intros b. now apply highlightIdIs_other.
Qed.

Lemma toolbar_close_discards_selection_witness :
  let v := Samples.pendingA selection in
  let v' := handleToolbarClose v in
  pendingSource v' = None /\
  toolbarState v' = None /\
  added v' = added v /\
  exists dom',
    container v' = Some dom' /\
    getDoms "sel-a" dom' = [] /\
    textContent dom' = textContent Samples.twoSelections /\
    forall id, id <> "sel-a" ->
               anyDescendant (highlightIdIs id) dom'
               = anyDescendant (highlightIdIs id) Samples.twoSelections.
Proof.
  intros v.
  apply (toolbar_close_discards_selection v Samples.twoSelections
           {| tbElement := Some [0; 1]; tbSource := Samples.sourceA |});
    reflexivity.
Defined.

(** Classifying the pending selection commits it: the store receives one
    annotation with the id and text of the selection, the chosen type and
    the comment; nothing is pending and the toolbar is gone; the text and
    the marks of every selection are as before, and every mark of the
    committed selection carries the class of its type. Without an open
    toolbar the handler does nothing. *)
Theorem annotate_commits_pending_selection (v : state)
    (type : AnnotationType) (text : option string) :
  (toolbarState v = None -> handleAnnotate type text v = v) /\
  (forall dom tb,
      container v = Some dom ->
      toolbarState v = Some tb ->
      highlighter v = true ->
      let v' := handleAnnotate type text v in
      let id := srcId (tbSource tb) in
      pendingSource v' = None /\
      toolbarState v' = None /\
      exists ann dom',
        added v' = (added v ++ [ann])%list /\
        Ann.id ann = id /\
        Ann.type ann = type /\
        Ann.text ann = text /\
        Ann.originalText ann = srcText (tbSource tb) /\
        container v' = Some dom' /\
        textContent dom' = textContent dom /\
        (forall id', anyDescendant (highlightIdIs id') dom'
                     = anyDescendant (highlightIdIs id') dom) /\
        anyDescendant
          (fun b => highlightIdIs id b && negb (hasClass (typeClass type) b))
          dom' = false).
Proof.
  split.
  - intros H. unfold handleAnnotate. now rewrite H.
  - intros dom tb Hc Ht Hh. cbn zeta. unfold handleAnnotate.
    rewrite Hc, Ht, Hh. cbn [pendingSource toolbarState withPending].
    split; [reflexivity|]. split; [reflexivity|].
    exists (newAnnotationFromSource (tbSource tb) type text dom v),
      (highlighterAddClass (typeClass type) (srcId (tbSource tb)) dom).
    assert (Hf : forall ann,
               ann = newAnnotationFromSource (tbSource tb) type text dom v ->
               Ann.id ann = srcId (tbSource tb) /\ Ann.type ann = type /\
               Ann.text ann = text /\
               Ann.originalText ann = srcText (tbSource tb)).
    { intros ann ->. unfold newAnnotationFromSource.
      now destruct (locate dom (tbSource tb)). }
    destruct (Hf _ eq_refl) as (F1 & F2 & F3 & F4).
    split; [reflexivity|]. split; [exact F1|]. split; [exact F2|].
    split; [exact F3|]. split; [exact F4|]. split; [reflexivity|].
    split; [apply addClassWhere_text|]. split.
    + intros id'. apply addClassWhere_descendants, highlightIdIs_classBlind.
    + apply addClassWhere_classed_below, highlightIdIs_classBlind.
Qed.

End ToolbarMore.

(** ** The resolver, once more *)

Section ResolverMore.

Import Dom Resolver.

Local Open Scope string_scope.

Lemma slowWalk_end_bound (si sl : nat) (nodes : list (path * string)) :
  forall cc st st' en eo,
    slowWalk si sl cc (Some st) nodes = (Some st', Some (en, eo)) ->
    exists u, In (en, u) nodes /\ eo <= len u.
Proof.
  induction nodes as [|[p t] nodes IH]; intros cc st st' en eo; simpl;
    [discriminate|].
  destruct (si + sl <=? cc + len t)%nat eqn:E.
  - intros [= _ <- <-]. apply Nat.leb_le in E. exists t. split; [now left | lia].
  - intros H. destruct (IH _ _ _ _ _ H) as (u & Hin & Hle). eauto.
Qed.

Lemma slowWalk_bounds (si sl : nat) (nodes : list (path * string)) :
  forall cc sn so en eo,
    cc <= si ->
    slowWalk si sl cc None nodes = (Some (sn, so), Some (en, eo)) ->
    exists t u,
      In (sn, t) nodes /\ so < len t /\ In (en, u) nodes /\ eo <= len u.
Proof.
  induction nodes as [|[p t] nodes IH]; intros cc sn so en eo Hcc; simpl;
    [discriminate|].
  destruct (si <? cc + len t)%nat eqn:E1.
  - apply Nat.ltb_lt in E1.
    destruct (si + sl <=? cc + len t)%nat eqn:E2.
    + intros [= <- <- <- <-]. apply Nat.leb_le in E2.
      exists t, t. repeat split; auto; lia.
    + intros H. pose proof H as H'.
      apply slowWalk_started in H' as [[= -> ->] _].
      destruct (slowWalk_end_bound _ _ _ _ _ _ _ _ H) as (u & Hin & Hle).
      exists t, u. repeat split; auto. lia.
  - apply Nat.ltb_ge in E1. intros H.
    destruct (IH _ _ _ _ _ E1 H) as (t' & u & H1 & H2 & H3 & H4).
    exists t', u. auto.
Qed.

(** Every range that the resolver returns is one that the DOM accepts
    and that reads back the text: its two boundary points are text nodes
    of the document, each offset lies within the data of its node, the
    start is not after the end, and the text of the range is the text
    looked for. So [setStart] and [setEnd] never throw, and a range is
    never returned for a text that the document does not hold. *)
Theorem findTextInDOM_range_is_sound (dom : node) (sel : bool) (pat : string)
    (r : Range) :
  findTextInDOM dom sel pat = Some r ->
  (exists t u,
      nodeAt (startContainer r) dom = Some (Text t) /\
      startOffset r <= len t /\
      nodeAt (endContainer r) dom = Some (Text u) /\
      endOffset r <= len u) /\
  ((startContainer r = endContainer r /\ startOffset r <= endOffset r)
   \/ path_lt (startContainer r) (endContainer r)) /\
  rangeToString dom r = Some pat /\
  indexOf (textContent dom) pat <> None.
Proof.
  intros H.
  destruct (findTextInDOM_valid dom sel pat r H) as (_ & _ & Hord).
  split; [|split; [exact Hord|split; [now apply (findTextInDOM_sound dom sel)|]]].
  - unfold findTextInDOM in H.
    destruct (fastPath pat (textNodes dom)) as [r'|] eqn:Ef.
    + injection H as <-.
      destruct (fastPath_found _ _ _ Ef)
        as (before & p & t & after & Hn & _ & Hi & ->).
      cbn [startContainer startOffset endContainer endOffset].
      assert (Hin : In (p, t) (textNodes dom))
        by (rewrite Hn; apply in_or_app; right; now left).
      apply textNodes_nodeAt in Hin.
      apply indexOf_occurs in Hi as [Hocc _].
      pose proof (occursAt_bound _ _ _ Hocc).
      exists t, t. repeat split; auto; lia.
    + destruct (indexOf (textContent dom) pat) as [i|]; [|discriminate].
      destruct (negb sel); [discriminate|].
      destruct (slowWalk i (len pat) 0 None (textNodes dom))
        as [[[sn so]|] [[en eo]|]] eqn:Ew; try discriminate.
      injection H as <-.
      cbn [startContainer startOffset endContainer endOffset].
      destruct (slowWalk_bounds _ _ _ _ _ _ _ _ (Nat.le_0_l i) Ew)
        as (t & u & H1 & H2 & H3 & H4).
      apply textNodes_nodeAt in H1, H3.
      exists t, u. repeat split; auto. lia.
  - intros Habs. rewrite (findTextInDOM_absent dom sel pat Habs) in H.
    discriminate.
Qed.

Lemma findTextInDOM_range_is_sound_witness :
  let r := {| startContainer := [0; 0]; startOffset := 1;
              endContainer := [0; 1; 0]; endOffset := 3 |} in
  (exists t u,
      nodeAt (startContainer r) Samples.catNap = Some (Text t) /\
      startOffset r <= len t /\
      nodeAt (endContainer r) Samples.catNap = Some (Text u) /\
      endOffset r <= len u) /\
  ((startContainer r = endContainer r /\ startOffset r <= endOffset r)
   \/ path_lt (startContainer r) (endContainer r)) /\
  rangeToString Samples.catNap r = Some "at n" /\
  indexOf (textContent Samples.catNap) "at n" <> None.
Proof.
  intros r.
  apply (findTextInDOM_range_is_sound Samples.catNap true "at n" r).
  reflexivity.
Defined.

Lemma fastPath_some (pat : string) (nodes : list (path * string)) :
  fastPath pat nodes <> None <->
  exists p t, In (p, t) nodes /\ indexOf t pat <> None.
Proof.
  split.
  - destruct (fastPath pat nodes) as [r|] eqn:E; [|congruence]. intros _.
    destruct (fastPath_found _ _ _ E) as (before & p & t & after & -> & _ & Hi & _).
    exists p, t. split; [apply in_or_app; right; now left | congruence].
  - intros (p & t & Hin & Hi) E.
    exact (Hi (fastPath_absent pat nodes E p t Hin)).
Qed.

(** The resolver needs the selection object only to reach across text
    nodes, although it never uses it: without the object it finds a text
    exactly when some single text node holds it, and then with the same
    range as with the object; a text that spans two nodes is not found. *)
Theorem resolver_without_selection (dom : node) (pat : string) :
  (findTextInDOM dom false pat <> None <->
   exists p t, In (p, t) (textNodes dom) /\ indexOf t pat <> None) /\
  (forall r, findTextInDOM dom false pat = Some r ->
             findTextInDOM dom true pat = Some r /\
             startContainer r = endContainer r).
Proof.
  unfold findTextInDOM. split.
  - rewrite <- fastPath_some.
    destruct (fastPath pat (textNodes dom)); [tauto|].
    destruct (indexOf (textContent dom) pat); cbn; tauto.
  - intros r.
    destruct (fastPath pat (textNodes dom)) as [r'|] eqn:E.
    + intros [= <-]. split; [reflexivity|].
      now destruct (fastPath_found _ _ _ E) as (? & ? & ? & ? & _ & _ & _ & ->).
    + destruct (indexOf (textContent dom) pat); cbn; discriminate.
Qed.

End ResolverMore.

(** ** Annotating a code block and taking the annotation back *)

Section CodeBlockMore.

Import Dom Viewer.

Local Open Scope string_scope.

Lemma matchesFrom_app (sel : selector) (A B : list node) :
  forall i,
    matchesFrom sel i (A ++ B)%list
    = (matchesFrom sel i A ++ matchesFrom sel (i + length A) B)%list.
Proof.
  induction A as [|k A IH]; intros i.
  - cbn [app length]. rewrite Nat.add_0_r. reflexivity.
  - cbn [app length]. rewrite !matchesFrom_cons, IH, <- app_assoc.
    now rewrite Nat.add_succ_r.
Qed.

Lemma spliceKid_same (i : nat) (k : node) (kids : list node) :
  nth_error kids i = Some k -> spliceKid i [k] kids = kids.
Proof. intros H. unfold spliceKid. symmetry. now apply kids_split. Qed.

(** One level of the descent: the wrapper is the first match below, and
    unwrapping it gives the children back. *)
Lemma surround_unwrap_kids (sel : selector) (i : nat) (P : path)
    (kids : list node) (k k' : node) (a : attrs) :
  existsb (anyMatch sel) kids = false ->
  nth_error kids i = Some k ->
  hd_error (matchesIn sel k') = Some (P ++ [0])%list ->
  unwrapAt (P ++ [0])%list k' = k ->
  hd_error (matchesFrom sel 0 (spliceKid i [k'] kids))
  = Some (i :: P ++ [0])%list /\
  unwrapAt (i :: P ++ [0])%list (Elem a (spliceKid i [k'] kids)) = Elem a kids.
Proof.
  intros Hno Ek Hhd Hun. split.
  - unfold spliceKid. rewrite matchesFrom_app.
    destruct (anyOf_false_split sel i k kids Ek Hno) as (Hf & _ & _).
    apply (matchesFrom_none sel (firstn i kids) 0) in Hf. rewrite Hf.
    cbn [app]. rewrite (firstn_length_nth i k kids Ek). cbn [Nat.add].
    rewrite matchesFrom_cons.
    destruct (matchesIn sel k') as [|x l]; [discriminate|].
    injection Hhd as ->. reflexivity.
  - cbn [unwrapAt]. rewrite (nth_error_splice i k k' kids Ek).
    destruct (P ++ [0])%list as [|j P'] eqn:EP;
      [now destruct P|].
    rewrite Hun, (splice_splice i k k' [k] kids Ek).
    now rewrite (spliceKid_same i k kids Ek).
Qed.

Lemma surround_unwrap (sel : selector) (w : attrs) (P : path) :
  forall n n',
    sel w = true ->
    anyMatch sel n = false ->
    surroundNodeContents P w n = Some n' ->
    hd_error (matchesIn sel n') = Some (P ++ [0])%list /\
    unwrapAt (P ++ [0])%list n' = n.
Proof.
  induction P as [|i P IH]; intros [s|a kids] n' Hw Hn; cbn [surroundNodeContents];
    try discriminate.
  - intros [= <-]. cbn [anyMatch] in Hn. apply orb_false_iff in Hn as [Ha _].
    split.
    + rewrite matchesIn_Elem, Ha, matchesFrom_cons, matchesIn_Elem, Hw.
      reflexivity.
    + cbn. unfold spliceKid. cbn. now rewrite app_nil_r.
  - destruct (nth_error kids i) as [k|] eqn:Ek; [|discriminate].
    destruct (surroundNodeContents P w k) as [k'|] eqn:Es; [|discriminate].
    intros [= <-]. cbn [anyMatch] in Hn. apply orb_false_iff in Hn as [Ha Hk].
    destruct (anyOf_false_split sel i k kids Ek Hk) as (_ & Hkk & _).
    destruct (IH k k' Hw Hkk Es) as [H1 H2].
    destruct (surround_unwrap_kids sel i P kids k k' a Hk Ek H1 H2) as [K1 K2].
    split; [|exact K2].
    rewrite matchesIn_Elem, Ha. exact K1.
Qed.

Lemma surround_no_new (sel : selector) (w : attrs) (P : path) :
  forall n n',
    sel w = false ->
    surroundNodeContents P w n = Some n' ->
    anyMatch sel n' = anyMatch sel n.
Proof.
  induction P as [|i P IH]; intros [s|a kids] n' Hw; cbn [surroundNodeContents];
    try discriminate.
  - intros [= <-]. cbn [anyMatch existsb]. now rewrite Hw, orb_false_r.
  - destruct (nth_error kids i) as [k|] eqn:Ek; [|discriminate].
    destruct (surroundNodeContents P w k) as [k'|] eqn:Es; [|discriminate].
    intros [= <-]. cbn [anyMatch]. f_equal.
    rewrite (anyOf_splice sel i k [k'] kids Ek), (anyOf_split sel i k kids Ek).
    cbn [existsb]. now rewrite (IH k k' Hw Es), orb_false_r.
Qed.

Lemma code_block_undone (v : state) (type : AnnotationType)
    (text : option string) (dom element : node) (hov : HoveredCodeBlock)
    (q : path) :
  hoveredCodeBlock v = Some hov ->
  highlighter v = true ->
  container v = Some dom ->
  nodeAt (hovElement hov) dom = Some element ->
  querySelector (tagIs "code") element = Some q ->
  represented ("codeblock-" +++ numberToString (now v)) dom = false ->
  let id := "codeblock-" +++ numberToString (now v) in
  let v1 := handleCodeBlockAnnotate type text v in
  (exists ann, added v1 = (added v ++ [ann])%list /\ Ann.id ann = id) /\
  hoveredCodeBlock v1 = None /\
  (exists dom1, container v1 = Some dom1 /\ represented id dom1 = true) /\
  container (removeHighlight id v1) = Some dom.
Proof.
  intros Hh Hl Hc He Hq Hr. cbn zeta.
  set (id := "codeblock-" +++ numberToString (now v)) in *.
  destruct (querySelector_elem _ _ _ Hq) as (ca & ck & Hcode & _).
  pose proof (nodeAt_app _ q _ _ He) as Hpath. rewrite Hcode in Hpath.
  destruct (surroundNodeContents_ok (wrapperFor id type) _ _ _ _ Hpath)
    as (dom' & Hs & _).
  assert (Hv1 : handleCodeBlockAnnotate type text v
                = withHovered None
                    (addAnnotation
                       (newCodeBlockAnnotation (hovBlock hov)
                          (textContent (Elem ca ck)) type text v)
                       (snd (Identity.getIdentity (identity v)))
                       (withContainer dom' v))).
  { unfold handleCodeBlockAnnotate. rewrite Hh, Hl, Hc, He, Hq, Hcode.
    cbn zeta. fold id. now rewrite Hs. }
  rewrite Hv1.
  (* the path to the [code] element is not empty *)
  assert (Hqne : q <> []).
  { unfold querySelector, querySelectorAll in Hq.
    destruct element as [s|ea ek]; [discriminate|].
    destruct (matchesFrom (tagIs "code") 0 ek) as [|x l] eqn:Em;
      [discriminate|]. injection Hq as <-.
    apply (matchesFrom_nonempty (tagIs "code") ek 0). rewrite Em. now left. }
  destruct (hovElement hov ++ q)%list as [|i P] eqn:EP.
  { apply app_eq_nil in EP as [_ EP]. congruence. }
  destruct dom as [s|a kids]; [discriminate|].
  cbn [surroundNodeContents] in Hs.
  destruct (nth_error kids i) as [k|] eqn:Ek; [|discriminate].
  destruct (surroundNodeContents P (wrapperFor id type) k) as [k'|] eqn:Esk;
    [|discriminate].
  injection Hs as <-.
  unfold represented in Hr. apply orb_false_iff in Hr as [Hrh Hrb].
  cbn [anyDescendant] in Hrh, Hrb.
  destruct (anyOf_false_split _ i k kids Ek Hrb) as (_ & Hkb & _).
  assert (Hw : bindIdIs id (wrapperFor id type) = true)
    by apply String.eqb_refl.
  destruct (surround_unwrap (bindIdIs id) (wrapperFor id type) P k k'
              Hw Hkb Esk) as [H1 H2].
  destruct (surround_unwrap_kids (bindIdIs id) i P kids k k' a Hrb Ek H1 H2)
    as [K1 K2].
  assert (Hh' : existsb (anyMatch (highlightIdIs id)) (spliceKid i [k'] kids)
                = false).
  { rewrite (anyOf_splice _ i k [k'] kids Ek). cbn [existsb].
    rewrite (surround_no_new (highlightIdIs id) (wrapperFor id type) P k k'
               eq_refl Esk).
    rewrite orb_false_r, <- (anyOf_split _ i k kids Ek). exact Hrh. }
  split; [|split; [|split]].
  - eexists. split; [reflexivity|]. reflexivity.
  - reflexivity.
  - eexists. split; [reflexivity|].
    unfold represented. apply orb_true_iff. right.
    apply not_false_iff_true. intros Hn.
    apply querySelectorAll_none in Hn. cbn [querySelectorAll] in Hn.
    rewrite Hn in K1. discriminate.
  - rewrite (removeHighlight_plain id _ (plainId_codeblock (now v))).
    unfold removePlain.
    cbn [container withHovered addAnnotation withContainer highlighter].
    rewrite Hl, (highlighterRemove_id id (Elem a (spliceKid i [k'] kids)) Hh').
    unfold querySelector, querySelectorAll. rewrite K1.
    cbn [container withContainer]. now rewrite K2.
Qed.

(** Annotating the hovered code block and removing the annotation again
    gives the tree back, node for node, when the id that the clock gives
    the annotation has no mark yet: the wrapper takes all the children of
    the [code] element, it is the one element with that id, and removing
    it puts the children back in its place. In between, the store has
    received one annotation with that id and the hover state is cleared. *)
Theorem code_block_annotation_round_trip (v : state) (type : AnnotationType)
    (text : option string) (dom element : node) (hov : HoveredCodeBlock)
    (q : path) :
  hoveredCodeBlock v = Some hov ->
  highlighter v = true ->
  container v = Some dom ->
  nodeAt (hovElement hov) dom = Some element ->
  querySelector (tagIs "code") element = Some q ->
  represented ("codeblock-" +++ numberToString (now v)) dom = false ->
  let id := "codeblock-" +++ numberToString (now v) in
  let v1 := handleCodeBlockAnnotate type text v in
  (exists ann, added v1 = (added v ++ [ann])%list /\ Ann.id ann = id) /\
  hoveredCodeBlock v1 = None /\
  (exists dom1, container v1 = Some dom1 /\ represented id dom1 = true) /\
  container (removeHighlight id v1) = Some dom.
Proof. exact (code_block_undone v type text dom element hov q). Qed.

Lemma code_block_annotation_round_trip_witness :
  let v := Samples.hoveringCode in
  let id := "codeblock-1700000000000" in
  let v1 := handleCodeBlockAnnotate DELETION None v in
  (exists ann, added v1 = (added v ++ [ann])%list /\ Ann.id ann = id) /\
  hoveredCodeBlock v1 = None /\
  (exists dom1, container v1 = Some dom1 /\ represented id dom1 = true) /\
  container (removeHighlight id v1) = Some Samples.withCode.
Proof.
  intros v.
  apply (code_block_annotation_round_trip v DELETION None Samples.withCode
           (Samples.codeBlock "block-2" "npm test")
           {| hovBlock := Samples.shellBlock; hovElement := [1] |}
           [1; 0]);
    reflexivity.
Defined.

End CodeBlockMore.

(** ** The restyling effect *)

Section RestyleFacts.

Import Dom Viewer Restyle.

Local Open Scope string_scope.

Lemma hasClass_grows (c1 c2 : string) (sel : selector) (a : attrs) :
  hasClass c1 a = true ->
  hasClass c1
    {| tagName := tagName a;
       classList := if hasClass c2 a then classList a
                    else (classList a ++ [c2])%list;
       dataBindId := dataBindId a; dataBlockId := dataBlockId a;
       dataHighlightId := dataHighlightId a |} = true.
Proof.
  unfold hasClass. cbn [classList]. intros H.
  destruct (existsb (String.eqb c2) (classList a)); [exact H|].
  rewrite existsb_app, H. reflexivity.
Qed.

(** Classes only grow: a mark that is styled stays styled. *)
Lemma addClassWhere_keeps_styled (sel : selector) (cls id c : string)
    (n : node) :
  anyMatch (unstyled id c) n = false ->
  anyMatch (unstyled id c) (addClassWhere sel cls n) = false.
Proof.
  induction n as [s|a kids IH] using node_induction; [reflexivity|].
  cbn [addClassWhere anyMatch]. intros H.
  apply orb_false_iff in H as [Ha Hk]. apply orb_false_iff. split.
  - destruct (sel a); [|exact Ha]. unfold unstyled in *.
    assert (Hid : highlightIdIs id
              {| tagName := tagName a;
                 classList := if hasClass cls a then classList a
                              else (classList a ++ [cls])%list;
                 dataBindId := dataBindId a; dataBlockId := dataBlockId a;
                 dataHighlightId := dataHighlightId a |}
            = highlightIdIs id a) by reflexivity.
    rewrite Hid. destruct (highlightIdIs id a); [|reflexivity].
    cbn [andb] in *. apply negb_false_iff in Ha. apply negb_false_iff.
    now apply hasClass_grows.
  - induction IH as [|k kids Hk' _ IHk]; [reflexivity|].
    cbn [existsb] in Hk. apply orb_false_iff in Hk as [H1 H2].
    simpl. now rewrite (Hk' H1), (IHk H2).
Qed.

(** Where every matching element has the class already, adding it changes
    nothing. *)
Lemma addClassWhere_noop (sel : selector) (cls : string) (n : node) :
  anyMatch (fun b => sel b && negb (hasClass cls b)) n = false ->
  addClassWhere sel cls n = n.
Proof.
  induction n as [s|a kids IH] using node_induction; [reflexivity|].
  cbn [addClassWhere anyMatch]. intros H.
  apply orb_false_iff in H as [Ha Hk]. f_equal.
  - destruct (sel a); [|reflexivity]. cbn [andb] in Ha.
    apply negb_false_iff in Ha. rewrite Ha. now destruct a.
  - induction IH as [|k kids Hk' _ IHk]; [reflexivity|].
    cbn [existsb] in Hk. apply orb_false_iff in Hk as [H1 H2].
    simpl. now rewrite (Hk' H1), (IHk H2).
Qed.

Lemma unstyled_none (id cls : string) (n : node) :
  anyMatch (highlightIdIs id) n = false ->
  anyMatch (unstyled id cls) n = false.
Proof.
  induction n as [s|a kids IH] using node_induction; [reflexivity|].
  cbn [anyMatch]. intros H. apply orb_false_iff in H as [Ha Hk].
  apply orb_false_iff. split; [unfold unstyled; now rewrite Ha|].
  induction IH as [|k kids Hk' _ IHk]; [reflexivity|].
  cbn [existsb] in *. apply orb_false_iff in Hk as [H1 H2].
  now rewrite (Hk' H1), (IHk H2).
Qed.

Lemma unstyled_none_below (id cls : string) (dom : node) :
  anyDescendant (highlightIdIs id) dom = false ->
  anyDescendant (unstyled id cls) dom = false.
Proof.
  destruct dom as [s|a kids]; [reflexivity|]. cbn [anyDescendant].
  induction kids as [|k kids IH]; [reflexivity|].
  cbn [existsb]. intros H. apply orb_false_iff in H as [H1 H2].
  now rewrite (unstyled_none _ _ k H1), (IH H2).
Qed.

Lemma anyMatch_below (sel : selector) (dom : node) :
  anyMatch sel dom = false -> anyDescendant sel dom = false.
Proof.
  destruct dom as [s|a kids]; [reflexivity|]. cbn [anyMatch anyDescendant].
  intros H. now apply orb_false_iff in H as [_ H].
Qed.

Lemma restyleOne_text (dom : node) (ann : Ann.t) :
  textContent (restyleOne dom ann) = textContent dom.
Proof.
  unfold restyleOne. destruct (getDoms _ _); [reflexivity|].
  apply addClassWhere_text.
Qed.

Lemma restyleOne_marks (dom : node) (ann : Ann.t) (sel' : selector) :
  classBlind sel' ->
  anyDescendant sel' (restyleOne dom ann) = anyDescendant sel' dom.
Proof.
  intros Hb. unfold restyleOne. destruct (getDoms _ _); [reflexivity|].
  now apply addClassWhere_descendants.
Qed.

Lemma restyleOne_styles (dom : node) (ann : Ann.t) :
  styled ann (restyleOne dom ann).
Proof.
  unfold styled, restyleOne.
  destruct (getDoms (Ann.id ann) dom) as [|p l] eqn:Eg; [now left|].
  right. apply (addClassWhere_classed (highlightIdIs (Ann.id ann))).
  apply highlightIdIs_classBlind.
Qed.

Lemma restyleOne_keeps_styled (dom : node) (ann x : Ann.t) :
  styled x dom -> styled x (restyleOne dom ann).
Proof.
  unfold styled. intros [H|H].
  - left. unfold getDoms in *. apply querySelectorAll_none.
    rewrite restyleOne_marks by apply highlightIdIs_classBlind.
    now apply querySelectorAll_none.
  - right. unfold restyleOne. destruct (getDoms _ _); [exact H|].
    now apply addClassWhere_keeps_styled.
Qed.

Lemma restyleOne_done (dom : node) (x : Ann.t) :
  styled x dom -> restyleOne dom x = dom.
Proof.
  unfold styled, restyleOne. intros [->|H]; [reflexivity|].
  destruct (getDoms _ _); [reflexivity|]. now apply addClassWhere_noop.
Qed.

Lemma fold_restyle_facts (anns : list Ann.t) :
  forall dom,
    textContent (fold_left restyleOne anns dom) = textContent dom /\
    (forall sel', classBlind sel' ->
       anyDescendant sel' (fold_left restyleOne anns dom)
       = anyDescendant sel' dom) /\
    (forall x, styled x dom -> styled x (fold_left restyleOne anns dom)) /\
    (forall x, In x anns -> styled x (fold_left restyleOne anns dom)).
Proof.
  induction anns as [|y anns IH]; intros dom; cbn [fold_left].
  - repeat split; auto. intros x [].
  - destruct (IH (restyleOne dom y)) as (H1 & H2 & H3 & H4).
    split; [now rewrite H1, restyleOne_text|].
    split; [intros sel' Hb; now rewrite (H2 sel' Hb), restyleOne_marks|].
    split; [intros x Hx; now apply H3, restyleOne_keeps_styled|].
    intros x [<-|Hin]; [apply H3, restyleOne_styles | now apply H4].
Qed.

Lemma fold_restyle_done (anns : list Ann.t) (dom : node) :
  (forall x, In x anns -> styled x dom) ->
  fold_left restyleOne anns dom = dom.
Proof.
  induction anns as [|y anns IH]; intros H; [reflexivity|].
  cbn [fold_left]. rewrite (restyleOne_done dom y (H y (or_introl eq_refl))).
  apply IH. intros x Hx. apply H. now right.
Qed.

(** The restyling effect only adds classes: the text is as before, every
    selector that does not look at classes finds what it found, so no mark
    comes or goes; afterwards every mark that the highlighter holds for an
    annotation of the list carries the class of its type; and the effect
    run again on the same list changes nothing. *)
Theorem restyle_only_adds_classes (annotations : list Ann.t) (v : state)
    (dom : node) :
  highlighter v = true ->
  container v = Some dom ->
  let v' := restyle annotations v in
  exists dom',
    container v' = Some dom' /\
    textContent dom' = textContent dom /\
    (forall sel', classBlind sel' ->
                  anyDescendant sel' dom' = anyDescendant sel' dom) /\
    (forall x, In x annotations ->
               anyDescendant
                 (unstyled (Ann.id x) (typeClass (Ann.type x))) dom' = false) /\
    restyle annotations v' = v'.
Proof.
  intros Hh Hc. cbn zeta.
  assert (Hv : restyle annotations v
               = withContainer (fold_left restyleOne annotations dom) v)
    by (unfold restyle; now rewrite Hh, Hc).
  rewrite Hv.
  destruct (fold_restyle_facts annotations dom) as (H1 & H2 & _ & H4).
  exists (fold_left restyleOne annotations dom).
  split; [reflexivity|]. split; [exact H1|]. split; [exact H2|]. split.
  - intros x Hin. destruct (H4 x Hin) as [H|H].
    + apply unstyled_none_below. now apply querySelectorAll_none.
    + now apply anyMatch_below.
  - unfold restyle. cbn [highlighter container withContainer]. rewrite Hh.
    now rewrite (fold_restyle_done annotations _ H4).
Qed.

Lemma restyle_only_adds_classes_witness :
  let v := Samples.viewerOn Samples.twoSelections in
  let anns := [ Samples.shared "sel-a" "quick" DELETION;
                Samples.shared "sel-b" "fox" COMMENT ] in
  let v' := restyle anns v in
  exists dom',
    container v' = Some dom' /\
    textContent dom' = textContent Samples.twoSelections /\
    (forall sel', classBlind sel' ->
                  anyDescendant sel' dom'
                  = anyDescendant sel' Samples.twoSelections) /\
    (forall x, In x anns ->
               anyDescendant
                 (unstyled (Ann.id x) (typeClass (Ann.type x))) dom' = false) /\
    restyle anns v' = v'.
Proof.
  intros v anns.
  apply (restyle_only_adds_classes anns v Samples.twoSelections);
    reflexivity.
Defined.

End RestyleFacts.

(** ** Claims on the record of a commit *)

Section CommitClaim.

Import Dom Viewer.

Local Open Scope string_scope.



End CommitClaim.

(** ** Claims on the application of shared annotations *)

Section ApplyClaims.

Import Dom Viewer.

Local Open Scope string_scope.

(** C9: when [surroundContents] refuses the range of an annotation because
    the range cuts through an element, the extract-and-reinsert fallback
    runs: [extractContents] takes the contents of the range out of the
    tree, they become the children of the wrapper, and [insertNode] puts
    the wrapper where the range has collapsed. The wrapper is then in the
    tree and encloses exactly the text of the range, which is the text of
    the annotation; the flattened text of the document is the same as
    before; when no element carried the id before, the wrapper is the one
    element that carries it; and nothing is logged or thrown. The theorem
    speaks of an annotation that reaches the wrap: neither lookup has found
    its id. *)
Theorem wrap_conflict_falls_back (v : state) (ann : Ann.t) (a : attrs)
    (kids : list node) (r : Range) :
  container v = Some (Elem a kids) ->
  getDoms (Ann.id ann) (Elem a kids) = [] ->
  queryBindId v (Ann.id ann) (Elem a kids) = Normal None ->
  Resolver.findTextInDOM (Elem a kids) (hasSelection v) (Ann.originalText ann)
    = Some r ->
  partiallyContainsElement r = true ->
  let wrapper := wrapperFor (Ann.id ann) (Ann.type ann) in
  surroundContents r wrapper (Elem a kids) = Throw "InvalidStateError" /\
  rangeToString (Elem a kids) r = Some (Ann.originalText ann) /\
  exists dom1 fragment bp bo dom2,
    extractContents r (Elem a kids) = Some (dom1, fragment, (bp, bo)) /\
    insertNode bp bo (appendChild (Elem wrapper []) fragment) dom1
      = Some dom2 /\
    applyOne v ann = Normal (withContainer dom2 v) /\
    textOfList fragment = Ann.originalText ann /\
    (exists q, nodeAt q dom2 = Some (Elem wrapper fragment)) /\
    textContent dom2 = textContent (Elem a kids) /\
    (anyDescendant (bindIdIs (Ann.id ann)) (Elem a kids) = false ->
     length (querySelectorAll (bindIdIs (Ann.id ann)) dom2) = 1) /\
    warnings (withContainer dom2 v) = warnings v /\
    uncaught (withContainer dom2 v) = uncaught v.
Proof.
  intros Hc Hg Hq Hf Hp wrapper.
  pose proof (findTextInDOM_valid _ _ _ _ Hf) as Hv.
  pose proof (findTextInDOM_sound _ _ _ _ Hf) as Hread.
  split; [unfold surroundContents; now rewrite Hp|].
  split; [exact Hread|].
  destruct (extract_then_insert r wrapper a kids Hv)
    as (dom1 & fragment & bp & bo & kids' & Hx & Hins & Htxt & _).
  exists dom1, fragment, bp, bo, (Elem a kids').
  assert (Hwrap : wrapRange r wrapper (Elem a kids) = Normal (Elem a kids')).
  { unfold wrapRange, surroundContents. rewrite Hp, Hx.
    cbn [appendChild app]. now rewrite Hins. }
  split; [exact Hx|]. split; [exact Hins|]. split.
  { unfold applyOne. rewrite Hc, Hg, Hq. unfold place. rewrite Hf.
    fold wrapper. now rewrite Hwrap. }
  split.
  { rewrite (extractContents_reads _ _ _ _ _ Hv Hx) in Hread.
    now injection Hread. }
  split; [exact (insertNode_places _ _ _ _ _ Hins)|].
  split; [exact Htxt|]. split; [|split; reflexivity].
  intros Hnone.
  destruct (wrapRange_fresh (bindIdIs (Ann.id ann)) r wrapper a kids Hv Hnone)
    as (k1 & Hw1 & Hc1).
  rewrite Hwrap in Hw1. injection Hw1 as <-.
  cbn [querySelectorAll]. rewrite Hc1.
  assert (Hb : bindIdIs (Ann.id ann) wrapper = true) by apply String.eqb_refl.
  now rewrite Hb.
Qed.

Lemma wrap_conflict_falls_back_witness :
  let v := Samples.viewerOn Samples.catNap in
  let ann := Samples.shared "ann-1" "at n" DELETION in
  let r := {| startContainer := [0; 0]; startOffset := 1;
              endContainer := [0; 1; 0]; endOffset := 3 |} in
  let wrapper := wrapperFor "ann-1" DELETION in
  surroundContents r wrapper Samples.catNap = Throw "InvalidStateError" /\
  rangeToString Samples.catNap r = Some "at n" /\
  exists dom1 fragment bp bo dom2,
    extractContents r Samples.catNap = Some (dom1, fragment, (bp, bo)) /\
    insertNode bp bo (appendChild (Elem wrapper []) fragment) dom1
      = Some dom2 /\
    applyOne v ann = Normal (withContainer dom2 v) /\
    textOfList fragment = "at n" /\
    (exists q, nodeAt q dom2 = Some (Elem wrapper fragment)) /\
    textContent dom2 = textContent Samples.catNap /\
    (anyDescendant (bindIdIs "ann-1") Samples.catNap = false ->
     length (querySelectorAll (bindIdIs "ann-1") dom2) = 1) /\
    warnings (withContainer dom2 v) = warnings v /\
    uncaught (withContainer dom2 v) = uncaught v.
Proof.
  intros v ann r wrapper.
  apply (wrap_conflict_falls_back v ann (Samples.plain "article")
           [ Elem (Samples.block "p" "block-0")
               [Text "ca"; Elem (Samples.plain "b") [Text "t nap"]];
             Elem (Samples.block "p" "block-1") [Text "cat"] ] r);
    reflexivity.
Defined.









End ApplyClaims.

(** ** Claims on removal *)

Section MarksAfterRemoval.

Import Dom Viewer.

Local Open Scope string_scope.





(** The state after an overlapping pair of restored annotations: the text
    of the second starts inside the mark of the first. *)
Lemma overlap_state :
  container
    (applySharedAnnotations
       [ Samples.shared "ann-Y" "quick brown" DELETION;
         Samples.shared "ann-X" "brown fox" COMMENT ]
       (Samples.viewerOn Samples.quickFox))
  = Some
      (Elem (Samples.plain "article")
         [ Elem (Samples.block "p" "para-1")
             [ Text "The ";
               Elem (wrapperFor "ann-Y" DELETION) [Text "quick "];
               Elem (wrapperFor "ann-X" COMMENT)
                 [ Elem (wrapperFor "ann-Y" DELETION) [Text "brown"];
                   Text " fox" ];
               Text "" ] ]).
Proof. reflexivity. Qed.




End MarksAfterRemoval.
